(** * ce-drivers: container-engine drivers (docker, podman) and their loader

    A shallow embedding of the Go sources

      - [plug-ins/docker/docker.go]  (module [Docker]),
      - [plug-ins/podman/podman.go]  (module [Podman]),
      - the command that loads a driver and exercises it (module [Cmd]),

    together with the properties proved about them.  Engine client
    libraries, the Go runtime (clock, tickers, channels, pipes) and the plugin
    loader are the environment: their replies are inputs of the model. *)

From Stdlib Require Import ZArith List String Bool Lia.
Import ListNotations.

Local Open Scope string_scope.
Local Open Scope Z_scope.

(* ===================================================================== *)
(** * The part of the Go runtime the drivers rely on *)
(* ===================================================================== *)

Module Go.

(** Go [error] values.  Sentinels are constructors of their own, so that the
    source's [err == io.EOF] is decidable equality. *)
Inductive error : Type :=
| io_EOF
| context_DeadlineExceeded
| context_Canceled
| JSONError (code : Z) (message : string)   (* *jsonmessage.JSONError *)
| errorString (s : string)                  (* any other error, by message *)
| wrapError (prefix : string) (e : error).  (* fmt.Errorf("prefix: %w", e) *)

Definition error_eq_dec : forall a b : error, {a = b} + {a <> b}.
Proof. decide equality; first [apply string_dec | apply Z.eq_dec]. Defined.

(** The line feed that [fmt.Println] ends its output with. *)
Definition newline : string := String (Ascii.ascii_of_nat 10) EmptyString.

(** [time.Duration]: a count of nanoseconds; [time.Time]: a reading of the
    monotonic clock, in nanoseconds. *)
Definition Duration := Z.
Definition Time := Z.

Definition Second : Duration := 1000000000.
Definition Minute : Duration := 60 * Second.

(** [time.Since(t)], evaluated when the clock reads [now]. *)
Definition time_Since (now t : Time) : Duration := now - t.

(** [context.WithTimeout(parent, timeout)] over a parent that is never done
    ([context.Background()], [context.TODO()]), made when the clock reads
    [now].  The drivers call the returned [cancel] only when they return. *)
Record Context : Type := { ctx_deadline : Time }.

Definition context_WithTimeout (now : Time) (timeout : Duration) : Context :=
  {| ctx_deadline := now + timeout |}.

(** Whether [<-ctx.Done()] is ready when the clock reads [now]. *)
Definition ctx_Done (ctx : Context) (now : Time) : bool :=
  ctx_deadline ctx <=? now.

(** [ctx.Err()] *)
Definition ctx_Err (ctx : Context) (now : Time) : option error :=
  if ctx_Done ctx now then Some context_DeadlineExceeded else None.

(** [time.NewTicker(d)] created when the clock read [t0]: it fires at
    [t0 + k * d], [k >= 1], into a channel that holds one tick and drops the
    ones that find it full.  [next_fire t0 d last] is the first instant after
    [last] (the last receive, or the creation) at which it fires. *)
Definition next_fire (t0 : Time) (d : Duration) (last : Time) : Time :=
  t0 + ((last - t0) / d + 1) * d.

(** What a function call ends in: a normal return or a run-time panic. *)
Inductive outcome (A : Type) : Type :=
| Returned (a : A)
| Panicked (why : string).
Arguments Returned {A} a.
Arguments Panicked {A} why.

(** The two goroutines of a [ContainerExec] call: the caller's and the one
    that drains the attached stream.  A schedule is the order in which they
    are given the chance of a step. *)
Inductive thread : Type := Main | Drain.

(** What a [ContainerExec] call does, as far as the order matters. *)
Inductive exec_event : Type :=
| ev_ExecCreate          (* the exec-create request *)
| ev_ExecStart           (* the exec-start / attach request *)
| ev_go                  (* go func() { ... }() *)
| ev_copied (e : option error)  (* the drain's copy returned [e] *)
| ev_signal              (* the drain sends on its completion channel *)
| ev_received            (* the caller receives from that channel *)
| ev_ExecInspect         (* the exec-inspect request (the exit code) *)
| ev_checked             (* the caller tested [err != nil] after the inspect *)
| ev_result              (* the caller evaluated its return values *)
| ev_restored.           (* os.Stdout = stdout *)

Definition exec_event_eq_dec : forall a b : exec_event, {a = b} + {a <> b}.
Proof. decide equality. decide equality. apply error_eq_dec. Defined.

(** In the chronological trace [tr], every [b] comes after some [a]. *)
Definition before (a b : exec_event) (tr : list exec_event) : Prop :=
  forall l1 l2, tr = (l1 ++ b :: l2)%list -> In a l1.

End Go.

(* ===================================================================== *)
(** * driver: the common data model *)
(* ===================================================================== *)

Module Driver.

(** Modelled from the spec: the package [driver] (the declaration of
    [ExecResult]) is not among the sources.  "ExecResult: exit code (integer),
    captured standard-output buffer, captured standard-error buffer (may be
    absent)."  The buffers are pointers in the drivers: [B] is what stands for
    a [*bytes.Buffer], [None] is nil. *)
Record ExecResult (B : Type) : Type := {
  ExitCode : Z;
  OutBuffer : option B;
  ErrBuffer : option B
}.
Arguments ExitCode {B} _.
Arguments OutBuffer {B} _.
Arguments ErrBuffer {B} _.

(** [driver.ExecResult{}] *)
Definition ExecResult_zero {B : Type} : ExecResult B :=
  {| ExitCode := 0; OutBuffer := None; ErrBuffer := None |}.

(** Modelled from the spec: the declarations of the common data model are not
    among the sources.  The fields are those the spec lists ("ImageSummary:
    identifier, creation timestamp, size, label mapping, repo-tag list",
    "Container: identifier, name list, image reference, image identifier,
    label mapping, lifecycle state, status text", ...), under the names the
    drivers and the command use. *)
Record ImageSummary : Type := {
  IS_ID : string;
  IS_Created : Z;
  IS_Size : Z;
  IS_Labels : list (string * string);
  IS_RepoTags : list string
}.

Record ImageInspect : Type := {
  II_ID : string;
  II_Size : Z;
  II_RepoTags : list string
}.

Record Container : Type := {
  C_ID : string;
  C_Names : list string;
  C_Image : string;
  C_ImageID : string;
  C_Labels : list (string * string);
  C_State : string;
  C_Status : string
}.

Record InspectContainerData : Type := {
  ICD_ID : string;
  ICD_Created : Z;
  ICD_Path : string;
  ICD_Args : list string;
  ICD_Image : string;
  ICD_ImageName : string;
  ICD_Name : string
}.

Record ContainerCreateResponse : Type := { CCR_ID : string }.

Record NetworkCreateResponse : Type := {
  NCR_ID : string;
  NCR_Warning : string
}.

Record NetworkResource : Type := { NR_Name : string }.

(** Modelled from the spec: the option structs are not among the sources.
    "Option structs (ImagePullOptions, ImageListOptions,
    ContainerListOptions, NetworkCreateOptions): configuration bags with
    named optional fields; every field has a zero-value default meaning use
    backend default."  [Driver] is the one field that a driver reads. *)
Record NetworkCreateOptions : Type := { NCO_Driver : string }.

(** Modelled from the spec: the interface [driver.Driver] is not among the
    sources.  "A polymorphic interface, implemented independently by each
    backend, exposing exactly these operation groups: Lifecycle: New() ->
    error.  Images: ImagesPull, ImagesList, ImageInspect.  Containers:
    ContainerCreate, ContainerStart, ContainerWait, ContainerList,
    ContainerInspect, ContainerStop, ContainerRemove, ContainerExec.
    Networks: NetworkCreate, NetworkInspect, NetworkRemove, NetworkConnect,
    NetworkDisconnect."  [W] is the state of the engine behind the backend;
    the option structs carry nothing the command sets. *)
Record Driver (W : Type) : Type := {
  New : W -> option Go.error * W;
  ImagesPull : string -> W -> (list string * option Go.error) * W;
  ImagesList : W -> (list ImageSummary * option Go.error) * W;
  ImageInspect_ : string -> W -> (option ImageInspect * option Go.error) * W;
  ContainerCreate : string -> W -> (ContainerCreateResponse * option Go.error) * W;
  ContainerStart : string -> W -> option Go.error * W;
  ContainerWait : string -> string -> Go.Duration -> Go.Duration -> W ->
                  option Go.error * W;
  ContainerList : W -> (list Container * option Go.error) * W;
  ContainerInspect : string -> W ->
                     (option InspectContainerData * option Go.error) * W;
  ContainerStop : string -> W -> option Go.error * W;
  ContainerRemove : string -> W -> option Go.error * W;
  ContainerExec : string -> list string -> W ->
                  (ExecResult string * option Go.error) * W;
  NetworkCreate : string -> W -> (NetworkCreateResponse * option Go.error) * W;
  NetworkInspect : string -> W -> (NetworkResource * option Go.error) * W;
  NetworkRemove : string -> W -> option Go.error * W;
  NetworkConnect : string -> string -> list string -> W -> option Go.error * W;
  NetworkDisconnect : string -> string -> bool -> W -> option Go.error * W
}.

End Driver.

(* ===================================================================== *)
(** * plug-ins/docker/docker.go *)
(* ===================================================================== *)

Module Docker.
Import Go.

Definition defaultTimeout : Duration := 2 * Minute - 1 * Second.
Definition defaultShmSize : Z := 1024 * 1024 * 64.
Definition defaultImagePullingProgressReportInterval : Duration := 10 * Second.

(** ** Pull progress *)

(** [jsonmessage.JSONMessage], the fields the driver reads.  [Progress] holds
    what [Progress.String()] renders when the pointer is not nil; [Error] the
    code and message of the [*JSONError] when it is not nil. *)
Record JSONMessage : Type := {
  ID : string;
  Status : string;
  Progress : option string;
  Error : option (Z * string)
}.

(** [type progress struct]: the latest message and the time of the latest
    update.  The lock makes [set] and [get] atomic; they are single steps
    here. *)
Record progress : Type := {
  message : option JSONMessage;
  timestamp : Time
}.

Definition newProgress (now : Time) : progress :=
  {| message := None; timestamp := now |}.

Definition progress_set (p : progress) (msg : JSONMessage) (now : Time) : progress :=
  {| message := Some msg; timestamp := now |}.

Definition progress_get (p : progress) : string * Time :=
  match message p with
  | None => ("No progress", timestamp p)
  | Some m =>
      let prefix := if string_dec (ID m) "" then "" else ID m ++ ": " in
      match Progress m with
      | None => (prefix ++ Status m, timestamp p)
      | Some pr => (prefix ++ Status m ++ " " ++ pr, timestamp p)
      end
  end.

(** ** The progress reporter and its watchdog goroutine *)

Inductive goroutine : Type := not_started | running | exited.

(** [type progressReporter struct] with the state of the goroutine that
    [start] launches.  [cancel] is the pull's [context.CancelFunc];
    [cancel_calls] counts the goroutine's invocations of it. *)
Record progressReporter : Type := {
  p_progress : progress;
  image : string;
  imagePullProgressDeadline : Duration;
  stopCh_closed : bool;
  watchdog : goroutine;
  cancel_calls : nat
}.

Definition newProgressReporter (img : string) (deadline : Duration) (now : Time)
  : progressReporter :=
  {| p_progress := newProgress now;
     image := img;
     imagePullProgressDeadline := deadline;
     stopCh_closed := false;
     watchdog := not_started;
     cancel_calls := 0 |}.

(** [start]: the goroutine begins to run (its ticker and loop follow). *)
Definition progressReporter_start (p : progressReporter) : progressReporter :=
  {| p_progress := p_progress p; image := image p;
     imagePullProgressDeadline := imagePullProgressDeadline p;
     stopCh_closed := stopCh_closed p;
     watchdog := running;
     cancel_calls := cancel_calls p |}.

(** [stop]: [close(p.stopCh)]. *)
Definition progressReporter_stop (p : progressReporter) : progressReporter :=
  {| p_progress := p_progress p; image := image p;
     imagePullProgressDeadline := imagePullProgressDeadline p;
     stopCh_closed := true;
     watchdog := watchdog p;
     cancel_calls := cancel_calls p |}.

(** [reporter.set(&msg)], called by the decode loop when the clock reads [now]. *)
Definition progressReporter_set (p : progressReporter) (msg : JSONMessage) (now : Time)
  : progressReporter :=
  {| p_progress := progress_set (p_progress p) msg now; image := image p;
     imagePullProgressDeadline := imagePullProgressDeadline p;
     stopCh_closed := stopCh_closed p;
     watchdog := watchdog p;
     cancel_calls := cancel_calls p |}.

(** What happens to a reporter, in the order the lock and the goroutine's
    [select] serialise it. *)
Inductive event : Type :=
| ev_set (msg : JSONMessage) (now : Time) (* the decode loop records a message *)
| ev_tick (now : Time)                    (* select receives from ticker.C; the
                                             clock reads [now] at time.Since *)
| ev_close                                (* reporter.stop(): close(p.stopCh) *)
| ev_stop.                                (* select receives from p.stopCh *)

(** The [case <-ticker.C] arm of the loop. *)
Definition on_tick (p : progressReporter) (now : Time) : progressReporter :=
  let '(_, ts) := progress_get (p_progress p) in
  if time_Since now ts >? imagePullProgressDeadline p then
    (* p.cancel(); return *)
    {| p_progress := p_progress p; image := image p;
       imagePullProgressDeadline := imagePullProgressDeadline p;
       stopCh_closed := stopCh_closed p;
       watchdog := exited;
       cancel_calls := S (cancel_calls p) |}
  else p.

(** The [case <-p.stopCh] arm of the loop: [return]. *)
Definition on_stop (p : progressReporter) : progressReporter :=
  {| p_progress := p_progress p; image := image p;
     imagePullProgressDeadline := imagePullProgressDeadline p;
     stopCh_closed := stopCh_closed p;
     watchdog := exited;
     cancel_calls := cancel_calls p |}.

(** One event.  Only a running goroutine receives from its channels, and
    from the stop channel only once it is closed (nothing is ever sent on
    it). *)
Definition react (p : progressReporter) (e : event) : progressReporter :=
  match e with
  | ev_set msg now => progressReporter_set p msg now
  | ev_tick now =>
      match watchdog p with
      | running => on_tick p now
      | _ => p
      end
  | ev_close => progressReporter_stop p
  | ev_stop =>
      match watchdog p with
      | running => if stopCh_closed p then on_stop p else p
      | _ => p
      end
  end.

Definition reactAll (p : progressReporter) (evs : list event) : progressReporter :=
  fold_left react evs p.

(** The ticks of [time.NewTicker(d)] created when the clock reads [t1]: the
    first [n] of them, each received at the instant it fires. *)
Definition ticker (t1 : Time) (d : Duration) (n : nat) : list event :=
  map (fun k => ev_tick (t1 + Z.of_nat k * d)) (seq 1 n).

(** The goroutine's own ticker,
    [time.NewTicker(defaultImagePullingProgressReportInterval)]. *)
Definition start_ticker (t1 : Time) (n : nat) : list event :=
  ticker t1 defaultImagePullingProgressReportInterval n.

(** ** ImagesPull *)

(** What one [decoder.Decode(&msg)] call gives. *)
Inductive decoded : Type :=
| dec_err (e : error)
| dec_msg (m : JSONMessage).

(** The response body as the decoder sees it: the result of each successive
    [Decode] call with the clock reading at which it returns.  A body that is
    exhausted gives [io.EOF]. *)
Definition body := list (Time * decoded).

(** The [for] loop of [ImagesPull].  Result: the error returned ([None] is
    nil), the messages passed to [reporter.set] in order, and the reporter. *)
Fixpoint decode_loop (resp : body) (reporter : progressReporter)
  : option error * list JSONMessage * progressReporter :=
  match resp with
  | [] => (None, [], reporter)                       (* err == io.EOF: break *)
  | (now, dec_err e) :: rest =>
      if error_eq_dec e io_EOF then (None, [], reporter)
      else (Some e, [], reporter)
  | (now, dec_msg msg) :: rest =>
      match Error msg with
      | Some (code, text) => (Some (JSONError code text), [], reporter)
      | None =>
          let '(r, sets, reporter') :=
            decode_loop rest (progressReporter_set reporter msg now) in
          (r, msg :: sets, reporter')
      end
  end.

(** The engine's replies to one [ImagesPull]. *)
Record pull_env : Type := {
  encode_auth : error + string;      (* base64EncodeAuth(auth) *)
  image_pull : error + body;         (* c.client.ImagePull(ctx, refStr, opts) *)
  pull_started : Time                (* the clock at newProgressReporter *)
}.

(** What the caller of [ImagesPull] can observe. *)
Record pull_result : Type := {
  pull_tags : list string;           (* always nil *)
  pull_err : option error;
  pull_sets : list JSONMessage;      (* the messages recorded, in order *)
  pull_ctx_cancelled : bool;         (* defer cancel() ran *)
  pull_resp_closed : bool;           (* defer resp.Close() ran *)
  pull_reporter : option progressReporter
}.

Definition ImagesPull (env : pull_env) (refStr : string) : pull_result :=
  match encode_auth env with
  | inl err =>
      {| pull_tags := []; pull_err := Some err; pull_sets := [];
         pull_ctx_cancelled := false; pull_resp_closed := false;
         pull_reporter := None |}
  | inr base64Auth =>
      match image_pull env with
      | inl err =>
          {| pull_tags := []; pull_err := Some err; pull_sets := [];
             pull_ctx_cancelled := true; pull_resp_closed := false;
             pull_reporter := None |}
      | inr resp =>
          let reporter :=
            progressReporter_start
              (newProgressReporter refStr (10 * Second) (pull_started env)) in
          let '(err, sets, reporter') := decode_loop resp reporter in
          {| pull_tags := []; pull_err := err; pull_sets := sets;
             pull_ctx_cancelled := true; pull_resp_closed := true;
             pull_reporter := Some (progressReporter_stop reporter') |}
      end
  end.

(** A decoded event that carries no error field. *)
Definition clean (d : Time * decoded) : Prop :=
  exists m, snd d = dec_msg m /\ Error m = None.

Definition recorded (pre : body) : list JSONMessage :=
  flat_map (fun d => match snd d with dec_msg m => [m] | dec_err _ => [] end) pre.

Definition record_all (reporter : progressReporter) (pre : body) : progressReporter :=
  fold_left (fun p d => match snd d with
                        | dec_msg m => progressReporter_set p m (fst d)
                        | dec_err _ => p
                        end) pre reporter.

(** What the progress of a reporter created at [t0] holds once the events of
    [pre] have been recorded: the last of them and the time it was decoded
    at, or no message and [t0] when there is none. *)
Definition latest (t0 : Time) (pre : body) : progress :=
  match rev pre with
  | (t, dec_msg m) :: _ => {| message := Some m; timestamp := t |}
  | _ => {| message := None; timestamp := t0 |}
  end.

(** A pull that the engine accepts at time 0 and whose body holds two
    progress messages, decoded after 1s and 2s, and then an event with an
    error field. *)
Definition layer (status : string) : JSONMessage :=
  {| ID := "6c40cc604d8e"; Status := status; Progress := None; Error := None |}.

Definition refused : JSONMessage :=
  {| ID := ""; Status := ""; Progress := None;
     Error := Some (404, "manifest unknown") |}.

Definition refused_pull : pull_env :=
  {| encode_auth := inr "e30K";
     image_pull := inr [(1 * Second, dec_msg (layer "Downloading"));
                        (2 * Second, dec_msg (layer "Extracting"));
                        (3 * Second, dec_msg refused)];
     pull_started := 0 |}.

(** ** ContainerWait *)

(** [types.ContainerJSON], the field the driver reads:
    [container.State.Status]. *)
Record ContainerJSON : Type := { State_Status : string }.

(** The engine's side of [c.client.ContainerInspect(ctx, id)]: for a container
    and the number of earlier inspect calls, how long the call takes and what
    it returns. *)
Definition inspect_replies := string -> nat -> Duration * (error + ContainerJSON).

(** The state that [ContainerWait] and its closure work on: the clock, the
    number of inspect calls made, and the function's variable [err]. *)
Record wait_world : Type := {
  clock : Time;
  inspect_calls : nat;
  var_err : option error
}.

(** [skupperutils.ConditionFunc] *)
Definition ConditionFunc := wait_world -> (bool * option error) * wait_world.

Inductive chosen : Type := chose_ctx_Done | chose_tick.

(** The [select] of [RetryWithContext], entered when the clock reads [now]:
    which case runs and when.  A case that is ready runs at once; if both are
    ready the runtime picks one ([coin]); if none is, the goroutine sleeps
    until the earlier of the deadline and the next tick. *)
Definition select (ctx : Context) (t0 : Time) (interval : Duration)
    (last : Time) (coin : bool) (now : Time) : chosen * Time :=
  let nf := next_fire t0 interval last in
  match ctx_Done ctx now, nf <=? now with
  | true, true => (if coin then chose_ctx_Done else chose_tick, now)
  | true, false => (chose_ctx_Done, now)
  | false, true => (chose_tick, now)
  | false, false =>
      if nf <? ctx_deadline ctx then (chose_tick, nf)
      else if ctx_deadline ctx <? nf then (chose_ctx_Done, ctx_deadline ctx)
      else (if coin then chose_ctx_Done else chose_tick, nf)
  end.

Definition at_time (w : wait_world) (t : Time) : wait_world :=
  {| clock := t; inspect_calls := inspect_calls w; var_err := var_err w |}.

(** The [for] loop of [skupperutils.RetryWithContext] (a helper of the skupper
    library, which "retries f every interval until the specified context times
    out"): call [f]; return its error, or nil if it says done; else wait for
    the context or the next tick.  [fuel] bounds the rounds observed, [None]
    is a loop still running when it is used up. *)
Fixpoint retry_loop (fuel : nat) (ctx : Context) (t0 : Time)
    (interval : Duration) (coins : nat -> bool) (round : nat) (last : Time)
    (f : ConditionFunc) (w : wait_world) : option (option error * wait_world) :=
  match fuel with
  | O => None
  | S fuel' =>
      let '((ok, err), w1) := f w in
      match err with
      | Some e => Some (Some e, w1)
      | None =>
          if ok then Some (None, w1)
          else
            let '(c, t) := select ctx t0 interval last (coins round) (clock w1) in
            match c with
            | chose_ctx_Done => Some (ctx_Err ctx t, at_time w1 t)
            | chose_tick =>
                retry_loop fuel' ctx t0 interval coins (S round) t f (at_time w1 t)
            end
      end
  end.

(** [skupperutils.RetryWithContext(ctx, interval, f)]; [time.NewTicker]
    panics on a non-positive interval. *)
Definition RetryWithContext (fuel : nat) (ctx : Context) (interval : Duration)
    (coins : nat -> bool) (f : ConditionFunc) (w : wait_world)
  : option (outcome (option error) * wait_world) :=
  if interval <=? 0 then
    Some (Panicked "non-positive interval for NewTicker", w)
  else
    match retry_loop fuel ctx (clock w) interval coins 0 (clock w) f w with
    | None => None
    | Some (r, w') => Some (Returned r, w')
    end.

(** The closure that [ContainerWait] passes to [RetryWithContext]. *)
Definition wait_condition (engine : inspect_replies) (id status : string)
  : ConditionFunc :=
  fun w =>
    let '(took, reply) := engine id (inspect_calls w) in
    match reply with
    | inl e =>
        (* container, err = c.client.ContainerInspect(ctx, id); return false, nil *)
        ((false, None),
         {| clock := clock w + took; inspect_calls := S (inspect_calls w);
            var_err := Some e |})
    | inr container =>
        ((String.eqb (State_Status container) status, None),
         {| clock := clock w + took; inspect_calls := S (inspect_calls w);
            var_err := None |})
    end.

(** [ContainerWait(id, status, timeout, interval)], called when the clock
    reads [now]: what it returns, the time it returns at and the number of
    inspect calls it made. *)
Definition ContainerWait (engine : inspect_replies) (fuel : nat)
    (coins : nat -> bool) (now : Time)
    (id status : string) (timeout interval : Duration)
  : option (outcome (option error) * wait_world) :=
  let w := {| clock := now; inspect_calls := 0; var_err := None |} in
  let ctx := context_WithTimeout now timeout in
  match RetryWithContext fuel ctx interval coins (wait_condition engine id status) w with
  | None => None
  | Some (Panicked why, w') => Some (Panicked why, w')
  | Some (Returned r, w') =>
      (* err = skupperutils.RetryWithContext(...); return err *)
      Some (Returned r,
            {| clock := clock w'; inspect_calls := inspect_calls w'; var_err := r |})
  end.

(** The error of the last failed inspect among the first [n] calls. *)
Fixpoint last_inspect_error (engine : inspect_replies) (id : string) (n : nat)
  : option error :=
  match n with
  | O => None
  | S k =>
      match snd (engine id k) with
      | inl e => Some e
      | inr _ => last_inspect_error engine id k
      end
  end.

(** ** ContainerExec *)

Module Exec.

(** The attached stream of an exec session: multiplexed frames, then the end
    of the stream ([None]) or a read error. *)
Inductive frame : Type :=
| frame_stdout (data : string)
| frame_stderr (data : string).

Record stream : Type := {
  frames : list frame;
  read_error : option error
}.

(** The engine's replies. *)
Record engine : Type := {
  ContainerExecCreate : string -> list string -> error + string;
  ContainerExecAttach : string -> error + stream;
  ContainerExecInspect : string -> error + Z
}.

Fixpoint demux (fs : list frame) (out err : string) : string * string :=
  match fs with
  | [] => (out, err)
  | frame_stdout d :: fs' => demux fs' (out ++ d) err
  | frame_stderr d :: fs' => demux fs' out (err ++ d)
  end.

(** [stdcopy.StdCopy(&outBuf, &errBuf, reader)]: the two buffers after it and
    the error it returns (reaching the end of the stream is no error). *)
Definition StdCopy (src : stream) (out err : string)
  : (string * string) * option error :=
  (demux (frames src) out err,
   match read_error src with
   | Some e => if error_eq_dec e io_EOF then None else Some e
   | None => None
   end).

(** The two local buffers, as the result points to them. *)
Inductive buffer : Type := outBuf | errBuf.

Definition result : Type := Driver.ExecResult buffer * option error.

(** Where the caller is. *)
Inductive main_pc : Type :=
| m_create                       (* before ContainerExecCreate *)
| m_attach (execID : string)     (* before ContainerExecAttach *)
| m_go (execID : string) (src : stream)  (* before the go statement *)
| m_select (execID : string)     (* at the select on outputDone *)
| m_inspect (execID : string)    (* before ContainerExecInspect *)
| m_returned (r : result).       (* returned, deferred calls done *)

(** Where the drain goroutine is. *)
Inductive drain_pc : Type :=
| g_none                         (* not started *)
| g_copy (src : stream)          (* before StdCopy *)
| g_send                         (* before outputDone <- err *)
| g_exit.

Record state : Type := {
  main : main_pc;
  drain : drain_pc;
  var_err : option error;            (* the function's variable err *)
  mem_outBuf : string;               (* the contents of outBuf *)
  mem_errBuf : string;               (* the contents of errBuf *)
  outputDone : list (option error);  (* make(chan error, 1) *)
  attach_closed : bool;              (* defer attachResponse.Close() ran *)
  ctx_cancelled : bool;              (* defer cancel() ran *)
  trace : list exec_event
}.

Definition init : state :=
  {| main := m_create; drain := g_none; var_err := None;
     mem_outBuf := ""; mem_errBuf := ""; outputDone := [];
     attach_closed := false; ctx_cancelled := false; trace := [] |}.

(** The caller moves to [pc], having set [err] and done the events [evs]. *)
Definition goto (pc : main_pc) (e : option error) (evs : list exec_event)
    (s : state) : state :=
  {| main := pc; drain := drain s; var_err := e;
     mem_outBuf := mem_outBuf s; mem_errBuf := mem_errBuf s;
     outputDone := outputDone s;
     attach_closed := attach_closed s; ctx_cancelled := ctx_cancelled s;
     trace := (trace s ++ evs)%list |}.

(** The caller returns [r]; the deferred calls run: [attachResponse.Close()]
    if the attach had succeeded, then [cancel()]. *)
Definition ret (r : result) (attached : bool) (evs : list exec_event)
    (s : state) : state :=
  {| main := m_returned r; drain := drain s; var_err := snd r;
     mem_outBuf := mem_outBuf s; mem_errBuf := mem_errBuf s;
     outputDone := outputDone s;
     attach_closed := attached; ctx_cancelled := true;
     trace := (trace s ++ evs)%list |}.

(** One step of the caller; [None] when it is blocked or has returned. *)
Definition step_main (eng : engine) (id : string) (cmd : list string)
    (s : state) : option state :=
  match main s with
  | m_create =>
      match ContainerExecCreate eng id cmd with
      | inl e => Some (ret (Driver.ExecResult_zero, Some e) false [ev_ExecCreate] s)
      | inr execID => Some (goto (m_attach execID) None [ev_ExecCreate] s)
      end
  | m_attach execID =>
      match ContainerExecAttach eng execID with
      | inl e => Some (ret (Driver.ExecResult_zero, Some e) false [ev_ExecStart] s)
      | inr src => Some (goto (m_go execID src) None [ev_ExecStart] s)
      end
  | m_go execID src =>
      Some {| main := m_select execID; drain := g_copy src; var_err := var_err s;
              mem_outBuf := mem_outBuf s; mem_errBuf := mem_errBuf s;
              outputDone := outputDone s;
              attach_closed := attach_closed s; ctx_cancelled := ctx_cancelled s;
              trace := (trace s ++ [ev_go])%list |}
  | m_select execID =>
      (* select { case err := <-outputDone: ... }: the only case *)
      match outputDone s with
      | [] => None
      | v :: rest =>
          let s' := {| main := main s; drain := drain s; var_err := var_err s;
                       mem_outBuf := mem_outBuf s; mem_errBuf := mem_errBuf s;
                       outputDone := rest;
                       attach_closed := attach_closed s;
                       ctx_cancelled := ctx_cancelled s;
                       trace := trace s |} in
          match v with
          | Some e =>
              (* the case's own err; the function's is left as it is *)
              Some {| main := m_returned (Driver.ExecResult_zero, Some e);
                      drain := drain s'; var_err := var_err s';
                      mem_outBuf := mem_outBuf s'; mem_errBuf := mem_errBuf s';
                      outputDone := outputDone s';
                      attach_closed := true; ctx_cancelled := true;
                      trace := (trace s' ++ [ev_received; ev_result])%list |}
          | None => Some (goto (m_inspect execID) (var_err s') [ev_received] s')
          end
      end
  | m_inspect execID =>
      match ContainerExecInspect eng execID with
      | inl e =>
          Some (ret (Driver.ExecResult_zero, Some e) true
                    [ev_ExecInspect; ev_checked; ev_result] s)
      | inr code =>
          Some (ret ({| Driver.ExitCode := code;
                        Driver.OutBuffer := Some outBuf;
                        Driver.ErrBuffer := Some errBuf |}, None) true
                    [ev_ExecInspect; ev_checked; ev_result] s)
      end
  | m_returned _ => None
  end.

(** One step of the drain goroutine. *)
Definition step_drain (s : state) : option state :=
  match drain s with
  | g_none => None
  | g_copy src =>
      (* _, err = dockerstdcopy.StdCopy(&outBuf, &errBuf, attachResponse.Reader) *)
      let '((out, err), e) := StdCopy src (mem_outBuf s) (mem_errBuf s) in
      Some {| main := main s; drain := g_send; var_err := e;
              mem_outBuf := out; mem_errBuf := err;
              outputDone := outputDone s;
              attach_closed := attach_closed s; ctx_cancelled := ctx_cancelled s;
              trace := (trace s ++ [ev_copied e])%list |}
  | g_send =>
      (* outputDone <- err: the channel holds one value *)
      match outputDone s with
      | [] =>
          Some {| main := main s; drain := g_exit; var_err := var_err s;
                  mem_outBuf := mem_outBuf s; mem_errBuf := mem_errBuf s;
                  outputDone := [var_err s];
                  attach_closed := attach_closed s;
                  ctx_cancelled := ctx_cancelled s;
                  trace := (trace s ++ [ev_signal])%list |}
      | _ :: _ => None
      end
  | g_exit => None
  end.

Definition step (eng : engine) (id : string) (cmd : list string)
    (t : thread) (s : state) : state :=
  match (match t with Main => step_main eng id cmd s | Drain => step_drain s end) with
  | Some s' => s'
  | None => s
  end.

(** [ContainerExec(id, cmd)] under the schedule [sched]: the state reached. *)
Definition ContainerExec (eng : engine) (id : string) (cmd : list string)
    (sched : list thread) : state :=
  fold_left (fun s t => step eng id cmd t s) sched init.

(** What the caller got, once the call has returned. *)
Definition returned (s : state) : option result :=
  match main s with
  | m_returned r => Some r
  | _ => None
  end.

(** What a buffer pointer of the result gives when read in state [s]. *)
Definition load (s : state) (b : buffer) : string :=
  match b with
  | outBuf => mem_outBuf s
  | errBuf => mem_errBuf s
  end.

(** What the exit-code query alone would make [ContainerExec] return. *)
Definition result_of_inspect (reply : error + Z) : result :=
  match reply with
  | inl e => (Driver.ExecResult_zero, Some e)
  | inr code =>
      ({| Driver.ExitCode := code; Driver.OutBuffer := Some outBuf;
          Driver.ErrBuffer := Some errBuf |}, None)
  end.

(** The reading of the stream capturer under which a failure of the drain is
    dropped and the call returns what the exit-code query gives. *)
Definition swallows_drain_error : Prop :=
  forall eng id cmd sched execID src e r,
    ContainerExecCreate eng id cmd = inr execID ->
    ContainerExecAttach eng execID = inr src ->
    snd (StdCopy src "" "") = Some e ->
    returned (ContainerExec eng id cmd sched) = Some r ->
    r = result_of_inspect (ContainerExecInspect eng execID).

(** The order of the completion signal and the exit-code query. *)
Definition inv_order (s : state) : Prop :=
  before ev_signal ev_received (trace s) /\
  before ev_received ev_ExecInspect (trace s) /\
  (outputDone s <> [] -> In ev_signal (trace s)) /\
  (forall x, main s = m_inspect x -> In ev_received (trace s)).

(** A session whose stream fails with [e]. *)
Definition inv_failing (x : string) (src : stream) (e : error) (s : state) : Prop :=
  (forall x', main s = m_attach x' -> x' = x) /\
  (forall x' src', main s = m_go x' src' -> src' = src) /\
  (forall src', drain s = g_copy src' -> src' = src) /\
  (drain s = g_send -> var_err s = Some e) /\
  (forall v, In v (outputDone s) -> v = Some e) /\
  (forall x', main s <> m_inspect x') /\
  ~ In ev_ExecInspect (trace s) /\
  (drain s <> g_none ->
   (exists x', main s = m_select x') \/ exists r, main s = m_returned r) /\
  (forall r, main s = m_returned r -> r = (Driver.ExecResult_zero, Some e)).

(** An engine whose session writes "hel", "warn" (to its standard error) and
    "lo", and whose stream then breaks. *)
Definition broken_stream : engine :=
  {| ContainerExecCreate := fun _ _ => inr "e1";
     ContainerExecAttach := fun _ =>
       inr {| frames := [frame_stdout "hel"; frame_stderr "warn"; frame_stdout "lo"];
              read_error := Some (errorString "connection reset") |};
     ContainerExecInspect := fun _ => inr 0 |}.

(** The same session with a stream that ends well. *)
Definition sound_stream : engine :=
  {| ContainerExecCreate := fun _ _ => inr "e1";
     ContainerExecAttach := fun _ =>
       inr {| frames := [frame_stdout "hel"; frame_stderr "warn"; frame_stdout "lo"];
              read_error := None |};
     ContainerExecInspect := fun _ => inr 0 |}.

(** A schedule that lets any call finish. *)
Definition fair : list thread := [Main; Main; Main; Drain; Drain; Main; Main].

(** The payloads that the frames of a stream carry for the standard output
    (for the standard error), in the order of the stream. *)
Definition stdout_of (fs : list frame) : list string :=
  flat_map (fun f => match f with frame_stdout d => [d] | frame_stderr _ => [] end) fs.

Definition stderr_of (fs : list frame) : list string :=
  flat_map (fun f => match f with frame_stderr d => [d] | frame_stdout _ => [] end) fs.

(** What the engine's replies alone make of a call: the first failure among
    exec-create, exec-attach and the drain of the stream, else what the
    exit-code query gives. *)
Definition outcome_of (eng : engine) (id : string) (cmd : list string) : result :=
  match ContainerExecCreate eng id cmd with
  | inl e => (Driver.ExecResult_zero, Some e)
  | inr execID =>
      match ContainerExecAttach eng execID with
      | inl e => (Driver.ExecResult_zero, Some e)
      | inr src =>
          match snd (StdCopy src "" "") with
          | Some e => (Driver.ExecResult_zero, Some e)
          | None => result_of_inspect (ContainerExecInspect eng execID)
          end
      end
  end.

(** Nothing has been written to the buffers or sent on the channel. *)
Definition untouched (s : state) : Prop :=
  mem_outBuf s = "" /\ mem_errBuf s = "" /\ outputDone s = [].

(** The buffers hold what the stream [src] carried. *)
Definition captured (src : stream) (s : state) : Prop :=
  (mem_outBuf s, mem_errBuf s) = demux (frames src) "" "".

(** What the caller and the drain hold at each point of a call. *)
Definition inv_result (eng : engine) (id : string) (cmd : list string)
    (s : state) : Prop :=
  match main s with
  | m_create => drain s = g_none /\ untouched s
  | m_attach x =>
      ContainerExecCreate eng id cmd = inr x /\ drain s = g_none /\ untouched s
  | m_go x src =>
      ContainerExecCreate eng id cmd = inr x /\
      ContainerExecAttach eng x = inr src /\ drain s = g_none /\ untouched s
  | m_select x =>
      ContainerExecCreate eng id cmd = inr x /\
      exists src, ContainerExecAttach eng x = inr src /\
        match drain s with
        | g_none => False
        | g_copy src' => src' = src /\ untouched s
        | g_send =>
            var_err s = snd (StdCopy src "" "") /\ captured src s /\
            outputDone s = []
        | g_exit =>
            outputDone s = [snd (StdCopy src "" "")] /\ captured src s
        end
  | m_inspect x =>
      ContainerExecCreate eng id cmd = inr x /\
      exists src, ContainerExecAttach eng x = inr src /\
        snd (StdCopy src "" "") = None /\ drain s = g_exit /\ captured src s
  | m_returned r =>
      r = outcome_of eng id cmd /\
      (drain s = g_none \/ drain s = g_exit) /\
      (snd r = None ->
       exists x src, ContainerExecCreate eng id cmd = inr x /\
                     ContainerExecAttach eng x = inr src /\ captured src s)
  end.

(** The engine gives the call a session and its stream. *)
Definition attaches (eng : engine) (id : string) (cmd : list string) : Prop :=
  exists x src, ContainerExecCreate eng id cmd = inr x /\
                ContainerExecAttach eng x = inr src.

(** What the call holds and what it has given back: until it returns, its
    context is not cancelled and the attached stream not closed; once it has
    returned, the context is cancelled, the stream is closed if there was
    one, and the drain goroutine, if there was one, has ended. *)
Definition inv_release (eng : engine) (id : string) (cmd : list string)
    (s : state) : Prop :=
  match main s with
  | m_returned _ =>
      ctx_cancelled s = true /\
      (attaches eng id cmd -> attach_closed s = true /\ drain s = g_exit) /\
      (~ attaches eng id cmd -> attach_closed s = false /\ drain s = g_none)
  | _ => ctx_cancelled s = false /\ attach_closed s = false
  end.

End Exec.

(** The engine does not report [status] at its [k]-th inspect of [id]. *)
Definition not_observed (engine : inspect_replies) (id status : string) (k : nat)
  : Prop :=
  forall c, snd (engine id k) = inr c -> State_Status c <> status.

(** The reading of the wait coordinator under which the last inspect error
    is what a wait that times out returns. *)
Definition surfaces_last_inspect_error : Prop :=
  forall engine fuel coins now id status timeout interval r w',
    ContainerWait engine fuel coins now id status timeout interval
      = Some (Returned r, w') ->
    (forall k, (k < inspect_calls w')%nat -> not_observed engine id status k) ->
    last_inspect_error engine id (inspect_calls w') <> None ->
    r = last_inspect_error engine id (inspect_calls w').

(** An engine whose container is "created" for the first [n] inspects and
    "running" from then on; every inspect takes 1ms. *)
Definition starts_after (n : nat) : inspect_replies :=
  fun id k =>
    (1000000,
     inr {| State_Status := if Nat.leb n k then "running" else "created" |}).

(** An engine that does not know the container: every inspect fails, after
    1ms. *)
Definition no_such_container : inspect_replies :=
  fun id k => (1000000, inl (errorString ("No such container: " ++ id))).

(** ** The short-running operations

    [ImageInspect], [ContainerCreate], [ContainerStart], [ContainerInspect],
    [ContainerStop], [ContainerRemove] and the five network operations: one
    request to the engine under a context with the driver's timeout. *)

Module Ops.

(** What these operations return as [error]: an error of a library, as it
    is, or a value of the driver's own
    [type operationTimeout struct { err error }]. *)
Inductive op_error : Type :=
| lib_error (e : error)
| operationTimeout (err : error).

(** The values of the engine's API that the driver reads or makes. *)
Record types_ImageInspect : Type := {
  img_ID : string;
  img_Size : Z;
  img_RepoTags : list string
}.

Record types_ContainerJSON : Type := {
  cj_ID : string;
  cj_Path : string;
  cj_Args : list string;
  cj_Image : string;
  cj_Name : string
}.

Record ContainerCreateCreatedBody : Type := { ccb_ID : string }.

Record types_NetworkCreateResponse : Type := {
  ncr_ID : string;
  ncr_Warning : string
}.

Record types_NetworkResource : Type := { nr_Name : string }.

(** [container.Config], of which the driver sets [Image]; [&HostConfig{}],
    [&NetworkingConfig{}] and [&EndpointSettings{}] are always empty. *)
Record container_Config : Type := { cfg_Image : string }.
Inductive HostConfig : Type := HostConfig_zero.
Inductive NetworkingConfig : Type := NetworkingConfig_zero.
Inductive EndpointSettings : Type := EndpointSettings_zero.

Record ContainerCreateConfig : Type := {
  ccc_Name : string;
  ccc_Config : container_Config;
  ccc_HostConfig : HostConfig;
  ccc_NetworkingConfig : NetworkingConfig
}.

(** [types.NetworkCreate]; the map literal as the list of its entries. *)
Record types_NetworkCreate : Type := {
  CheckDuplicate : bool;
  nc_Driver : string;
  nc_Options : list (string * string)
}.

(** The methods of [*dockerapi.Client] that these operations call.  A
    request made when the clock reads [now], under [ctx]: the time until the
    driver has the reply in hand and looks at the context again, and the
    values that the method returns. *)
Module Client.
Record t : Type := {
  ImageInspectWithRaw :
    Context -> Time -> string -> Duration * (types_ImageInspect * option error);
  ContainerCreate :
    Context -> Time -> container_Config -> HostConfig -> NetworkingConfig ->
    string -> Duration * (ContainerCreateCreatedBody * option error);
  ContainerStart : Context -> Time -> string -> Duration * option error;
  ContainerInspect :
    Context -> Time -> string -> Duration * (types_ContainerJSON * option error);
  ContainerStop : Context -> Time -> string -> Duration * option error;
  ContainerRemove : Context -> Time -> string -> Duration * option error;
  NetworkCreate :
    Context -> Time -> string -> types_NetworkCreate ->
    Duration * (types_NetworkCreateResponse * option error);
  NetworkInspect :
    Context -> Time -> string -> Duration * (types_NetworkResource * option error);
  NetworkRemove : Context -> Time -> string -> Duration * option error;
  NetworkConnect :
    Context -> Time -> string -> string -> EndpointSettings ->
    Duration * option error;
  NetworkDisconnect :
    Context -> Time -> string -> string -> bool -> Duration * option error
}.
End Client.

(** [type dockerClient struct], once [New] has connected it. *)
Record dockerClient : Type := {
  client : Client.t;
  timeout : Duration;
  imagePullProgessDeadline : Duration
}.

(** The process as far as these operations go: the clock, the lines printed,
    the package variable [Driver], and how long the goroutine is held up
    between the two reads of [ctx.Err()] in [contextError]. *)
Record world : Type := {
  now : Time;
  console : list string;
  var_Driver : dockerClient;
  pause : Duration
}.

(** An operation: from a state of the process to what it returns and the
    state it leaves. *)
Definition Op (A : Type) : Type := world -> A * world.

Definition ret {A : Type} (a : A) : Op A := fun w => (a, w).

Definition bind {A B : Type} (c : Op A) (k : A -> Op B) : Op B :=
  fun w => let '(a, w') := c w in k a w'.

Local Notation "x <- c ;; k" := (bind c (fun x => k))
  (at level 61, c at next level, right associativity).
Local Notation "c ;;; k" := (bind c (fun _ => k))
  (at level 61, right associativity).

(** [fmt.Println(args...)] *)
Definition Println (args : list string) : Op unit :=
  fun w => (tt, {| now := now w;
                   console := (console w ++ [String.concat " " args])%list;
                   var_Driver := var_Driver w; pause := pause w |}).

(** [getTimeoutContext(&Driver)]: the operations take the timeout from the
    package variable, not from their receiver. *)
Definition getTimeoutContext : Op Context :=
  fun w => (context_WithTimeout (now w) (timeout (var_Driver w)), w).

(** A request to the engine: the clock moves on by the time it takes. *)
Definition request {A : Type} (r : Time -> Duration * A) : Op A :=
  fun w => let '(took, a) := r (now w) in
           (a, {| now := now w + took; console := console w;
                  var_Driver := var_Driver w; pause := pause w |}).

(** The clock moves on by [d]. *)
Definition passes (d : Duration) : Op unit :=
  fun w => (tt, {| now := now w + d; console := console w;
                   var_Driver := var_Driver w; pause := pause w |}).

(** [contextError(ctx)]:
    [if ctx.Err() == context.DeadlineExceeded {
       return operationTimeout{err: ctx.Err()} };
     return ctx.Err()].
    The context is read for the test and read again for the value returned,
    [pause] later.  A context that is done stays done and [Err] then returns
    the same error again, so the read inside [operationTimeout{...}] gives
    the error of the test; the read of [return ctx.Err()] can find a context
    that has become done since the test, and returns its error bare. *)
Definition contextError (ctx : Context) : Op (option op_error) :=
  fun w =>
    let first := ctx_Err ctx (now w) in
    let '(_, w') := passes (pause w) w in
    let second := ctx_Err ctx (now w') in
    (match first with
     | Some e =>
         if error_eq_dec e context_DeadlineExceeded
         then Some (operationTimeout e)
         else option_map lib_error second
     | None => option_map lib_error second
     end, w').

(** [newContainerSpec(name)] *)
Definition newContainerSpec (name : string) : ContainerCreateConfig :=
  {| ccc_Name := name;
     ccc_Config := {| cfg_Image := "" |};
     ccc_HostConfig := HostConfig_zero;
     ccc_NetworkingConfig := NetworkingConfig_zero |}.

Definition ImageInspect (c : dockerClient) (id : string)
  : Op (option Driver.ImageInspect * option op_error) :=
  Println ["In docker inspect image"] ;;;
  ctx <- getTimeoutContext ;;
  r <- request (fun t => Client.ImageInspectWithRaw (client c) ctx t id) ;;
  let '(data, err) := r in
  ctxErr <- contextError ctx ;;
  match ctxErr with
  | Some e => ret (None, Some e)
  | None =>
      match err with
      | Some e => ret (None, Some (lib_error e))
      | None =>
          ret (Some {| Driver.II_ID := img_ID data;
                       Driver.II_Size := img_Size data;
                       Driver.II_RepoTags := img_RepoTags data |}, None)
      end
  end.

Definition ContainerCreate (c : dockerClient) (image : string)
  : Op (Driver.ContainerCreateResponse * option op_error) :=
  Println ["Inside docker container create"] ;;;
  ctx <- getTimeoutContext ;;
  let opts := newContainerSpec "skupper-router" in
  (* opts.Config.Image = image; the platform argument of the request is nil *)
  let opts := {| ccc_Name := ccc_Name opts;
                 ccc_Config := {| cfg_Image := image |};
                 ccc_HostConfig := ccc_HostConfig opts;
                 ccc_NetworkingConfig := ccc_NetworkingConfig opts |} in
  r <- request (fun t => Client.ContainerCreate (client c) ctx t
                           (ccc_Config opts) (ccc_HostConfig opts)
                           (ccc_NetworkingConfig opts) (ccc_Name opts)) ;;
  let '(ccb, err) := r in
  match err with
  | Some e => ret ({| Driver.CCR_ID := "" |}, Some (lib_error e))
  | None => ret ({| Driver.CCR_ID := ccb_ID ccb |}, None)
  end.

(** The end that eight of the operations share:
    [if ctxErr := contextError(ctx); ctxErr != nil { return ctxErr };
     return err]. *)
Definition ContainerStart (c : dockerClient) (id : string) : Op (option op_error) :=
  Println ["Inside docker start container"] ;;;
  ctx <- getTimeoutContext ;;
  err <- request (fun t => Client.ContainerStart (client c) ctx t id) ;;
  ctxErr <- contextError ctx ;;
  match ctxErr with
  | Some e => ret (Some e)
  | None => ret (option_map lib_error err)
  end.

Definition ContainerInspect (c : dockerClient) (id : string)
  : Op (option Driver.InspectContainerData * option op_error) :=
  Println ["Inside docker container inspect"] ;;;
  ctx <- getTimeoutContext ;;
  r <- request (fun t => Client.ContainerInspect (client c) ctx t id) ;;
  let '(container, err) := r in
  ctxErr <- contextError ctx ;;
  match ctxErr with
  | Some e => ret (None, Some e)
  | None =>
      match err with
      | Some e => ret (None, Some (lib_error e))
      | None =>
          ret (Some {| Driver.ICD_ID := cj_ID container;
                       Driver.ICD_Created := 0;
                       Driver.ICD_Path := cj_Path container;
                       Driver.ICD_Args := cj_Args container;
                       Driver.ICD_Image := cj_Image container;
                       Driver.ICD_ImageName := "";
                       Driver.ICD_Name := cj_Name container |},
               option_map lib_error err)
      end
  end.

Definition ContainerStop (c : dockerClient) (id : string) : Op (option op_error) :=
  Println ["Inside docker stop container"] ;;;
  ctx <- getTimeoutContext ;;
  err <- request (fun t => Client.ContainerStop (client c) ctx t id) ;;
  ctxErr <- contextError ctx ;;
  match ctxErr with
  | Some e => ret (Some e)
  | None => ret (option_map lib_error err)
  end.

Definition ContainerRemove (c : dockerClient) (id : string) : Op (option op_error) :=
  Println ["Inside docker container remove"] ;;;
  ctx <- getTimeoutContext ;;
  err <- request (fun t => Client.ContainerRemove (client c) ctx t id) ;;
  ctxErr <- contextError ctx ;;
  match ctxErr with
  | Some e => ret (Some e)
  | None => ret (option_map lib_error err)
  end.

(** The request that [NetworkCreate] sends, whatever its [options]. *)
Definition bridge_request : types_NetworkCreate :=
  {| CheckDuplicate := true;
     nc_Driver := "bridge";
     nc_Options :=
       [("com.docker.network.bridge.name", "skupper0");
        ("com.docker.network.bridge.enable_icc", "true");
        ("com.docker.network.bridge.enable_ip_masquerade", "true")] |}.

Definition NetworkCreate (c : dockerClient) (name : string)
    (options : Driver.NetworkCreateOptions)
  : Op (Driver.NetworkCreateResponse * option op_error) :=
  Println ["Inside docker network create"] ;;;
  ctx <- getTimeoutContext ;;
  r <- request (fun t => Client.NetworkCreate (client c) ctx t name bridge_request) ;;
  let '(ncr, err) := r in
  ctxErr <- contextError ctx ;;
  match ctxErr with
  | Some e => ret ({| Driver.NCR_ID := ""; Driver.NCR_Warning := "" |}, Some e)
  | None =>
      ret ({| Driver.NCR_ID := ncr_ID ncr; Driver.NCR_Warning := ncr_Warning ncr |},
           option_map lib_error err)
  end.

Definition NetworkInspect (c : dockerClient) (id : string)
  : Op (Driver.NetworkResource * option op_error) :=
  Println ["Inside docker network inspect"] ;;;
  ctx <- getTimeoutContext ;;
  r <- request (fun t => Client.NetworkInspect (client c) ctx t id) ;;
  let '(nr, err) := r in
  ctxErr <- contextError ctx ;;
  match ctxErr with
  | Some e => ret ({| Driver.NR_Name := "" |}, Some e)
  | None => ret ({| Driver.NR_Name := nr_Name nr |}, option_map lib_error err)
  end.

Definition NetworkRemove (c : dockerClient) (id : string) : Op (option op_error) :=
  Println ["Inside docker network remove for: "; id] ;;;
  ctx <- getTimeoutContext ;;
  err <- request (fun t => Client.NetworkRemove (client c) ctx t id) ;;
  ctxErr <- contextError ctx ;;
  match ctxErr with
  | Some e => ret (Some e)
  | None => ret (option_map lib_error err)
  end.

Definition NetworkConnect (c : dockerClient) (id container : string)
    (aliases : list string) : Op (option op_error) :=
  Println ["Inside docker network connect: "; id; container] ;;;
  ctx <- getTimeoutContext ;;
  err <- request (fun t => Client.NetworkConnect (client c) ctx t id container
                             EndpointSettings_zero) ;;
  ctxErr <- contextError ctx ;;
  match ctxErr with
  | Some e => ret (Some e)
  | None =>
      match err with
      | Some e => ret (Some (lib_error e))
      | None => ret None
      end
  end.

Definition NetworkDisconnect (c : dockerClient) (id container : string)
    (force : bool) : Op (option op_error) :=
  Println ["Inside docker network disconnect: "; id; container] ;;;
  ctx <- getTimeoutContext ;;
  err <- request (fun t => Client.NetworkDisconnect (client c) ctx t id container
                             force) ;;
  ctxErr <- contextError ctx ;;
  match ctxErr with
  | Some e => ret (Some e)
  | None =>
      match err with
      | Some e => ret (Some (lib_error e))
      | None => ret None
      end
  end.

(** The context that an operation started in [w] works under. *)
Definition ctx_of (w : world) : Context :=
  context_WithTimeout (now w) (timeout (var_Driver w)).

(** The reply took at least the driver's timeout. *)
Definition overdue (w : world) (took : Duration) : Prop :=
  timeout (var_Driver w) <= took.

(** What an operation returns for a reply that is overdue. *)
Definition timed_out : option op_error :=
  Some (operationTimeout context_DeadlineExceeded).

(** The reply came in time, but the deadline passes before [contextError]
    reads the context for the second time. *)
Definition overtaken (w : world) (took : Duration) : bool :=
  timeout (var_Driver w) <=? took + pause w.

(** What an operation returns for a reply that is overtaken by the deadline:
    [context.DeadlineExceeded] as it is, not in an [operationTimeout]. *)
Definition deadline_bare : option op_error :=
  Some (lib_error context_DeadlineExceeded).

(** An engine that takes 3s for every request and knows nothing, and one
    that takes 1ms and has what is asked for. *)
Definition slow_engine : Client.t :=
  let took := 3 * Second in
  let e := Some (errorString "not found") in
  {| Client.ImageInspectWithRaw := fun _ _ _ =>
       (took, ({| img_ID := ""; img_Size := 0; img_RepoTags := [] |}, e));
     Client.ContainerCreate := fun _ _ _ _ _ _ => (took, ({| ccb_ID := "" |}, e));
     Client.ContainerStart := fun _ _ _ => (took, e);
     Client.ContainerInspect := fun _ _ _ =>
       (took, ({| cj_ID := ""; cj_Path := ""; cj_Args := []; cj_Image := "";
                  cj_Name := "" |}, e));
     Client.ContainerStop := fun _ _ _ => (took, e);
     Client.ContainerRemove := fun _ _ _ => (took, e);
     Client.NetworkCreate := fun _ _ _ _ =>
       (took, ({| ncr_ID := ""; ncr_Warning := "" |}, e));
     Client.NetworkInspect := fun _ _ _ => (took, ({| nr_Name := "" |}, e));
     Client.NetworkRemove := fun _ _ _ => (took, e);
     Client.NetworkConnect := fun _ _ _ _ _ => (took, e);
     Client.NetworkDisconnect := fun _ _ _ _ _ => (took, e) |}.

Definition quick_engine : Client.t :=
  let took := 1000000 in
  {| Client.ImageInspectWithRaw := fun _ _ id =>
       (took, ({| img_ID := id; img_Size := 42; img_RepoTags := ["r:1"] |}, None));
     Client.ContainerCreate := fun _ _ _ _ _ _ => (took, ({| ccb_ID := "c1" |}, None));
     Client.ContainerStart := fun _ _ _ => (took, None);
     Client.ContainerInspect := fun _ _ id =>
       (took, ({| cj_ID := id; cj_Path := "/bin/sh"; cj_Args := [];
                  cj_Image := "i1"; cj_Name := "/skupper-router" |}, None));
     Client.ContainerStop := fun _ _ _ => (took, None);
     Client.ContainerRemove := fun _ _ _ => (took, None);
     Client.NetworkCreate := fun _ _ _ _ =>
       (took, ({| ncr_ID := "n1"; ncr_Warning := "" |}, None));
     Client.NetworkInspect := fun _ _ id => (took, ({| nr_Name := id |}, None));
     Client.NetworkRemove := fun _ _ _ => (took, None);
     Client.NetworkConnect := fun _ _ _ _ _ => (took, None);
     Client.NetworkDisconnect := fun _ _ _ _ _ => (took, None) |}.

(** A driver connected to [engine], with a timeout of 2s, at time 0, in a
    process that is not held up. *)
Definition connected (engine : Client.t) : world :=
  {| now := 0; console := [];
     var_Driver := {| client := engine; timeout := 2 * Second;
                      imagePullProgessDeadline := 10 * Second |};
     pause := 0 |}.

(** The same process, held up for [d] inside [contextError]. *)
Definition held_up (d : Duration) (w : world) : world :=
  {| now := now w; console := console w; var_Driver := var_Driver w;
     pause := d |}.

End Ops.

End Docker.

(* ===================================================================== *)
(** * plug-ins/podman/podman.go *)
(* ===================================================================== *)

Module Podman.
Import Go.

(** [define.ContainerStatus] and its [String()]. *)
Inductive ContainerStatus : Type :=
| ContainerStateUnknown
| ContainerStateConfigured
| ContainerStateCreated
| ContainerStateRunning
| ContainerStateStopped
| ContainerStatePaused
| ContainerStateExited
| ContainerStateRemoving.

Definition ContainerStatus_String (s : ContainerStatus) : string :=
  match s with
  | ContainerStateUnknown => "unknown"
  | ContainerStateConfigured => "configured"
  | ContainerStateCreated => "created"
  | ContainerStateRunning => "running"
  | ContainerStateStopped => "stopped"
  | ContainerStatePaused => "paused"
  | ContainerStateExited => "exited"
  | ContainerStateRemoving => "removing"
  end.

Definition ContainerStatus_eqb (a b : ContainerStatus) : bool :=
  String.eqb (ContainerStatus_String a) (ContainerStatus_String b).

(** ** ContainerWait *)

(** The engine's side of [containers.Wait(ctx, id, &condition)]: the exit code
    and error the call returns, or [None] when it never returns because the
    container never gets into that state. *)
Definition wait_replies := string -> ContainerStatus -> option (Z * option error).

(** An engine whose container passes through the states of [timeline] and
    remains in the last one. *)
Definition engine_of_timeline (timeline : list ContainerStatus) : wait_replies :=
  fun id condition =>
    if existsb (ContainerStatus_eqb condition) timeline
    then Some (0, None) else None.

(** [ContainerWait(id, status, timeout, interval)]: the error returned, or
    [None] when the call never returns. *)
Definition ContainerWait (engine : wait_replies)
    (id status : string) (timeout interval : Duration) : option (option error) :=
  let waitState := ContainerStateRunning in
  match engine id waitState with
  | None => None
  | Some (_, err) => Some err
  end.

(** ** ContainerExec *)

Module Exec.

(** The open files that matter: the process's standard output and standard
    error as it was started with them, and the two ends of the pipe that
    [os.Pipe()] makes (taken to succeed). *)
Inductive file : Type := std_out | std_err | pipe_r | pipe_w.

(** The engine's replies, and what the operating system does to the pipe. *)
Record world : Type := {
  (** [containers.ExecCreate(ctx, id, config)]: the session's ID *)
  ExecCreate : string -> list string -> error + string;
  (** [containers.ExecStartAndAttach(ctx, execID, streams)]: the bytes the
      session writes to its output and to its error stream before the call
      returns, and the error returned *)
  ExecStartAndAttach : string -> (string * string) * option error;
  (** [containers.ExecInspect(ctx, execID)]: the exit code *)
  ExecInspect : string -> error + Z;
  (** how many bytes the pipe holds before a write to it blocks *)
  pipe_capacity : Z;
  (** [Some (n, e)]: the read number [n] (from 0) of the pipe fails with [e] *)
  read_fault : option (nat * error)
}.

Inductive buffer : Type := outBuf | errBuf.

Definition result : Type := Driver.ExecResult buffer * option error.

(** Where the caller is; [stdout] is its local variable of that name. *)
Inductive main_pc : Type :=
| p_begin
| p_create (stdout : file)
| p_attach (stdout : file) (execID : string)
| p_go (stdout : file) (execID : string)
| p_defer (stdout : file) (execID : string)
| p_inspect (stdout : file) (execID : string)
| p_check (stdout : file) (inspectOut : option Z)   (* if err != nil *)
| p_result_err (stdout : file)                      (* return ExecResult{}, err *)
| p_closew (stdout : file) (r : result)             (* deferred: w.Close() *)
| p_restore (stdout : file) (r : result)            (* deferred: os.Stdout = stdout *)
| p_wait (r : result)                               (* deferred: <-copyDone *)
| p_returned (r : result)
| p_blocked                 (* in a write to the full pipe, for ever *)
| p_panicked.               (* inspectOut.ExitCode on a nil inspectOut *)

Inductive drain_pc : Type :=
| g_none
| g_copy        (* in io.Copy(&outBuf, r) *)
| g_close       (* before r.Close() *)
| g_send        (* at copyDone <- struct{}{} *)
| g_exit.

Record state : Type := {
  main : main_pc;
  drain : drain_pc;
  os_Stdout : file;            (* the process-wide variable os.Stdout *)
  os_Stderr : file;            (* the process-wide variable os.Stderr *)
  console_out : string;        (* what reached the process's standard output *)
  console_err : string;        (* what reached the process's standard error *)
  pipe : string;               (* written to the pipe and not read yet *)
  w_closed : bool;
  r_closed : bool;
  var_err : option error;      (* the function's variable err *)
  mem_outBuf : string;
  mem_errBuf : string;
  reads : nat;                 (* reads of the pipe made so far *)
  trace : list exec_event
}.

Definition init : state :=
  {| main := p_begin; drain := g_none;
     os_Stdout := std_out; os_Stderr := std_err;
     console_out := ""; console_err := ""; pipe := "";
     w_closed := false; r_closed := false; var_err := None;
     mem_outBuf := ""; mem_errBuf := ""; reads := 0; trace := [] |}.

Definition set_main (pc : main_pc) (s : state) : state :=
  {| main := pc; drain := drain s; os_Stdout := os_Stdout s;
     os_Stderr := os_Stderr s; console_out := console_out s;
     console_err := console_err s; pipe := pipe s; w_closed := w_closed s;
     r_closed := r_closed s; var_err := var_err s;
     mem_outBuf := mem_outBuf s; mem_errBuf := mem_errBuf s;
     reads := reads s; trace := trace s |}.

Definition set_drain (pc : drain_pc) (s : state) : state :=
  {| main := main s; drain := pc; os_Stdout := os_Stdout s;
     os_Stderr := os_Stderr s; console_out := console_out s;
     console_err := console_err s; pipe := pipe s; w_closed := w_closed s;
     r_closed := r_closed s; var_err := var_err s;
     mem_outBuf := mem_outBuf s; mem_errBuf := mem_errBuf s;
     reads := reads s; trace := trace s |}.

Definition set_err (e : option error) (s : state) : state :=
  {| main := main s; drain := drain s; os_Stdout := os_Stdout s;
     os_Stderr := os_Stderr s; console_out := console_out s;
     console_err := console_err s; pipe := pipe s; w_closed := w_closed s;
     r_closed := r_closed s; var_err := e;
     mem_outBuf := mem_outBuf s; mem_errBuf := mem_errBuf s;
     reads := reads s; trace := trace s |}.

Definition set_Stdout (f : file) (s : state) : state :=
  {| main := main s; drain := drain s; os_Stdout := f;
     os_Stderr := os_Stderr s; console_out := console_out s;
     console_err := console_err s; pipe := pipe s; w_closed := w_closed s;
     r_closed := r_closed s; var_err := var_err s;
     mem_outBuf := mem_outBuf s; mem_errBuf := mem_errBuf s;
     reads := reads s; trace := trace s |}.

Definition log (evs : list exec_event) (s : state) : state :=
  {| main := main s; drain := drain s; os_Stdout := os_Stdout s;
     os_Stderr := os_Stderr s; console_out := console_out s;
     console_err := console_err s; pipe := pipe s; w_closed := w_closed s;
     r_closed := r_closed s; var_err := var_err s;
     mem_outBuf := mem_outBuf s; mem_errBuf := mem_errBuf s;
     reads := reads s; trace := (trace s ++ evs)%list |}.

(** [f.Write(data)], for a write that does not block. *)
Definition write (f : file) (data : string) (s : state) : state :=
  {| main := main s; drain := drain s; os_Stdout := os_Stdout s;
     os_Stderr := os_Stderr s;
     console_out := match f with std_out => console_out s ++ data | _ => console_out s end;
     console_err := match f with std_err => console_err s ++ data | _ => console_err s end;
     pipe := match f with
             | pipe_w => if w_closed s then pipe s else pipe s ++ data
             | _ => pipe s
             end;
     w_closed := w_closed s;
     r_closed := r_closed s; var_err := var_err s;
     mem_outBuf := mem_outBuf s; mem_errBuf := mem_errBuf s;
     reads := reads s; trace := trace s |}.

(** Whether writing [data] to [f] would block: the pipe is full and nobody
    reads it. *)
Definition write_blocks (w : world) (f : file) (data : string) (s : state) : bool :=
  match f with
  | pipe_w => negb (w_closed s) &&
              (pipe_capacity w
                 <? Z.of_nat (String.length (pipe s) + String.length data))
  | _ => false
  end.

Definition close_w (s : state) : state :=
  {| main := main s; drain := drain s; os_Stdout := os_Stdout s;
     os_Stderr := os_Stderr s; console_out := console_out s;
     console_err := console_err s; pipe := pipe s; w_closed := true;
     r_closed := r_closed s; var_err := var_err s;
     mem_outBuf := mem_outBuf s; mem_errBuf := mem_errBuf s;
     reads := reads s; trace := trace s |}.

Definition close_r (s : state) : state :=
  {| main := main s; drain := drain s; os_Stdout := os_Stdout s;
     os_Stderr := os_Stderr s; console_out := console_out s;
     console_err := console_err s; pipe := pipe s; w_closed := w_closed s;
     r_closed := true; var_err := var_err s;
     mem_outBuf := mem_outBuf s; mem_errBuf := mem_errBuf s;
     reads := reads s; trace := trace s |}.

(** One read of the pipe by [io.Copy]: the bytes there move to [outBuf]. *)
Definition read_pipe (s : state) : state :=
  {| main := main s; drain := drain s; os_Stdout := os_Stdout s;
     os_Stderr := os_Stderr s; console_out := console_out s;
     console_err := console_err s; pipe := ""; w_closed := w_closed s;
     r_closed := r_closed s; var_err := var_err s;
     mem_outBuf := mem_outBuf s ++ pipe s; mem_errBuf := mem_errBuf s;
     reads := S (reads s); trace := trace s |}.

(** The rendezvous on the unbuffered [copyDone]: the drain's send and the
    caller's receive happen together; the caller's deferred function ends. *)
Definition rendezvous (r : result) (s : state) : state :=
  set_main (p_returned r) (set_drain g_exit (log [ev_signal; ev_received] s)).

(** One step of the caller. *)
Definition step_main (w : world) (id : string) (cmd : list string)
    (s : state) : option state :=
  match main s with
  | p_begin =>
      (* fmt.Println(...); stdout := os.Stdout; r, w, err := os.Pipe();
         os.Stdout = w *)
      let s1 := write (os_Stdout s) ("Inside docker container exec" ++ newline) s in
      Some (set_main (p_create (os_Stdout s1)) (set_Stdout pipe_w (set_err None s1)))
  | p_create stdout =>
      match ExecCreate w id cmd with
      | inl e =>
          Some (set_main (p_returned (Driver.ExecResult_zero, Some e))
                  (set_err (Some e) (log [ev_ExecCreate; ev_result] s)))
      | inr execID =>
          Some (set_main (p_attach stdout execID)
                  (set_err None (log [ev_ExecCreate] s)))
      end
  | p_attach stdout execID =>
      (* streams.OutputStream = os.Stdout; streams.ErrorStream = os.Stderr *)
      let OutputStream := os_Stdout s in
      let ErrorStream := os_Stderr s in
      let '((out, err), e) := ExecStartAndAttach w execID in
      if write_blocks w OutputStream out s then
        Some (set_main p_blocked (log [ev_ExecStart] s))
      else
        let s1 := write ErrorStream err (write OutputStream out s) in
        match e with
        | Some e' =>
            Some (set_main (p_returned (Driver.ExecResult_zero, Some e'))
                    (set_err (Some e') (log [ev_ExecStart; ev_result] s1)))
        | None =>
            Some (set_main (p_go stdout execID)
                    (set_err None (log [ev_ExecStart] s1)))
        end
  | p_go stdout execID =>
      Some (set_main (p_defer stdout execID) (set_drain g_copy (log [ev_go] s)))
  | p_defer stdout execID =>
      Some (set_main (p_inspect stdout execID) s)
  | p_inspect stdout execID =>
      (* inspectOut, err := containers.ExecInspect(c.ctx, execID) *)
      match ExecInspect w execID with
      | inl e =>
          Some (set_main (p_check stdout None)
                  (set_err (Some e) (log [ev_ExecInspect] s)))
      | inr code =>
          Some (set_main (p_check stdout (Some code))
                  (set_err None (log [ev_ExecInspect] s)))
      end
  | p_check stdout inspectOut =>
      match var_err s with
      | Some _ => Some (set_main (p_result_err stdout) (log [ev_checked] s))
      | None =>
          match inspectOut with
          | Some code =>
              Some (set_main
                      (p_closew stdout
                         ({| Driver.ExitCode := code;
                             Driver.OutBuffer := Some outBuf;
                             Driver.ErrBuffer := Some errBuf |}, None))
                      (log [ev_checked; ev_result] s))
          | None => Some (set_main p_panicked (log [ev_checked] s))
          end
      end
  | p_result_err stdout =>
      Some (set_main (p_closew stdout (Driver.ExecResult_zero, var_err s))
              (log [ev_result] s))
  | p_closew stdout r =>
      Some (set_main (p_restore stdout r) (close_w s))
  | p_restore stdout r =>
      Some (set_main (p_wait r) (set_Stdout stdout (log [ev_restored] s)))
  | p_wait r =>
      match drain s with
      | g_send => Some (rendezvous r s)
      | _ => None
      end
  | p_returned _ => None
  | p_blocked => None
  | p_panicked => None
  end.

(** Whether [read_fault] strikes the read that comes next. *)
Definition faulty (w : world) (s : state) : option error :=
  match read_fault w with
  | Some (n, e) => if Nat.eqb n (reads s) then Some e else None
  | None => None
  end.

(** One step of the drain goroutine. *)
Definition step_drain (w : world) (s : state) : option state :=
  match drain s with
  | g_none => None
  | g_copy =>
      (* _, err = io.Copy(&outBuf, r) *)
      match faulty w s with
      | Some e =>
          Some (set_drain g_close (set_err (Some e) (log [ev_copied (Some e)] s)))
      | None =>
          if String.eqb (pipe s) "" then
            if w_closed s then
              (* end of file: io.Copy returns nil *)
              Some (set_drain g_close (set_err None (log [ev_copied None] s)))
            else None
          else Some (read_pipe s)
      end
  | g_close => Some (set_drain g_send (close_r s))
  | g_send =>
      match main s with
      | p_wait r => Some (rendezvous r s)
      | _ => None
      end
  | g_exit => None
  end.

Definition step (w : world) (id : string) (cmd : list string)
    (t : thread) (s : state) : state :=
  match (match t with Main => step_main w id cmd s | Drain => step_drain w s end) with
  | Some s' => s'
  | None => s
  end.

(** [ContainerExec(id, cmd)] under the schedule [sched]: the state reached. *)
Definition ContainerExec (w : world) (id : string) (cmd : list string)
    (sched : list thread) : state :=
  fold_left (fun s t => step w id cmd t s) sched init.

Definition returned (s : state) : option result :=
  match main s with
  | p_returned r => Some r
  | _ => None
  end.

Definition load (s : state) (b : buffer) : string :=
  match b with
  | outBuf => mem_outBuf s
  | errBuf => mem_errBuf s
  end.

Definition result_of_inspect (reply : error + Z) : result :=
  match reply with
  | inl e => (Driver.ExecResult_zero, Some e)
  | inr code =>
      ({| Driver.ExitCode := code; Driver.OutBuffer := Some outBuf;
          Driver.ErrBuffer := Some errBuf |}, None)
  end.

(** The caller has not reached its [go] statement yet, or never will. *)
Definition before_go (pc : main_pc) : Prop :=
  match pc with
  | p_begin | p_create _ | p_attach _ _ | p_go _ _ | p_blocked => True
  | _ => False
  end.

(** The caller is past its [go] statement and has not returned yet. *)
Definition after_go (pc : main_pc) : Prop :=
  match pc with
  | p_defer _ _ | p_inspect _ _ | p_check _ _ | p_result_err _ | p_closew _ _
  | p_restore _ _ | p_wait _ | p_panicked => True
  | _ => False
  end.

(** The caller has asked for the exit code and not returned yet. *)
Definition inspected (pc : main_pc) : Prop :=
  match pc with
  | p_check _ _ | p_result_err _ | p_closew _ _ | p_restore _ _ | p_wait _
  | p_panicked => True
  | _ => False
  end.

(** The caller's local [stdout], where it has one. *)
Definition saved_stdout (pc : main_pc) : option file :=
  match pc with
  | p_create f | p_attach f _ | p_go f _ | p_defer f _ | p_inspect f _
  | p_check f _ | p_result_err f | p_closew f _ | p_restore f _ => Some f
  | _ => None
  end.

(** The result the caller is about to return or has returned. *)
Definition pending_result (pc : main_pc) : option result :=
  match pc with
  | p_closew _ r | p_restore _ r | p_wait r | p_returned r => Some r
  | _ => None
  end.

(** The session the caller works on. *)
Definition session (pc : main_pc) : option string :=
  match pc with
  | p_attach _ x | p_go _ x | p_defer _ x | p_inspect _ x => Some x
  | _ => None
  end.

(** Where the caller is once [w.Close()] has run. *)
Definition past_close (pc : main_pc) : Prop :=
  match pc with
  | p_restore _ _ | p_wait _ | p_returned _ => True
  | _ => False
  end.

(** A result returned with a nil error points to both buffers. *)
Definition well_formed (r : result) : Prop :=
  snd r = None ->
  Driver.OutBuffer (fst r) = Some outBuf /\ Driver.ErrBuffer (fst r) = Some errBuf.

(** No copy of the drain has returned yet. *)
Definition no_copy (tr : list exec_event) : Prop :=
  forall e, ~ In (ev_copied e) tr.

(** The drain's copy returns only after the caller has evaluated what it
    returns. *)
Definition copy_after_result (tr : list exec_event) : Prop :=
  forall e, before ev_result (ev_copied e) tr.

(** The order of the exit-code query and the completion signal. *)
Definition inv_order (s : state) : Prop :=
  before ev_ExecInspect ev_received (trace s) /\
  before ev_signal ev_received (trace s) /\
  (inspected (main s) -> In ev_ExecInspect (trace s)) /\
  (before_go (main s) -> ~ In ev_go (trace s) /\ drain s = g_none) /\
  (after_go (main s) -> In ev_go (trace s)) /\
  (forall r, main s = p_wait r -> In ev_restored (trace s)) /\
  (forall r, main s = p_returned r -> In ev_go (trace s) ->
             In ev_received (trace s) /\ In ev_restored (trace s)) /\
  (In ev_restored (trace s) -> In ev_go (trace s)).

(** The process-wide handles, the pipe and the buffers. *)
Definition inv_files (s : state) : Prop :=
  mem_errBuf s = "" /\
  os_Stderr s = std_err /\
  (forall f, saved_stdout (main s) = Some f -> f = std_out /\ os_Stdout s = pipe_w) /\
  (main s = p_begin -> os_Stdout s = std_out) /\
  (forall r, main s = p_wait r -> os_Stdout s = std_out) /\
  (forall r, main s = p_returned r ->
     (In ev_go (trace s) -> os_Stdout s = std_out) /\
     (~ In ev_go (trace s) -> os_Stdout s = pipe_w)) /\
  (w_closed s = true -> past_close (main s)) /\
  (forall f, main s = p_result_err f -> var_err s <> None) /\
  (forall r, pending_result (main s) = Some r -> well_formed r).

(** The session has not been started yet, or its start blocks. *)
Definition before_start (pc : main_pc) : Prop :=
  match pc with
  | p_begin | p_create _ | p_attach _ _ | p_blocked => True
  | _ => False
  end.

(** The session was started without error and the caller has not returned. *)
Definition started (pc : main_pc) : Prop :=
  match pc with
  | p_go _ _ | p_defer _ _ | p_inspect _ _ | p_check _ _ | p_result_err _
  | p_closew _ _ | p_restore _ _ | p_wait _ | p_panicked => True
  | _ => False
  end.

(** The caller has not evaluated its return values. *)
Definition before_result (pc : main_pc) : Prop :=
  match pc with
  | p_begin | p_create _ | p_attach _ _ | p_go _ _ | p_defer _ _
  | p_inspect _ _ | p_check _ _ | p_result_err _ | p_blocked | p_panicked => True
  | _ => False
  end.

(** The session [x] that the engine made. *)
Definition inv_session (w : world) (x : string) (s : state) : Prop :=
  (forall x', session (main s) = Some x' -> x' = x) /\
  (before_start (main s) -> console_err s = "") /\
  (~ before_start (main s) -> console_err s = snd (fst (ExecStartAndAttach w x))) /\
  (started (main s) -> snd (ExecStartAndAttach w x) = None) /\
  (forall f io, main s = p_check f io ->
     io = match ExecInspect w x with inl _ => None | inr c => Some c end) /\
  (forall r, pending_result (main s) = Some r -> snd r = None ->
     ExecInspect w x = inr (Driver.ExitCode (fst r)) /\
     snd (ExecStartAndAttach w x) = None).

(** What the caller holds when the drain's copy has not interfered. *)
Definition inv_swallow (w : world) (x : string) (s : state) : Prop :=
  copy_after_result (trace s) ->
  (forall x', session (main s) = Some x' -> x' = x) /\
  (before_result (main s) -> ~ In ev_result (trace s)) /\
  (forall f io, main s = p_check f io ->
     (var_err s, io) = match ExecInspect w x with
                       | inl e => (Some e, None)
                       | inr c => (None, Some c)
                       end) /\
  (forall f, main s = p_result_err f ->
     exists e, ExecInspect w x = inl e /\ var_err s = Some e) /\
  (forall r, pending_result (main s) = Some r ->
     r = result_of_inspect (ExecInspect w x)).

(** The reading of the stream capturer under which the exit code is asked for
    only after the drain has signalled its completion. *)
Definition inspect_after_signal : Prop :=
  forall w id cmd sched,
    before ev_signal ev_ExecInspect (trace (ContainerExec w id cmd sched)).

(** A call whose exec-create fails with [e]. *)
Definition inv_no_session (e : error) (s : state) : Prop :=
  drain s = g_none /\ ~ In ev_go (trace s) /\
  (main s = p_begin \/ (exists f, main s = p_create f) \/
   main s = p_returned (Driver.ExecResult_zero, Some e)).

(** An engine whose session prints "hello" and, to its standard error,
    "warn", and ends with exit code 0. *)
Definition hello : world :=
  {| ExecCreate := fun _ _ => inr "e1";
     ExecStartAndAttach := fun _ => (("hello", "warn"), None);
     ExecInspect := fun _ => inr 0;
     pipe_capacity := 65536;
     read_fault := None |}.

(** The same, with a pipe whose first read fails. *)
Definition hello_read_fails : world :=
  {| ExecCreate := fun _ _ => inr "e1";
     ExecStartAndAttach := fun _ => (("hello", "warn"), None);
     ExecInspect := fun _ => inr 0;
     pipe_capacity := 65536;
     read_fault := Some (0%nat, errorString "input/output error") |}.

(** An engine that does not know the container. *)
Definition no_container : world :=
  {| ExecCreate := fun _ _ => inl (errorString "no such container");
     ExecStartAndAttach := fun _ => (("", ""), None);
     ExecInspect := fun _ => inr 0;
     pipe_capacity := 65536;
     read_fault := None |}.

(** An engine whose session cannot be started. *)
Definition no_start : world :=
  {| ExecCreate := fun _ _ => inr "e1";
     ExecStartAndAttach := fun _ => (("", ""), Some (errorString "exec start failed"));
     ExecInspect := fun _ => inr 0;
     pipe_capacity := 65536;
     read_fault := None |}.

(** The caller runs until it waits for the drain, which then runs. *)
Definition caller_first : list thread :=
  [Main; Main; Main; Main; Main; Main; Main; Main; Main; Drain; Drain; Drain].

(** The two goroutines take turns. *)
Definition alternate : list thread :=
  [Main; Drain; Main; Drain; Main; Drain; Main; Drain; Main; Drain; Main; Drain;
   Main; Drain; Main; Drain; Main; Drain; Main; Drain].

(** The line that [ContainerExec] prints first. *)
Definition banner : string := "Inside docker container exec" ++ newline.

(** The call to [ExecStartAndAttach] has returned. *)
Definition past_start (pc : main_pc) : Prop :=
  match pc with
  | p_begin | p_create _ | p_attach _ _ | p_blocked => False
  | _ => True
  end.

(** The drain's [io.Copy] has returned. *)
Definition copied (pc : drain_pc) : Prop :=
  match pc with
  | g_close | g_send | g_exit => True
  | _ => False
  end.

(** Where the output of the session [x] is: until the session is started the
    pipe and the buffer are empty; from then on the buffer followed by what
    the pipe still holds is that output, which fitted into the pipe; a copy
    that ended without a read fault has left the pipe empty; a call that has
    returned a nil error has met its drain; and the process's own standard
    output has got the first line and nothing else. *)
Definition inv_capture (w : world) (x : string) (s : state) : Prop :=
  (before_start (main s) -> pipe s = "" /\ mem_outBuf s = "") /\
  (past_start (main s) ->
   (mem_outBuf s ++ pipe s)%string = fst (fst (ExecStartAndAttach w x)) /\
   Z.of_nat (String.length (fst (fst (ExecStartAndAttach w x)))) <= pipe_capacity w) /\
  (read_fault w = None -> copied (drain s) -> pipe s = "") /\
  (forall r, main s = p_returned r -> snd r = None -> drain s = g_exit) /\
  console_out s = match main s with p_begin => "" | _ => banner end.

(** The number of steps that a schedule gives to the caller. *)
Definition caller_steps (sched : list thread) : nat :=
  List.length (filter (fun t => match t with Main => true | Drain => false end) sched).

(** The session [x] writes more than the pipe can hold: where the caller is
    after [n] steps of its own. *)
Definition inv_stuck (x : string) (n : nat) (s : state) : Prop :=
  drain s = g_none /\ pipe s = "" /\ w_closed s = false /\
  match n with
  | O => main s = p_begin /\ os_Stdout s = std_out
  | 1%nat => (exists f, main s = p_create f) /\ os_Stdout s = pipe_w
  | 2%nat => (exists f, main s = p_attach f x) /\ os_Stdout s = pipe_w
  | _ => main s = p_blocked /\ os_Stdout s = pipe_w
  end.

(** The two ends of the pipe and the drain goroutine.  The read end is
    closed by the drain, after its copy; the write end by the caller's
    deferred function.  A call that has returned after its [go] statement
    has closed the write end and met the drain at its end; one that has
    returned before it (with an error) has closed nothing. *)
Definition inv_pipe (s : state) : Prop :=
  (r_closed s = match drain s with
                | g_send | g_exit => true
                | _ => false
                end) /\
  match main s with
  | p_restore _ _ | p_wait _ => w_closed s = true
  | p_returned r =>
      (In ev_go (trace s) -> w_closed s = true /\ drain s = g_exit) /\
      (~ In ev_go (trace s) ->
       w_closed s = false /\ drain s = g_none /\ snd r <> None)
  | _ => w_closed s = false
  end.

(** An engine whose session prints "hello" into a pipe that holds four
    bytes. *)
Definition hello_small_pipe : world :=
  {| ExecCreate := fun _ _ => inr "e1";
     ExecStartAndAttach := fun _ => (("hello", "warn"), None);
     ExecInspect := fun _ => inr 0;
     pipe_capacity := 4;
     read_fault := None |}.

End Exec.

(** ** The operations that are one call of the bindings *)

Module Ops.

(** The connection that [bindings.NewConnection] makes, which the driver
    keeps in [ctx]. *)
Inductive Connection : Type := connection (socket : string).

(** [type podmanClient struct] *)
Record podmanClient : Type := {
  ctx : Connection;
  timeout : Duration;
  imagePullProgessDeadline : Duration
}.

(** The values of the bindings that the driver reads or makes. *)
Record entities_ImageSummary : Type := {
  is_ID : string;
  is_Created : Z;
  is_Labels : list (string * string);
  is_RepoTags : list string;
  is_Size : Z
}.

Record ImageInspectReport : Type := {
  ir_ID : string;
  ir_Size : Z;
  ir_RepoTags : list string
}.

Record ListContainer : Type := {
  lc_ID : string;
  lc_Names : list string;
  lc_Image : string;
  lc_ImageID : string;
  lc_Labels : list (string * string);
  lc_State : string;
  lc_Status : string
}.

Record define_InspectContainerData : Type := {
  cd_ID : string;
  cd_Created : Z;
  cd_Path : string;
  cd_Args : list string;
  cd_Image : string;
  cd_ImageName : string;
  cd_Name : string
}.

(** [specgen.NewSpecGenerator(arg, rootfs)]: [arg] is the image unless
    [rootfs] is set. *)
Record SpecGenerator : Type := {
  sg_Image : string;
  sg_Rootfs : string
}.

Definition NewSpecGenerator (arg : string) (rootfs : bool) : SpecGenerator :=
  if rootfs then {| sg_Image := ""; sg_Rootfs := arg |}
  else {| sg_Image := arg; sg_Rootfs := "" |}.

Record entities_NetworkCreateOptions : Type := { nco_Driver : string }.

(** [*entities.NetworkCreateReport], as far as the driver uses it: what
    [%+v] prints for it. *)
Record NetworkCreateReport : Type := { plus_v : string }.

(** A value of a [map[string]interface{}] that the engine's JSON decodes
    to: a string, null, or another value, given by what [%v] prints for it. *)
Inductive json : Type :=
| jstring (s : string)
| jnull
| jother (shown : string).

(** [entities.NetworkInspectReport], a [map[string]interface{}], as the list
    of its entries. *)
Definition NetworkInspectReport : Type := list (string * json).

Record NetworkConnectOptions : Type := {
  co_Container : string;
  co_Aliases : list string
}.

Record NetworkDisconnectOptions : Type := {
  do_Container : string;
  do_Force : bool
}.

(** The functions of the bindings that the driver calls, each with the
    number of requests that the process has made before: the values they
    return.  A pointer is an [option], [None] for nil. *)
Record Bindings : Type := {
  images_GetImage :
    Connection -> string -> nat -> option ImageInspectReport * option error;
  images_Pull : Connection -> string -> nat -> list string * option error;
  images_List : Connection -> nat -> list entities_ImageSummary * option error;
  containers_CreateWithSpec :
    Connection -> SpecGenerator -> nat -> string * option error;
  containers_Start : Connection -> string -> nat -> option error;
  (** [containers.List(ctx, nil, nil, last, nil, nil, nil)] *)
  containers_List :
    Connection -> option Z -> nat -> list ListContainer * option error;
  containers_Inspect :
    Connection -> string -> nat ->
    option define_InspectContainerData * option error;
  containers_Stop : Connection -> string -> nat -> option error;
  (** [containers.Remove(ctx, id, force, volumes)] *)
  containers_Remove :
    Connection -> string -> option bool -> option bool -> nat -> option error;
  network_Create :
    Connection -> entities_NetworkCreateOptions -> option string -> nat ->
    option NetworkCreateReport * option error;
  network_Inspect :
    Connection -> string -> nat -> list NetworkInspectReport * option error;
  network_Remove : Connection -> string -> option bool -> nat -> option error;
  network_Connect :
    Connection -> string -> NetworkConnectOptions -> nat -> option error;
  network_Disconnect :
    Connection -> string -> NetworkDisconnectOptions -> nat -> option error
}.

(** The process as far as these operations go: what it has printed and the
    number of requests it has made. *)
Record world : Type := {
  console : list string;
  calls : nat
}.

(** An operation: it returns or panics. *)
Definition Op (A : Type) : Type := world -> outcome A * world.

Definition ret {A : Type} (a : A) : Op A := fun w => (Returned a, w).

Definition panic {A : Type} (why : string) : Op A := fun w => (Panicked why, w).

Definition bind {A B : Type} (c : Op A) (k : A -> Op B) : Op B :=
  fun w =>
    match c w with
    | (Returned a, w') => k a w'
    | (Panicked why, w') => (Panicked why, w')
    end.

Local Notation "x <- c ;; k" := (bind c (fun x => k))
  (at level 61, c at next level, right associativity).
Local Notation "c ;;; k" := (bind c (fun _ => k))
  (at level 61, right associativity).

(** [fmt.Println(args...)], and a [fmt.Printf] that ends its line. *)
Definition Println (args : list string) : Op unit :=
  fun w => (Returned tt,
            {| console := (console w ++ [String.concat " " args])%list;
               calls := calls w |}).

Definition request {A : Type} (r : nat -> A) : Op A :=
  fun w => (Returned (r (calls w)),
            {| console := console w; calls := S (calls w) |}).

(** [p.field] on a pointer [p]. *)
Definition deref {A : Type} (p : option A) : Op A :=
  match p with
  | Some a => ret a
  | None => panic "invalid memory address or nil pointer dereference"
  end.

(** [xs[0]] *)
Definition first {A : Type} (xs : list A) : Op A :=
  match xs with
  | x :: _ => ret x
  | [] => panic "index out of range [0] with length 0"
  end.

(** [m[key]] on a map of interfaces: nil when the key is absent. *)
Fixpoint index (m : NetworkInspectReport) (key : string) : json :=
  match m with
  | [] => jnull
  | (k, v) :: m' => if String.eqb k key then v else index m' key
  end.

(** [fmt.Sprintf("%v", v)] *)
Definition Sprintf_v (v : json) : string :=
  match v with
  | jstring s => s
  | jnull => "<nil>"
  | jother shown => shown
  end.

Definition ImageInspect_zero : Driver.ImageInspect :=
  {| Driver.II_ID := ""; Driver.II_Size := 0; Driver.II_RepoTags := [] |}.

Definition InspectContainerData_zero : Driver.InspectContainerData :=
  {| Driver.ICD_ID := ""; Driver.ICD_Created := 0; Driver.ICD_Path := "";
     Driver.ICD_Args := []; Driver.ICD_Image := ""; Driver.ICD_ImageName := "";
     Driver.ICD_Name := "" |}.

Definition NetworkCreateResponse_zero : Driver.NetworkCreateResponse :=
  {| Driver.NCR_ID := ""; Driver.NCR_Warning := "" |}.

Section Operations.

Variable b : Bindings.
Variable c : podmanClient.

Definition ImageInspect (id : string)
  : Op (option Driver.ImageInspect * option error) :=
  Println ["In podman inspect image"] ;;;
  r <- request (images_GetImage b (ctx c) id) ;;
  let '(data, err) := r in
  match err with
  | Some e => ret (Some ImageInspect_zero, Some e)
  | None =>
      d <- deref data ;;
      ret (Some {| Driver.II_ID := ir_ID d;
                   Driver.II_Size := ir_Size d;
                   Driver.II_RepoTags := ir_RepoTags d |}, None)
  end.

Definition ImagesPull (refStr : string) : Op (list string * option error) :=
  r <- request (images_Pull b (ctx c) refStr) ;;
  let '(strSlice, err) := r in
  match err with
  | Some e => ret ([], Some (wrapError "Could not pull image" e))
  | None => ret (strSlice, None)
  end.

Definition ImagesList : Op (list Driver.ImageSummary * option error) :=
  Println ["In podman list images"] ;;;
  r <- request (images_List b (ctx c)) ;;
  let '(images, err) := r in
  match err with
  | Some e => ret ([], Some e)
  | None =>
      (* for _, image := range images { summary = append(summary, ...) } *)
      let summary :=
        fold_left
          (fun summary image =>
             (summary ++ [{| Driver.IS_ID := is_ID image;
                             Driver.IS_Created := is_Created image;
                             Driver.IS_Size := is_Size image;
                             Driver.IS_Labels := is_Labels image;
                             Driver.IS_RepoTags := is_RepoTags image |}])%list)
          images [] in
      ret (summary, None)
  end.

Definition ContainerCreate (image : string)
  : Op (Driver.ContainerCreateResponse * option error) :=
  Println ["Inside podman container create"] ;;;
  let s := NewSpecGenerator image false in
  r <- request (containers_CreateWithSpec b (ctx c) s) ;;
  let '(r_ID, err) := r in
  match err with
  | Some e => ret ({| Driver.CCR_ID := "" |}, Some e)
  | None => ret ({| Driver.CCR_ID := r_ID |}, None)
  end.

Definition ContainerStart (id : string) : Op (option error) :=
  Println ["Inside podman start container"] ;;;
  request (containers_Start b (ctx c) id).

Definition ContainerList : Op (list Driver.Container * option error) :=
  Println ["Inside podman container list"] ;;;
  let latestContainers := 1 in
  r <- request (containers_List b (ctx c) (Some latestContainers)) ;;
  let '(cl, err) := r in
  let dc :=
    fold_left
      (fun dc container =>
         (dc ++ [{| Driver.C_ID := lc_ID container;
                    Driver.C_Names := lc_Names container;
                    Driver.C_Image := lc_Image container;
                    Driver.C_ImageID := lc_ImageID container;
                    Driver.C_Labels := lc_Labels container;
                    Driver.C_State := lc_State container;
                    Driver.C_Status := lc_Status container |}])%list)
      cl [] in
  ret (dc, err).

Definition ContainerInspect (id : string)
  : Op (option Driver.InspectContainerData * option error) :=
  Println ["Inside podman container inspect"] ;;;
  r <- request (containers_Inspect b (ctx c) id) ;;
  let '(cd, err) := r in
  match err with
  | Some e => ret (Some InspectContainerData_zero, Some e)
  | None =>
      d <- deref cd ;;
      ret (Some {| Driver.ICD_ID := cd_ID d;
                   Driver.ICD_Created := cd_Created d;
                   Driver.ICD_Path := cd_Path d;
                   Driver.ICD_Args := cd_Args d;
                   Driver.ICD_Image := cd_Image d;
                   Driver.ICD_ImageName := cd_ImageName d;
                   Driver.ICD_Name := cd_Name d |}, err)
  end.

Definition ContainerStop (id : string) : Op (option error) :=
  Println ["Inside podman stop container"] ;;;
  request (containers_Stop b (ctx c) id).

Definition ContainerRemove (id : string) : Op (option error) :=
  let force := true in
  Println ["Inside podman container remove"] ;;;
  request (containers_Remove b (ctx c) id (Some force) (Some force)).

Definition NetworkCreate (name : string) (options : Driver.NetworkCreateOptions)
  : Op (Driver.NetworkCreateResponse * option error) :=
  Println ["Inside podman network create"] ;;;
  let nco := {| nco_Driver := Driver.NCO_Driver options |} in
  r <- request (network_Create b (ctx c) nco (Some name)) ;;
  let '(resp, err) := r in
  match err with
  | Some e => ret (NetworkCreateResponse_zero, Some e)
  | None =>
      Println ["Network create response " ++
               match resp with Some r => plus_v r | None => "<nil>" end] ;;;
      ret (NetworkCreateResponse_zero, err)
  end.

Definition NetworkInspect (id : string)
  : Op (Driver.NetworkResource * option error) :=
  Println ["Inside podman network inspect"] ;;;
  r <- request (network_Inspect b (ctx c) id) ;;
  let '(nir, err) := r in
  nir0 <- first nir ;;
  let name := Sprintf_v (index nir0 "name") in
  ret ({| Driver.NR_Name := name |}, err).

Definition NetworkRemove (id : string) : Op (option error) :=
  let force := true in
  Println ["Inside podman network remove for: "; id] ;;;
  request (network_Remove b (ctx c) id (Some force)).

Definition NetworkConnect (id container : string) (aliases : list string)
  : Op (option error) :=
  Println ["Inside podman network connect: "; id; container] ;;;
  request (network_Connect b (ctx c) id
             {| co_Container := container; co_Aliases := aliases |}).

Definition NetworkDisconnect (id container : string) (force : bool)
  : Op (option error) :=
  Println ["Inside podman network disconnect: "; id; container] ;;;
  request (network_Disconnect b (ctx c) id
             {| do_Container := container; do_Force := force |}).

End Operations.

(** What the driver makes of an image and of a container of the engine. *)
Definition summary_of (image : entities_ImageSummary) : Driver.ImageSummary :=
  {| Driver.IS_ID := is_ID image;
     Driver.IS_Created := is_Created image;
     Driver.IS_Size := is_Size image;
     Driver.IS_Labels := is_Labels image;
     Driver.IS_RepoTags := is_RepoTags image |}.

Definition container_of (container : ListContainer) : Driver.Container :=
  {| Driver.C_ID := lc_ID container;
     Driver.C_Names := lc_Names container;
     Driver.C_Image := lc_Image container;
     Driver.C_ImageID := lc_ImageID container;
     Driver.C_Labels := lc_Labels container;
     Driver.C_State := lc_State container;
     Driver.C_Status := lc_Status container |}.

(** A process that has printed nothing and made no request. *)
Definition fresh : world := {| console := []; calls := 0 |}.

(** The driver as [New] leaves it. *)
Definition system_socket : podmanClient :=
  {| ctx := connection "unix:/run/podman/podman.sock";
     timeout := 0; imagePullProgessDeadline := 0 |}.

(** An engine that knows no network: every request fails and carries no
    data. *)
Definition unknown_to_engine : Bindings :=
  let e := Some (errorString "no such object") in
  {| images_GetImage := fun _ _ _ => (None, e);
     images_Pull := fun _ _ _ => ([], e);
     images_List := fun _ _ => ([], e);
     containers_CreateWithSpec := fun _ _ _ => ("", e);
     containers_Start := fun _ _ _ => e;
     containers_List := fun _ _ _ => ([], e);
     containers_Inspect := fun _ _ _ => (None, e);
     containers_Stop := fun _ _ _ => e;
     containers_Remove := fun _ _ _ _ _ => e;
     network_Create := fun _ _ _ _ => (None, e);
     network_Inspect := fun _ _ _ => ([], e);
     network_Remove := fun _ _ _ _ => e;
     network_Connect := fun _ _ _ _ => e;
     network_Disconnect := fun _ _ _ _ => e |}.

(** An engine with one image, one container and one network. *)
Definition one_of_each : Bindings :=
  {| images_GetImage := fun _ id _ =>
       (Some {| ir_ID := id; ir_Size := 42; ir_RepoTags := ["r:1"] |}, None);
     images_Pull := fun _ ref _ => ([ref], None);
     images_List := fun _ _ =>
       ([{| is_ID := "i1"; is_Created := 7; is_Labels := [];
            is_RepoTags := ["r:1"]; is_Size := 42 |}], None);
     containers_CreateWithSpec := fun _ _ _ => ("c1", None);
     containers_Start := fun _ _ _ => None;
     containers_List := fun _ _ _ =>
       ([{| lc_ID := "c1"; lc_Names := ["router"]; lc_Image := "r:1";
            lc_ImageID := "i1"; lc_Labels := []; lc_State := "running";
            lc_Status := "Up" |}], None);
     containers_Inspect := fun _ id _ =>
       (Some {| cd_ID := id; cd_Created := 7; cd_Path := "/bin/sh";
                cd_Args := []; cd_Image := "i1"; cd_ImageName := "r:1";
                cd_Name := "router" |}, None);
     containers_Stop := fun _ _ _ => None;
     containers_Remove := fun _ _ _ _ _ => None;
     network_Create := fun _ _ _ _ => (Some {| plus_v := "&{Filename:n1}" |}, None);
     network_Inspect := fun _ id _ =>
       ([[("cniVersion", jstring "0.4.0"); ("name", jstring id)]], None);
     network_Remove := fun _ _ _ _ => None;
     network_Connect := fun _ _ _ _ => None;
     network_Disconnect := fun _ _ _ _ => None |}.

End Ops.

End Podman.

(* ===================================================================== *)
(** * The command: load a driver by name and exercise it *)
(* ===================================================================== *)

Module Cmd.
Import Go.

Section Main.

(** The state of the engine behind the drivers. *)
Variable W : Type.

(** What [os.Stat] says of a path. *)
Inductive stat_result : Type :=
| stat_found
| stat_not_exist
| stat_failed (e : error).

(** What a symbol of a plugin is when asserted to be a [driver.Driver]. *)
Inductive symbol : Type :=
| sym_driver (drv : Driver.Driver W)
| sym_other.

(** The file system, the plugin loader and the formatting of [fmt]. *)
Record host : Type := {
  os_Stat : string -> stat_result;
  (** [plugin.Open(path)]: the plugin, as its [Lookup] *)
  plugin_Open : string -> error + (string -> error + symbol);
  (** [err.Error()] *)
  Error_text : error -> string;
  (** how [fmt.Println] prints a [*driver.ImageInspect] *)
  show_ImageInspect : option Driver.ImageInspect -> string;
  (** [execResult.Stdout()] *)
  ExecResult_Stdout : Driver.ExecResult string -> string
}.

(** How the process ends. *)
Inductive ending : Type :=
| finished                 (* main returns: status 0 *)
| os_Exit (status : Z)
| panic (why : string).    (* the runtime prints the panic and exits with 2 *)

Definition exit_status (e : ending) : Z :=
  match e with
  | finished => 0
  | os_Exit status => status
  | panic _ => 2
  end.

(** The process: the lines printed, the operations of the contract invoked,
    in order, and the engine. *)
Record process : Type := {
  printed : list string;
  invoked : list string;
  engine : W
}.

(** A piece of [main]: it goes on with a value or ends the process. *)
Definition M (A : Type) : Type := process -> (A + ending) * process.

Definition ret {A} (a : A) : M A := fun p => (inl a, p).

Definition bind {A B} (c : M A) (k : A -> M B) : M B :=
  fun p =>
    match c p with
    | (inl a, p') => k a p'
    | (inr e, p') => (inr e, p')
    end.

(** [fmt.Println(args...)]: the operands, separated by spaces. *)
Definition Println (args : list string) : M unit :=
  fun p => (inl tt, {| printed := (printed p ++ [String.concat " " args])%list;
                       invoked := invoked p; engine := engine p |}).

Definition Exit {A} (status : Z) : M A := fun p => (inr (os_Exit status), p).

Definition Panic {A} (why : string) : M A := fun p => (inr (panic why), p).

(** A call of the operation [name] of the contract, for an operation that
    returns.  An operation that panics or never returns ends or blocks
    [main] inside the call; such runs are not described here, and what is
    proved of [main] below is what holds of them too, or is about what the
    operations return. *)
Definition call {A} (name : string) (op : W -> A * W) : M A :=
  fun p =>
    let '(a, w') := op (engine p) in
    (inl a, {| printed := printed p; invoked := (invoked p ++ [name])%list;
               engine := w' |}).

(** A piece of [main] only adds to the record of invoked operations. *)
Definition grows {A} (c : M A) : Prop :=
  forall p, exists l, invoked (snd (c p)) = (invoked p ++ l)%list.

(** [if err != nil { fmt.Println(err); os.Exit(1) }] *)
Definition check (h : host) (err : option error) : M unit :=
  match err with
  | Some e => bind (Println [Error_text h e]) (fun _ => Exit 1)
  | None => ret tt
  end.

(** [for _, x := range xs { body }] *)
Fixpoint for_each {A} (xs : list A) (body : A -> M unit) : M unit :=
  match xs with
  | [] => ret tt
  | x :: xs' => bind (body x) (fun _ => for_each xs' body)
  end.

Notation "x <- c ;; k" := (bind c (fun x => k))
  (at level 61, c at next level, right associativity).
Notation "c ;;; k" := (bind c (fun _ => k))
  (at level 61, right associativity).

Definition image : string := "quay.io/skupper/qdrouterd:0.4".
Definition network : string := "skupper-network".

(** The part of [main] that runs once there is a driver. *)
Definition exercise (h : host) (drv : Driver.Driver W) : M unit :=
  _ <- call "New" (Driver.New W drv) ;;
  r <- call "ImagesPull" (Driver.ImagesPull W drv image) ;;
  (match snd r with
   | Some e => Println [Error_text h e]
   | None => ret tt
   end) ;;;
  r <- call "ImagesList" (Driver.ImagesList W drv) ;;
  check h (snd r) ;;;
  let names := flat_map Driver.IS_RepoTags (fst r) in
  Println ["Listing images..."] ;;;
  for_each names (fun n => Println [n]) ;;;
  Println ["Inspecting image"] ;;;
  r <- call "ImageInspect" (Driver.ImageInspect_ W drv image) ;;
  check h (snd r) ;;;
  Println ["Image data "; show_ImageInspect h (fst r)] ;;;
  Println ["Creating Container"] ;;;
  r <- call "ContainerCreate" (Driver.ContainerCreate W drv image) ;;
  check h (snd r) ;;;
  let resp := fst r in
  Println ["Starting Container"] ;;;
  err <- call "ContainerStart" (Driver.ContainerStart W drv (Driver.CCR_ID resp)) ;;
  check h err ;;;
  Println ["Wait for container to be running"] ;;;
  err <- call "ContainerWait"
           (Driver.ContainerWait W drv (Driver.CCR_ID resp) "running"
              (30 * Second) (5 * Second)) ;;
  check h err ;;;
  Println ["Let's get list of containers"] ;;;
  r <- call "ContainerList" (Driver.ContainerList W drv) ;;
  check h (snd r) ;;;
  (match fst r with
   | [] => Panic "index out of range [0] with length 0"
   | c :: _ =>
       match Driver.C_Names c with
       | [] => Panic "index out of range [0] with length 0"
       | n :: _ =>
           Println ["Latest container is " ++ n ++ " and state is "
                      ++ Driver.C_State c ++ " "]
       end
   end) ;;;
  Println ["Lets inpect the container shall we"] ;;;
  r <- call "ContainerInspect" (Driver.ContainerInspect W drv (Driver.CCR_ID resp)) ;;
  check h (snd r) ;;;
  (match fst r with
   | None => Panic "nil pointer dereference"
   | Some ci =>
       Println ["The container name is " ++ Driver.ICD_Name ci
                  ++ " and uses image " ++ Driver.ICD_ImageName ci]
   end) ;;;
  Println ["Let's create a network"] ;;;
  r <- call "NetworkCreate" (Driver.NetworkCreate W drv network) ;;
  check h (snd r) ;;;
  Println ["And inspect the network"] ;;;
  r <- call "NetworkInspect" (Driver.NetworkInspect W drv network) ;;
  check h (snd r) ;;;
  Println ["The network name is"; Driver.NR_Name (fst r)] ;;;
  Println ["Connect container to network"] ;;;
  err <- call "NetworkConnect"
           (Driver.NetworkConnect W drv network (Driver.CCR_ID resp) []) ;;
  check h err ;;;
  Println ["Exec a command"] ;;;
  r <- call "ContainerExec"
         (Driver.ContainerExec W drv (Driver.CCR_ID resp) ["qdstat"; "-g"]) ;;
  check h (snd r) ;;;
  Println ["exec output: "; ExecResult_Stdout h (fst r)] ;;;
  Println ["Exec a second command"] ;;;
  r <- call "ContainerExec"
         (Driver.ContainerExec W drv (Driver.CCR_ID resp) ["qdstat"; "-l"]) ;;
  check h (snd r) ;;;
  Println ["exec second output: "; ExecResult_Stdout h (fst r)] ;;;
  Println ["Disconnect container from network"] ;;;
  err <- call "NetworkDisconnect"
           (Driver.NetworkDisconnect W drv network (Driver.CCR_ID resp) true) ;;
  check h err ;;;
  Println ["Now let's stop the container"] ;;;
  err <- call "ContainerStop" (Driver.ContainerStop W drv (Driver.CCR_ID resp)) ;;
  check h err ;;;
  Println ["Remove the container"] ;;;
  err <- call "ContainerRemove" (Driver.ContainerRemove W drv (Driver.CCR_ID resp)) ;;
  check h err ;;;
  Println ["And remove the network too"] ;;;
  err <- call "NetworkRemove" (Driver.NetworkRemove W drv network) ;;
  check h err.

(** The first part of [main]: from the command line to a driver. *)
Definition load_driver (h : host) (args : list string) : M (Driver.Driver W) :=
  match args with
  | [_; name] =>
      let module := "./" ++ name ++ ".so" in
      Println ["module: "; module] ;;;
      (match os_Stat h module with
       | stat_not_exist =>
           Println ["Can't find a driver named:"; name] ;;; Exit 1
       | _ => ret tt
       end) ;;;
      match plugin_Open h module with
      | inl e => Println [Error_text h e] ;;; Exit 1
      | inr p =>
          match p "Driver" with
          | inl e => Println [Error_text h e] ;;; Exit 1
          | inr symDriver =>
              match symDriver with
              | sym_other => Println ["That is not a driver"] ;;; Exit 1
              | sym_driver drv => ret drv
              end
          end
      end
  | _ => Println ["usage run cmd/main.go drivername"] ;;; Exit 1
  end.

(** [main], run with the command line [args] ([os.Args]) on the engine [w]:
    how the process ends and what it has done. *)
Definition main (h : host) (args : list string) (w : W) : ending * process :=
  let start := {| printed := []; invoked := []; engine := w |} in
  match (drv <- load_driver h args ;; exercise h drv) start with
  | (inl _, p) => (finished, p)
  | (inr e, p) => (e, p)
  end.

(** What the backend name [name] resolves to: the driver of an existing
    module that opens, has a symbol [Driver], and that symbol conforms to the
    contract. *)
Definition resolve (h : host) (name : string) : option (Driver.Driver W) :=
  let module := "./" ++ name ++ ".so" in
  match os_Stat h module with
  | stat_not_exist => None
  | _ =>
      match plugin_Open h module with
      | inl _ => None
      | inr p =>
          match p "Driver" with
          | inr (sym_driver drv) => Some drv
          | _ => None
          end
      end
  end.

End Main.

Arguments printed {W} _.
Arguments invoked {W} _.
Arguments engine {W} _.

(** A directory without any driver module. *)
Definition no_modules : host unit :=
  {| os_Stat := fun _ => stat_not_exist;
     plugin_Open := fun path => inl (errorString ("plugin.Open(" ++ path ++ "): not found"));
     Error_text := fun e => match e with errorString m => m | _ => "error" end;
     show_ImageInspect := fun _ => "";
     ExecResult_Stdout := fun r => match Driver.OutBuffer r with
                                   | Some out => out
                                   | None => ""
                                   end |}.

(** A driver that does nothing and reports nothing. *)
Definition idle_driver : Driver.Driver unit :=
  {| Driver.New := fun w => (None, w);
     Driver.ImagesPull := fun _ w => (([], None), w);
     Driver.ImagesList := fun w => (([], None), w);
     Driver.ImageInspect_ := fun _ w => ((None, None), w);
     Driver.ContainerCreate := fun _ w => (({| Driver.CCR_ID := "c1" |}, None), w);
     Driver.ContainerStart := fun _ w => (None, w);
     Driver.ContainerWait := fun _ _ _ _ w => (None, w);
     Driver.ContainerList := fun w => (([], None), w);
     Driver.ContainerInspect := fun _ w => ((None, None), w);
     Driver.ContainerStop := fun _ w => (None, w);
     Driver.ContainerRemove := fun _ w => (None, w);
     Driver.ContainerExec := fun _ _ w => ((Driver.ExecResult_zero, None), w);
     Driver.NetworkCreate := fun _ w =>
       (({| Driver.NCR_ID := ""; Driver.NCR_Warning := "" |}, None), w);
     Driver.NetworkInspect := fun _ w => (({| Driver.NR_Name := "" |}, None), w);
     Driver.NetworkRemove := fun _ w => (None, w);
     Driver.NetworkConnect := fun _ _ _ w => (None, w);
     Driver.NetworkDisconnect := fun _ _ _ w => (None, w) |}.

(** A directory with the one module [./idle.so], which exports it. *)
Definition one_module : host unit :=
  {| os_Stat := fun path =>
       if String.eqb path "./idle.so" then stat_found else stat_not_exist;
     plugin_Open := fun path =>
       if String.eqb path "./idle.so"
       then inr (fun name => if String.eqb name "Driver"
                             then inr (sym_driver unit idle_driver)
                             else inl (errorString "symbol not found"))
       else inl (errorString "not found");
     Error_text := fun e => match e with errorString m => m | _ => "error" end;
     show_ImageInspect := fun _ => "";
     ExecResult_Stdout := fun r => match Driver.OutBuffer r with
                                   | Some out => out
                                   | None => ""
                                   end |}.

(** The operations of the contract that [main] invokes when none of them
    stops it, in the order of the source. *)
Definition all_ops : list string :=
  ["New"; "ImagesPull"; "ImagesList"; "ImageInspect"; "ContainerCreate";
   "ContainerStart"; "ContainerWait"; "ContainerList"; "ContainerInspect";
   "NetworkCreate"; "NetworkInspect"; "NetworkConnect"; "ContainerExec";
   "ContainerExec"; "NetworkDisconnect"; "ContainerStop"; "ContainerRemove";
   "NetworkRemove"].

(** [drv] never reports a container list that [main] cannot index: when
    [ContainerList] returns a nil error, the list has a first container and
    that container a first name. *)
Definition lists_one_named {W : Type} (drv : Driver.Driver W) : Prop :=
  forall w, snd (fst (Driver.ContainerList W drv w)) = None ->
    exists c cs n ns, fst (fst (Driver.ContainerList W drv w)) = c :: cs /\
                      Driver.C_Names c = n :: ns.

(** [drv] never returns a nil pointer with a nil error from
    [ContainerInspect]. *)
Definition inspects_or_fails {W : Type} (drv : Driver.Driver W) : Prop :=
  forall id w, snd (fst (Driver.ContainerInspect W drv id w)) = None ->
    fst (fst (Driver.ContainerInspect W drv id w)) <> None.

(** None of the operations of [drv] that [main] checks returns an error:
    all but [New] and [ImagesPull]. *)
Definition checked_ops_succeed {W : Type} (drv : Driver.Driver W) : Prop :=
  (forall w, snd (fst (Driver.ImagesList W drv w)) = None) /\
  (forall id w, snd (fst (Driver.ImageInspect_ W drv id w)) = None) /\
  (forall img w, snd (fst (Driver.ContainerCreate W drv img w)) = None) /\
  (forall id w, fst (Driver.ContainerStart W drv id w) = None) /\
  (forall id st t i w, fst (Driver.ContainerWait W drv id st t i w) = None) /\
  (forall w, snd (fst (Driver.ContainerList W drv w)) = None) /\
  (forall id w, snd (fst (Driver.ContainerInspect W drv id w)) = None) /\
  (forall id w, fst (Driver.ContainerStop W drv id w) = None) /\
  (forall id w, fst (Driver.ContainerRemove W drv id w) = None) /\
  (forall id c w, snd (fst (Driver.ContainerExec W drv id c w)) = None) /\
  (forall n w, snd (fst (Driver.NetworkCreate W drv n w)) = None) /\
  (forall n w, snd (fst (Driver.NetworkInspect W drv n w)) = None) /\
  (forall n w, fst (Driver.NetworkRemove W drv n w) = None) /\
  (forall n c a w, fst (Driver.NetworkConnect W drv n c a w) = None) /\
  (forall n c f w, fst (Driver.NetworkDisconnect W drv n c f w) = None).

(** A piece of [main] that invokes the operations [ops], in this order, when
    it runs to its end, and an initial part of them when it ends the
    process, which it does by [os.Exit(1)] or by a panic. *)
Definition segment {W A : Type} (ops : list string) (c : M W A) : Prop :=
  forall p,
    match fst (c p) with
    | inl _ => invoked (snd (c p)) = (invoked p ++ ops)%list
    | inr e =>
        (e = os_Exit 1 \/ exists why, e = panic why) /\
        exists l rest, ops = (l ++ rest)%list /\
                       invoked (snd (c p)) = (invoked p ++ l)%list
    end.

(** A piece of [main] that always runs to its end. *)
Definition succeeds {W A : Type} (c : M W A) : Prop :=
  forall p, exists a, fst (c p) = inl a.

(** A piece of [main] that invokes no operation. *)
Definition quiet {W A : Type} (c : M W A) : Prop :=
  forall p, invoked (snd (c p)) = invoked p.

(** A piece of [main] that ends the process before it invokes [op]. *)
Definition stops_short {W A : Type} (op : string) (c : M W A) : Prop :=
  forall p,
    (exists e, fst (c p) = inr e) /\
    exists l, invoked (snd (c p)) = (invoked p ++ l)%list /\ ~ In op l.

(** A driver that cannot reach its engine for [New] and [ImagesPull] and
    whose other operations succeed on the one container "router". *)
Definition steady_driver : Driver.Driver unit :=
  {| Driver.New := fun w => (Some (errorString "cannot connect"), w);
     Driver.ImagesPull := fun _ w => (([], Some (errorString "pull failed")), w);
     Driver.ImagesList := fun w => (([], None), w);
     Driver.ImageInspect_ := fun _ w =>
       ((Some {| Driver.II_ID := "i1"; Driver.II_Size := 0;
                 Driver.II_RepoTags := [] |}, None), w);
     Driver.ContainerCreate := fun _ w => (({| Driver.CCR_ID := "c1" |}, None), w);
     Driver.ContainerStart := fun _ w => (None, w);
     Driver.ContainerWait := fun _ _ _ _ w => (None, w);
     Driver.ContainerList := fun w =>
       (([{| Driver.C_ID := "c1"; Driver.C_Names := ["router"];
             Driver.C_Image := ""; Driver.C_ImageID := "";
             Driver.C_Labels := []; Driver.C_State := "running";
             Driver.C_Status := "" |}], None), w);
     Driver.ContainerInspect := fun _ w =>
       ((Some {| Driver.ICD_ID := "c1"; Driver.ICD_Created := 0;
                 Driver.ICD_Path := ""; Driver.ICD_Args := [];
                 Driver.ICD_Image := ""; Driver.ICD_ImageName := "";
                 Driver.ICD_Name := "router" |}, None), w);
     Driver.ContainerStop := fun _ w => (None, w);
     Driver.ContainerRemove := fun _ w => (None, w);
     Driver.ContainerExec := fun _ _ w => ((Driver.ExecResult_zero, None), w);
     Driver.NetworkCreate := fun _ w =>
       (({| Driver.NCR_ID := ""; Driver.NCR_Warning := "" |}, None), w);
     Driver.NetworkInspect := fun _ w => (({| Driver.NR_Name := "" |}, None), w);
     Driver.NetworkRemove := fun _ w => (None, w);
     Driver.NetworkConnect := fun _ _ _ w => (None, w);
     Driver.NetworkDisconnect := fun _ _ _ w => (None, w) |}.

(** A directory with the one module [./steady.so], which exports it. *)
Definition steady_module : host unit :=
  {| os_Stat := fun path =>
       if String.eqb path "./steady.so" then stat_found else stat_not_exist;
     plugin_Open := fun path =>
       if String.eqb path "./steady.so"
       then inr (fun name => if String.eqb name "Driver"
                             then inr (sym_driver unit steady_driver)
                             else inl (errorString "symbol not found"))
       else inl (errorString "not found");
     Error_text := fun e => match e with errorString m => m | _ => "error" end;
     show_ImageInspect := fun _ => "";
     ExecResult_Stdout := fun r => match Driver.OutBuffer r with
                                   | Some out => out
                                   | None => ""
                                   end |}.

(** A driver like [steady_driver], but whose [ContainerInspect] returns a
    nil pointer with a nil error. *)
Definition forgetful_driver : Driver.Driver unit :=
  {| Driver.New := Driver.New unit steady_driver;
     Driver.ImagesPull := Driver.ImagesPull unit steady_driver;
     Driver.ImagesList := Driver.ImagesList unit steady_driver;
     Driver.ImageInspect_ := Driver.ImageInspect_ unit steady_driver;
     Driver.ContainerCreate := Driver.ContainerCreate unit steady_driver;
     Driver.ContainerStart := Driver.ContainerStart unit steady_driver;
     Driver.ContainerWait := Driver.ContainerWait unit steady_driver;
     Driver.ContainerList := Driver.ContainerList unit steady_driver;
     Driver.ContainerInspect := fun _ w => ((None, None), w);
     Driver.ContainerStop := Driver.ContainerStop unit steady_driver;
     Driver.ContainerRemove := Driver.ContainerRemove unit steady_driver;
     Driver.ContainerExec := Driver.ContainerExec unit steady_driver;
     Driver.NetworkCreate := Driver.NetworkCreate unit steady_driver;
     Driver.NetworkInspect := Driver.NetworkInspect unit steady_driver;
     Driver.NetworkRemove := Driver.NetworkRemove unit steady_driver;
     Driver.NetworkConnect := Driver.NetworkConnect unit steady_driver;
     Driver.NetworkDisconnect := Driver.NetworkDisconnect unit steady_driver |}.

(** A directory with the one module [./forgetful.so], which exports it. *)
Definition forgetful_module : host unit :=
  {| os_Stat := fun path =>
       if String.eqb path "./forgetful.so" then stat_found else stat_not_exist;
     plugin_Open := fun path =>
       if String.eqb path "./forgetful.so"
       then inr (fun name => if String.eqb name "Driver"
                             then inr (sym_driver unit forgetful_driver)
                             else inl (errorString "symbol not found"))
       else inl (errorString "not found");
     Error_text := fun e => match e with errorString m => m | _ => "error" end;
     show_ImageInspect := fun _ => "";
     ExecResult_Stdout := fun r => match Driver.OutBuffer r with
                                   | Some out => out
                                   | None => ""
                                   end |}.

End Cmd.

(* ===================================================================== *)
(** * Properties *)
(* ===================================================================== *)

Section Watchdog.
Import Go Docker.
Local Open Scope list_scope.

Lemma reactAll_app p evs evs' :
  reactAll p (evs ++ evs') = reactAll (reactAll p evs) evs'.
Proof. apply fold_left_app. Qed.

Lemma react_not_running p e :
  watchdog p <> running ->
  watchdog (react p e) = watchdog p /\ cancel_calls (react p e) = cancel_calls p.
Proof.
  intros Hnr. destruct e; simpl; auto.
  all: destruct (watchdog p) eqn:Hw; auto; congruence.
Qed.

(** A goroutine that has returned stays so, and calls nothing any more. *)
Lemma reactAll_not_running evs : forall p,
  watchdog p <> running ->
  watchdog (reactAll p evs) = watchdog p /\
  cancel_calls (reactAll p evs) = cancel_calls p.
Proof.
  induction evs as [|e evs IH]; intros p Hnr; simpl; [auto|].
  destruct (react_not_running p e Hnr) as [H1 H2].
  destruct (IH (react p e)) as [H3 H4]; [congruence|].
  split; congruence.
Qed.

Lemma react_deadline p e :
  imagePullProgressDeadline (react p e) = imagePullProgressDeadline p.
Proof.
  destruct e; simpl; auto.
  - destruct (watchdog p); auto. unfold on_tick.
    destruct (progress_get (p_progress p)) as [s ts].
    destruct (_ >? _); auto.
  - destruct (watchdog p); auto. destruct (stopCh_closed p); auto.
Qed.

Lemma reactAll_deadline evs : forall p,
  imagePullProgressDeadline (reactAll p evs) = imagePullProgressDeadline p.
Proof.
  induction evs as [|e evs IH]; intros p; simpl; [auto|].
  rewrite IH. apply react_deadline.
Qed.

(** [get] hands out the stored timestamp, whatever the message. *)
Lemma progress_get_timestamp p : snd (progress_get p) = timestamp p.
Proof.
  unfold progress_get. destruct (message p) as [m|]; [|reflexivity].
  destruct (Progress m); reflexivity.
Qed.

(** The two outcomes of a tick. *)
Lemma on_tick_stalled p now :
  time_Since now (timestamp (p_progress p)) > imagePullProgressDeadline p ->
  watchdog (on_tick p now) = exited /\
  cancel_calls (on_tick p now) = S (cancel_calls p).
Proof.
  intros Hst. unfold on_tick.
  pose proof (progress_get_timestamp (p_progress p)) as Hts.
  destruct (progress_get (p_progress p)) as [s ts]. simpl in Hts. subst ts.
  destruct (Z.gtb_spec (time_Since now (timestamp (p_progress p)))
                       (imagePullProgressDeadline p)); [auto|lia].
Qed.

Lemma on_tick_alive p now :
  time_Since now (timestamp (p_progress p)) <= imagePullProgressDeadline p ->
  on_tick p now = p.
Proof.
  intros Hst. unfold on_tick.
  pose proof (progress_get_timestamp (p_progress p)) as Hts.
  destruct (progress_get (p_progress p)) as [s ts]. simpl in Hts. subst ts.
  destruct (Z.gtb_spec (time_Since now (timestamp (p_progress p)))
                       (imagePullProgressDeadline p)); [lia|auto].
Qed.

(** While the goroutine runs it has not called [cancel]. *)
Lemma react_running_calls c p e :
  (watchdog p = running -> cancel_calls p = c) ->
  watchdog (react p e) = running -> cancel_calls (react p e) = c.
Proof.
  intros Hp. destruct e as [msg now|now| |]; simpl.
  - exact Hp.
  - destruct (watchdog p) eqn:Hw; auto; try congruence.
    unfold on_tick. destruct (progress_get (p_progress p)) as [s ts].
    destruct (_ >? _); simpl; auto. congruence.
  - exact Hp.
  - destruct (watchdog p) eqn:Hw; simpl; auto; try congruence.
    destruct (stopCh_closed p); simpl; auto; congruence.
Qed.

Lemma reactAll_running_calls c evs : forall p,
  (watchdog p = running -> cancel_calls p = c) ->
  watchdog (reactAll p evs) = running -> cancel_calls (reactAll p evs) = c.
Proof.
  induction evs as [|e evs IH]; intros p Hp; simpl; [exact Hp|].
  apply IH. apply react_running_calls. exact Hp.
Qed.

(** C6.  From the start of the watchdog and after any events [pre] that left
    it running: a tick at which the time since the recorded timestamp exceeds
    the stall deadline makes it call [cancel] (its first and only call) and
    return; a receive from the stop channel (closed by then) makes it return
    without any call of [cancel], then or ever. *)
Theorem watchdog_tick_cancels_stop_does_not :
  forall img d t0 pre,
    let p0 := progressReporter_start (newProgressReporter img d t0) in
    watchdog (reactAll p0 pre) = running ->
    (forall now post,
        time_Since now (timestamp (p_progress (reactAll p0 pre))) > d ->
        let q := reactAll p0 (pre ++ [ev_tick now]) in
        watchdog q = exited /\ cancel_calls q = 1%nat /\
        watchdog (reactAll q post) = exited /\
        cancel_calls (reactAll q post) = 1%nat) /\
    (forall post,
        stopCh_closed (reactAll p0 pre) = true ->
        let q := reactAll p0 (pre ++ [ev_stop]) in
        watchdog q = exited /\ cancel_calls q = 0%nat /\
        watchdog (reactAll q post) = exited /\
        cancel_calls (reactAll q post) = 0%nat).
Proof.
  intros img d t0 pre p0 Hrun.
  assert (Hc : cancel_calls (reactAll p0 pre) = 0%nat).
  { apply reactAll_running_calls; auto. }
  assert (Hd : imagePullProgressDeadline (reactAll p0 pre) = d).
  { rewrite reactAll_deadline. reflexivity. }
  split.
  - intros now post Hst q. subst q. rewrite reactAll_app. simpl.
    rewrite Hrun.
    destruct (on_tick_stalled (reactAll p0 pre) now) as [Hw Hn].
    { rewrite Hd. exact Hst. }
    rewrite Hc in Hn.
    destruct (reactAll_not_running post (on_tick (reactAll p0 pre) now))
      as [Hw' Hn']; [congruence|].
    repeat split; congruence.
  - intros post Hclosed q. subst q. rewrite reactAll_app. simpl.
    rewrite Hrun, Hclosed.
    destruct (reactAll_not_running post (on_stop (reactAll p0 pre)))
      as [Hw' Hn']; [simpl; congruence|].
    simpl in *. repeat split; congruence.
Qed.

(** A run to which the theorem applies: one message recorded at 3s, a tick at
    10s that finds progress, the stop channel closed; then either a tick at
    20s or the receive from the stop channel. *)
Lemma watchdog_tick_cancels_stop_does_not_witness :
  let m := {| ID := "layer"; Status := "Downloading"; Progress := None;
              Error := None |} in
  let p0 := progressReporter_start
              (newProgressReporter "img" (10 * Second) 0) in
  let pre := [ev_set m (3 * Second); ev_tick (10 * Second); ev_close] in
  watchdog (reactAll p0 pre) = running /\
  cancel_calls (reactAll p0 (pre ++ [ev_tick (20 * Second)])) = 1%nat /\
  cancel_calls (reactAll p0 (pre ++ [ev_stop])) = 0%nat.
Proof.
  intros m p0 pre.
  assert (Hrun : watchdog (reactAll p0 pre) = running) by reflexivity.
  destruct (watchdog_tick_cancels_stop_does_not "img" (10 * Second) 0 pre Hrun)
    as [Htick Hstop].
  split; [exact Hrun|]. split.
  - apply (Htick (20 * Second) []). vm_compute. reflexivity.
  - apply (Hstop []). reflexivity.
Defined.

Lemma ticker_S t1 d n :
  ticker t1 d (S n) = ticker t1 d n ++ [ev_tick (t1 + Z.of_nat (S n) * d)].
Proof. unfold ticker. rewrite seq_S, map_app. reflexivity. Qed.

(** Ticks that all come within the deadline of the timestamp change nothing. *)
Lemma ticker_alive p t1 d n :
  watchdog p = running ->
  0 <= d ->
  time_Since (t1 + Z.of_nat n * d) (timestamp (p_progress p))
    <= imagePullProgressDeadline p ->
  reactAll p (ticker t1 d n) = p.
Proof.
  intros Hrun Hd. induction n as [|n IH]; intros Hn.
  - reflexivity.
  - rewrite ticker_S, reactAll_app, IH by (unfold time_Since in *; nia).
    simpl. rewrite Hrun. apply on_tick_alive. exact Hn.
Qed.

(** The stall check against a ticker of period [i > 0]: with no progress
    event and no stop signal, the first tick later than [d] after the
    timestamp cancels, and it comes at most [i] after that instant. *)
Lemma ticker_cancels p t1 d i :
  watchdog p = running ->
  imagePullProgressDeadline p = d ->
  0 < i ->
  timestamp (p_progress p) <= t1 <= timestamp (p_progress p) + d ->
  exists n : nat,
    (forall m, (m < n)%nat -> reactAll p (ticker t1 i m) = p) /\
    watchdog (reactAll p (ticker t1 i n)) = exited /\
    cancel_calls (reactAll p (ticker t1 i n)) = S (cancel_calls p) /\
    timestamp (p_progress p) + d < t1 + Z.of_nat n * i
      <= timestamp (p_progress p) + d + i.
Proof.
  intros Hrun Hdl Hi Ht. set (t0 := timestamp (p_progress p)) in *.
  set (q := (t0 + d - t1) / i).
  assert (Hq : 0 <= q) by (apply Z.div_pos; lia).
  assert (Hlo : q * i <= t0 + d - t1).
  { pose proof (Z.mul_div_le (t0 + d - t1) i Hi). unfold q. lia. }
  assert (Hhi : t0 + d - t1 < (q + 1) * i).
  { pose proof (Z.mul_succ_div_gt (t0 + d - t1) i Hi). unfold q. lia. }
  exists (S (Z.to_nat q)).
  assert (Hquiet : forall m, (m < S (Z.to_nat q))%nat ->
                             reactAll p (ticker t1 i m) = p).
  { intros m Hm. apply ticker_alive; auto; [lia|].
    unfold time_Since. fold t0. rewrite Hdl.
    assert (Z.of_nat m <= q) by lia. nia. }
  split; [exact Hquiet|].
  assert (Htk : t1 + Z.of_nat (S (Z.to_nat q)) * i = t1 + (q + 1) * i).
  { rewrite Nat2Z.inj_succ, Z2Nat.id by lia. reflexivity. }
  rewrite ticker_S, reactAll_app, Hquiet by lia.
  rewrite Htk. unfold reactAll. cbn [fold_left react]. rewrite Hrun.
  destruct (on_tick_stalled p (t1 + (q + 1) * i)) as [Hw Hc].
  { unfold time_Since. fold t0. rewrite Hdl. lia. }
  repeat split; auto; lia.
Qed.

(** C9.  A fresh reporter carries its creation time as timestamp.  So with no
    progress event at all (and no stop signal), the watchdog, whose ticker
    starts at [t1] no later than the stall deadline [d] after creation, leaves
    the pull alone at every tick up to [d] after creation and cancels it at
    the first tick after that, which comes within one report interval. *)
Theorem silent_pull_is_cancelled :
  forall img d t0 t1,
    0 <= d -> t0 <= t1 <= t0 + d ->
    let p0 := progressReporter_start (newProgressReporter img d t0) in
    timestamp (p_progress p0) = t0 /\
    exists n : nat,
      (forall m, (m < n)%nat -> reactAll p0 (start_ticker t1 m) = p0) /\
      watchdog (reactAll p0 (start_ticker t1 n)) = exited /\
      cancel_calls (reactAll p0 (start_ticker t1 n)) = 1%nat /\
      t0 + d < t1 + Z.of_nat n * defaultImagePullingProgressReportInterval
        <= t0 + d + defaultImagePullingProgressReportInterval.
Proof.
  intros img d t0 t1 Hd Ht p0. split; [reflexivity|].
  apply (ticker_cancels p0 t1 d defaultImagePullingProgressReportInterval);
    auto; reflexivity.
Qed.

(** The pull of [ImagesPull] (deadline 10s), its ticker started 1ms after the
    reporter was made. *)
Lemma silent_pull_is_cancelled_witness :
  0 <= 10 * Second /\ 0 <= 1000000 <= 0 + 10 * Second /\
  exists n : nat,
    let p0 := progressReporter_start
                (newProgressReporter "img" (10 * Second) 0) in
    cancel_calls (reactAll p0 (start_ticker 1000000 n)) = 1%nat.
Proof.
  assert (H1 : 0 <= 10 * Second) by (vm_compute; discriminate).
  assert (H2 : 0 <= 1000000 <= 0 + 10 * Second)
    by (split; vm_compute; discriminate).
  split; [exact H1|]. split; [exact H2|].
  destruct (silent_pull_is_cancelled "img" (10 * Second) 0 1000000 H1 H2)
    as [_ [n [_ [_ [Hc _]]]]].
  exists n. exact Hc.
Defined.

End Watchdog.

Section DecodeLoop.
Import Go Docker.
Local Open Scope list_scope.

(** The loop on its own, from any reporter: it splits the body into a prefix
    of events without error field and the item it stops at. *)
Lemma decode_loop_splits :
  forall (resp : body) (reporter : progressReporter),
  exists pre rest,
    resp = pre ++ rest /\ Forall clean pre /\
    snd (fst (decode_loop resp reporter)) = recorded pre /\
    snd (decode_loop resp reporter) = record_all reporter pre /\
    ( ((rest = [] \/ exists now tl, rest = (now, dec_err io_EOF) :: tl) /\
       fst (fst (decode_loop resp reporter)) = None)
      \/ (exists now e tl, rest = (now, dec_err e) :: tl /\ e <> io_EOF /\
          fst (fst (decode_loop resp reporter)) = Some e)
      \/ (exists now m code text tl, rest = (now, dec_msg m) :: tl /\
          Error m = Some (code, text) /\
          fst (fst (decode_loop resp reporter)) = Some (JSONError code text)) ).
Proof.
  induction resp as [|[now d] resp IH]; intros reporter.
  - exists [], []. simpl. repeat split; auto.
  - destruct d as [e|m].
    + exists [], ((now, dec_err e) :: resp). simpl.
      destruct (error_eq_dec e io_EOF) as [->|Hne]; simpl.
      * repeat split; auto. left. split; auto. right. eauto.
      * repeat split; auto. right. left. eauto 6.
    + destruct (Error m) as [[code text]|] eqn:HE.
      * exists [], ((now, dec_msg m) :: resp). simpl. rewrite HE. simpl.
        repeat split; auto. right. right. eauto 10.
      * destruct (IH (progressReporter_set reporter m now))
          as (pre & rest & Hsplit & Hclean & Hsets & Hrep & Hexit).
        exists ((now, dec_msg m) :: pre), rest. simpl. rewrite HE.
        destruct (decode_loop resp (progressReporter_set reporter m now))
          as [[r sets] rep'] eqn:Hloop. simpl in *.
        repeat split; auto.
        -- congruence.
        -- constructor; auto. exists m. auto.
        -- congruence.
Qed.

(** What [ImagesPull] returns once the pull request has been accepted is what
    its decode loop ends with. *)
Lemma ImagesPull_returns_loop_result env refStr auth resp :
  encode_auth env = inr auth ->
  image_pull env = inr resp ->
  let reporter := progressReporter_start
                    (newProgressReporter refStr (10 * Second) (pull_started env)) in
  pull_err (ImagesPull env refStr) = fst (fst (decode_loop resp reporter)) /\
  pull_sets (ImagesPull env refStr) = snd (fst (decode_loop resp reporter)) /\
  pull_tags (ImagesPull env refStr) = [].
Proof.
  intros Ha Hp reporter. unfold ImagesPull. rewrite Ha, Hp. fold reporter.
  destruct (decode_loop resp reporter) as [[err sets] reporter'].
  repeat split.
Qed.

(** The reporter that [ImagesPull] leaves is the one its loop ends with,
    stopped. *)
Lemma ImagesPull_reporter env refStr auth resp :
  encode_auth env = inr auth ->
  image_pull env = inr resp ->
  pull_reporter (ImagesPull env refStr)
  = Some (progressReporter_stop
            (snd (decode_loop resp
                    (progressReporter_start
                       (newProgressReporter refStr (10 * Second)
                          (pull_started env)))))).
Proof.
  intros Ha Hp. unfold ImagesPull. rewrite Ha, Hp.
  destruct (decode_loop resp _) as [[err sets] reporter'].
  reflexivity.
Qed.

(** Recording a run of events without error field leaves the last of them,
    with its time, in the reporter's progress. *)
Lemma record_all_progress (reporter : progressReporter) (pre : body) :
  Forall clean pre ->
  p_progress (record_all reporter pre)
  = match rev pre with
    | (t, dec_msg m) :: _ => {| message := Some m; timestamp := t |}
    | _ => p_progress reporter
    end.
Proof.
  induction pre as [|[t d] pre IH] using rev_ind; intros Hclean.
  - reflexivity.
  - apply Forall_app in Hclean as [_ Hlast].
    inversion Hlast as [|? ? [m [Hm _]] _]; subst. simpl in Hm. subst d.
    unfold record_all. rewrite fold_left_app, rev_app_distr. reflexivity.
Qed.

(** C7.  [ImagesPull], once the engine has accepted the pull request, reads
    the body as a run of events without error field followed by the item it
    stops at.  It stops in exactly three ways: at the end of the stream
    (the body exhausted, or [io.EOF] from the decoder), and returns nil; at a
    decode error, and returns it; at an event with an error field, and
    returns that error.  Every event before that has been passed to
    [reporter.set], in order, and the reporter's progress holds the last of
    them as its message and the time it was decoded at as its timestamp (no
    message and the time of creation when there was none). *)
Theorem ImagesPull_decode_loop_three_exits :
  forall (env : pull_env) (refStr auth : string) (resp : body),
    encode_auth env = inr auth ->
    image_pull env = inr resp ->
    exists pre rest q,
      resp = pre ++ rest /\ Forall clean pre /\
      pull_sets (ImagesPull env refStr) = recorded pre /\
      pull_reporter (ImagesPull env refStr) = Some q /\
      p_progress q = latest (pull_started env) pre /\
      pull_tags (ImagesPull env refStr) = [] /\
      ( ((rest = [] \/ exists now tl, rest = (now, dec_err io_EOF) :: tl) /\
         pull_err (ImagesPull env refStr) = None)
        \/ (exists now e tl, rest = (now, dec_err e) :: tl /\ e <> io_EOF /\
            pull_err (ImagesPull env refStr) = Some e)
        \/ (exists now m code text tl, rest = (now, dec_msg m) :: tl /\
            Error m = Some (code, text) /\
            pull_err (ImagesPull env refStr) = Some (JSONError code text)) ).
Proof.
  intros env refStr auth resp Ha Hp.
  destruct (ImagesPull_returns_loop_result env refStr auth resp Ha Hp)
    as (Herr & Hsets & Htags).
  pose proof (ImagesPull_reporter env refStr auth resp Ha Hp) as Hrep.
  destruct (decode_loop_splits resp
              (progressReporter_start
                 (newProgressReporter refStr (10 * Second) (pull_started env))))
    as (pre & rest & Hsplit & Hclean & Hrec & Hall & Hexit).
  exists pre, rest. eexists.
  split; [exact Hsplit|]. split; [exact Hclean|].
  split; [rewrite Hsets; exact Hrec|].
  split; [exact Hrep|].
  split.
  - unfold progressReporter_stop; cbn [p_progress].
    rewrite Hall, (record_all_progress _ pre Hclean). unfold latest.
    destruct (rev pre) as [|[t [e|m]] l]; reflexivity.
  - split; [exact Htags|]. rewrite Herr. exact Hexit.
Qed.

(** The pull of [refused_pull]: both progress messages are recorded, the
    reporter holds the second with the time 2s, and the error of the third
    event is returned. *)
Lemma ImagesPull_decode_loop_three_exits_witness :
  pull_sets (ImagesPull refused_pull "quay.io/skupper/router")
  = [layer "Downloading"; layer "Extracting"] /\
  option_map p_progress
    (pull_reporter (ImagesPull refused_pull "quay.io/skupper/router"))
  = Some {| message := Some (layer "Extracting"); timestamp := 2 * Second |} /\
  pull_err (ImagesPull refused_pull "quay.io/skupper/router")
  = Some (JSONError 404 "manifest unknown") /\
  exists pre rest q,
    [(1 * Second, dec_msg (layer "Downloading"));
     (2 * Second, dec_msg (layer "Extracting"));
     (3 * Second, dec_msg refused)] = pre ++ rest /\
    Forall clean pre /\
    pull_sets (ImagesPull refused_pull "quay.io/skupper/router") = recorded pre /\
    pull_reporter (ImagesPull refused_pull "quay.io/skupper/router") = Some q /\
    p_progress q = latest 0 pre /\
    pull_tags (ImagesPull refused_pull "quay.io/skupper/router") = [] /\
    ( ((rest = [] \/ exists now tl, rest = (now, dec_err io_EOF) :: tl) /\
       pull_err (ImagesPull refused_pull "quay.io/skupper/router") = None)
      \/ (exists now e tl, rest = (now, dec_err e) :: tl /\ e <> io_EOF /\
          pull_err (ImagesPull refused_pull "quay.io/skupper/router") = Some e)
      \/ (exists now m code text tl, rest = (now, dec_msg m) :: tl /\
          Error m = Some (code, text) /\
          pull_err (ImagesPull refused_pull "quay.io/skupper/router")
          = Some (JSONError code text)) ).
Proof.
  split; [reflexivity|]. split; [reflexivity|]. split; [reflexivity|].
  apply (ImagesPull_decode_loop_three_exits refused_pull
           "quay.io/skupper/router" "e30K"
           [(1 * Second, dec_msg (layer "Downloading"));
            (2 * Second, dec_msg (layer "Extracting"));
            (3 * Second, dec_msg refused)]); reflexivity.
Defined.

End DecodeLoop.

Section Wait.
Import Go Docker.
Local Open Scope list_scope.

(** When the [select] takes the context's case, the deadline has passed. *)
Lemma select_ctx_Done ctx t0 interval last coin now t :
  select ctx t0 interval last coin now = (chose_ctx_Done, t) ->
  ctx_Done ctx t = true.
Proof.
  unfold select, ctx_Done.
  destruct (Z.leb_spec (ctx_deadline ctx) now);
    destruct (Z.leb_spec (next_fire t0 interval last) now).
  - destruct coin; intros [= <-]. apply Z.leb_le; lia.
  - intros [= <-]. apply Z.leb_le; lia.
  - intros [=].
  - destruct (Z.ltb_spec (next_fire t0 interval last) (ctx_deadline ctx));
      [intros [=]|].
    destruct (Z.ltb_spec (ctx_deadline ctx) (next_fire t0 interval last)).
    + intros [= <-]. apply Z.leb_le; lia.
    + destruct coin; intros [= <-]. apply Z.leb_le; lia.
Qed.

(** The closure never reports an error, and counts one inspect call. *)
Lemma wait_condition_no_error engine id status w :
  snd (fst (wait_condition engine id status w)) = None /\
  inspect_calls (snd (wait_condition engine id status w)) = S (inspect_calls w).
Proof.
  unfold wait_condition. destruct (engine id (inspect_calls w)) as [took [e|c]];
    simpl; auto.
Qed.

(** It says "done" exactly when the inspect succeeds with the status asked. *)
Lemma wait_condition_done engine id status w :
  fst (fst (wait_condition engine id status w)) = true <->
  exists c, snd (engine id (inspect_calls w)) = inr c /\ State_Status c = status.
Proof.
  unfold wait_condition. destruct (engine id (inspect_calls w)) as [took [e|c]];
    simpl.
  - split; [discriminate|]. intros (c & [=] & _).
  - rewrite String.eqb_eq. split.
    + intros H. exists c. auto.
    + intros (c' & [= <-] & H). exact H.
Qed.

(** What a finished loop reports, written on the engine's replies. *)
Lemma retry_loop_exits engine id status ctx t0 interval coins :
  forall fuel round last w r w',
    retry_loop fuel ctx t0 interval coins round last
      (wait_condition engine id status) w = Some (r, w') ->
    (inspect_calls w < inspect_calls w')%nat /\
    (forall k, (inspect_calls w <= k < pred (inspect_calls w'))%nat ->
               not_observed engine id status k) /\
    ( (r = None /\
       exists c, snd (engine id (pred (inspect_calls w'))) = inr c /\
                 State_Status c = status)
      \/ (r = Some context_DeadlineExceeded /\
          ctx_deadline ctx <= clock w' /\
          not_observed engine id status (pred (inspect_calls w'))) ).
Proof.
  induction fuel as [|fuel IH]; intros round last w r w'; simpl; [discriminate|].
  pose proof (wait_condition_no_error engine id status w) as [Herr Hcalls].
  pose proof (wait_condition_done engine id status w) as Hdone.
  destruct (wait_condition engine id status w) as [[ok err] w1].
  simpl in Herr, Hcalls, Hdone. subst err.
  destruct ok.
  - intros [= <- <-]. rewrite Hcalls. simpl. split; [lia|]. split; [intros; lia|].
    left. split; auto. apply Hdone. reflexivity.
  - assert (Hno : not_observed engine id status (inspect_calls w)).
    { intros c Hc Hs. assert (false = true); [|discriminate].
      apply Hdone. eauto. }
    destruct (select ctx t0 interval last (coins round) (clock w1))
      as [c t] eqn:Hsel.
    destruct c.
    + intros [= <- <-]. simpl. rewrite Hcalls. simpl.
      pose proof (select_ctx_Done _ _ _ _ _ _ _ Hsel) as Hd.
      split; [lia|]. split; [intros; lia|]. right.
      unfold ctx_Err. rewrite Hd. split; auto. split; auto.
      apply Z.leb_le. exact Hd.
    + intros Hloop. apply IH in Hloop. simpl in Hloop. rewrite Hcalls in Hloop.
      destruct Hloop as (Hlt & Hbefore & Hexit).
      split; [lia|]. split; auto.
      intros k Hk. destruct (Nat.eq_dec k (inspect_calls w)) as [->|Hne]; auto.
      apply Hbefore. lia.
Qed.

(** The same for the whole call. *)
Lemma ContainerWait_exits engine fuel coins now id status timeout interval r w' :
  ContainerWait engine fuel coins now id status timeout interval
    = Some (Returned r, w') ->
  (0 < inspect_calls w')%nat /\ var_err w' = r /\
  (forall k, (k < pred (inspect_calls w'))%nat -> not_observed engine id status k) /\
  ( (r = None /\
     exists c, snd (engine id (pred (inspect_calls w'))) = inr c /\
               State_Status c = status)
    \/ (r = Some context_DeadlineExceeded /\
        now + timeout <= clock w' /\
        not_observed engine id status (pred (inspect_calls w'))) ).
Proof.
  unfold ContainerWait, RetryWithContext.
  destruct (interval <=? 0); [discriminate|].
  destruct (retry_loop _ _ _ _ _ _ _ _ _) as [[r0 w0]|] eqn:Hloop; [|discriminate].
  intros [= <- <-]. simpl.
  apply retry_loop_exits in Hloop. simpl in Hloop.
  destruct Hloop as (Hlt & Hbefore & Hexit).
  split; [lia|]. split; [reflexivity|]. split.
  - intros k Hk. apply Hbefore. lia.
  - exact Hexit.
Qed.

(** A wait of 30s, polled every 5s, for a container that is running from the
    fourth inspect on: four inspects, the last one with the state asked. *)
Lemma ContainerWait_exits_witness :
  exists w',
    ContainerWait (starts_after 3) 20 (fun _ => true) 0
      "c1" "running" (30 * Second) (5 * Second) = Some (Returned None, w') /\
    inspect_calls w' = 4%nat /\
    (forall k, (k < 3)%nat -> not_observed (starts_after 3) "c1" "running" k).
Proof.
  eexists. split; [vm_compute; reflexivity|]. split; [reflexivity|].
  apply (ContainerWait_exits (starts_after 3) 20 (fun _ => true) 0
           "c1" "running" (30 * Second) (5 * Second) None
           {| clock := 15001000000; inspect_calls := 4; var_err := None |}).
  vm_compute. reflexivity.
Defined.

(** A tick is received no earlier than it fires. *)
Lemma select_tick ctx t0 interval last coin now t :
  select ctx t0 interval last coin now = (chose_tick, t) ->
  next_fire t0 interval last <= t.
Proof.
  unfold select.
  destruct (ctx_Done ctx now);
    destruct (Z.leb_spec (next_fire t0 interval last) now).
  - destruct coin; intros [= <-]. assumption.
  - intros [=].
  - intros [= <-]. assumption.
  - destruct (Z.ltb_spec (next_fire t0 interval last) (ctx_deadline ctx)).
    + intros [= <-]. lia.
    + destruct (Z.ltb_spec (ctx_deadline ctx) (next_fire t0 interval last)).
      * intros [=].
      * destruct coin; intros [= <-]. lia.
Qed.

(** The ticker's [k]-th tick does not fire before [t0 + k * interval]. *)
Lemma next_fire_lower t0 interval last k :
  0 < interval -> t0 + k * interval <= last ->
  t0 + (k + 1) * interval <= next_fire t0 interval last.
Proof.
  intros Hi Hl. unfold next_fire.
  assert (k <= (last - t0) / interval) by (apply Z.div_le_lower_bound; lia).
  nia.
Qed.

(** With the context done, a coin for the context settles the [select]. *)
Lemma select_done ctx t0 interval last now :
  ctx_Done ctx now = true ->
  select ctx t0 interval last true now = (chose_ctx_Done, now).
Proof.
  intros Hd. unfold select. rewrite Hd.
  destruct (next_fire t0 interval last <=? now); reflexivity.
Qed.

(** The loop ends: by the round [K] at which [K] intervals make up the time
    to the deadline and the runtime's choice falls on the context, at the
    latest.  (Each round uses up a tick of its own, and inspect calls take
    time, not give it.) *)
Lemma retry_loop_returns engine id status ctx t0 interval coins K :
  0 < interval ->
  (forall k, 0 <= fst (engine id k)) ->
  ctx_deadline ctx <= t0 + Z.of_nat K * interval ->
  coins K = true ->
  forall n round last w,
    (round + n = K)%nat ->
    t0 + Z.of_nat round * interval <= last -> last <= clock w ->
    exists r w',
      retry_loop (S n) ctx t0 interval coins round last
        (wait_condition engine id status) w = Some (r, w').
Proof.
  intros Hi Hlat Hdl Hcoin. induction n as [|n IH]; intros round last w Hk Hlast Hclk.
  - assert (round = K) by lia. subst round. simpl.
    unfold wait_condition. specialize (Hlat (inspect_calls w)).
    destruct (engine id (inspect_calls w)) as [took [e|c]]; simpl in *.
    + rewrite Hcoin, select_done by (apply Z.leb_le; lia). eauto.
    + destruct (String.eqb (State_Status c) status); [eauto|].
      rewrite Hcoin, select_done by (apply Z.leb_le; lia). eauto.
  - assert (Hgo : forall w1,
               last <= clock w1 ->
               exists r w',
                 (let '(c, t) := select ctx t0 interval last (coins round) (clock w1) in
                  match c with
                  | chose_ctx_Done => Some (ctx_Err ctx t, at_time w1 t)
                  | chose_tick =>
                      retry_loop (S n) ctx t0 interval coins (S round) t
                        (wait_condition engine id status) (at_time w1 t)
                  end) = Some (r, w')).
    { intros w1 Hw1.
      destruct (select ctx t0 interval last (coins round) (clock w1))
        as [c t] eqn:Hsel.
      destruct c; [eauto|].
      apply IH; [lia| |simpl; lia].
      pose proof (select_tick _ _ _ _ _ _ _ Hsel).
      pose proof (next_fire_lower t0 interval last (Z.of_nat round) Hi Hlast).
      lia. }
    cbn [retry_loop]. unfold wait_condition at 1.
    specialize (Hlat (inspect_calls w)).
    destruct (engine id (inspect_calls w)) as [took [e|c]]; simpl in Hlat.
    + apply Hgo. simpl. lia.
    + destruct (String.eqb (State_Status c) status); [eauto|].
      apply Hgo. simpl. lia.
Qed.

Lemma ContainerWait_returns engine coins now id status timeout interval K :
  0 < interval ->
  (forall k, 0 <= fst (engine id k)) ->
  timeout <= Z.of_nat K * interval ->
  coins K = true ->
  exists r w',
    ContainerWait engine (S K) coins now id status timeout interval
      = Some (Returned r, w').
Proof.
  intros Hi Hlat Hto Hcoin. unfold ContainerWait, RetryWithContext.
  destruct (Z.leb_spec interval 0); [lia|].
  destruct (retry_loop_returns engine id status
              (context_WithTimeout now timeout) now interval coins K
              Hi Hlat ltac:(simpl; lia) Hcoin K 0%nat now
              {| clock := now; inspect_calls := 0; var_err := None |}
              ltac:(lia) ltac:(simpl; lia) ltac:(simpl; lia)) as (r & w' & Hr).
  simpl clock. rewrite Hr. eauto.
Qed.

(** C4 (as the code has it).  On a container that is never seen in the
    target state, whatever errors its inspect calls give: the closure turns
    every poll into "not done, no error", so the polling goes on; a docker
    [ContainerWait] that returns returns the context's [DeadlineExceeded],
    not before the deadline, and its [err] variable ends as that result; and
    it does return, by the round at which the intervals cover the timeout
    and the runtime's choice between a pending tick and the done context
    falls on the context. *)
Theorem docker_wait_timeout_returns_deadline_exceeded :
  forall engine coins now id status timeout interval,
    (forall k, not_observed engine id status k) ->
    (forall w, fst (wait_condition engine id status w) = (false, None)) /\
    (forall fuel r w',
        ContainerWait engine fuel coins now id status timeout interval
          = Some (Returned r, w') ->
        r = Some context_DeadlineExceeded /\ var_err w' = r /\
        now + timeout <= clock w') /\
    (forall K,
        0 < interval -> (forall k, 0 <= fst (engine id k)) ->
        timeout <= Z.of_nat K * interval -> coins K = true ->
        exists w',
          ContainerWait engine (S K) coins now id status timeout interval
            = Some (Returned (Some context_DeadlineExceeded), w')).
Proof.
  intros engine coins now id status timeout interval Hnever.
  assert (Hsafe : forall fuel r w',
             ContainerWait engine fuel coins now id status timeout interval
               = Some (Returned r, w') ->
             r = Some context_DeadlineExceeded /\ var_err w' = r /\
             now + timeout <= clock w').
  { intros fuel r w' Hret.
    destruct (ContainerWait_exits _ _ _ _ _ _ _ _ _ _ Hret)
      as (Hpos & Hvar & _ & Hexit).
    destruct Hexit as [(-> & c & Hc & Hs)|(-> & Hdl & _)]; [|auto].
    exfalso. apply (Hnever (pred (inspect_calls w'))) with c; auto. }
  split; [|split; [exact Hsafe|]].
  - intros w. pose proof (wait_condition_no_error engine id status w) as [He _].
    pose proof (wait_condition_done engine id status w) as Hd.
    destruct (wait_condition engine id status w) as [[ok err] w1]. simpl in *.
    subst err. destruct ok; [|reflexivity].
    destruct Hd as [Hd _]. destruct (Hd eq_refl) as (c & Hc & Hs).
    destruct (Hnever _ c Hc Hs).
  - intros K Hi Hlat Hto Hcoin.
    destruct (ContainerWait_returns engine coins now id status timeout interval K
                Hi Hlat Hto Hcoin) as (r & w' & Hr).
    destruct (Hsafe _ _ _ Hr) as (-> & _). eauto.
Qed.

(** A wait of 30s, polled every 5s, for a container the engine does not know. *)
Lemma docker_wait_timeout_returns_deadline_exceeded_witness :
  (forall k, not_observed no_such_container "c1" "running" k) /\
  exists w',
    ContainerWait no_such_container 7 (fun _ => true) 0
      "c1" "running" (30 * Second) (5 * Second)
      = Some (Returned (Some context_DeadlineExceeded), w').
Proof.
  assert (Hnever : forall k, not_observed no_such_container "c1" "running" k)
    by (intros k c Hc; discriminate Hc).
  split; [exact Hnever|].
  destruct (docker_wait_timeout_returns_deadline_exceeded no_such_container
              (fun _ => true) 0 "c1" "running" (30 * Second) (5 * Second) Hnever)
    as (_ & _ & Hlive).
  apply (Hlive 6%nat).
  - reflexivity.
  - intros k. discriminate.
  - discriminate.
  - reflexivity.
Defined.

(** C4, as stated, fails: the wait above ends with [DeadlineExceeded], while
    the last (indeed every) inspect error was "No such container: c1". *)
Lemma docker_wait_does_not_surface_inspect_error :
  ~ surfaces_last_inspect_error.
Proof.
  intros H.
  specialize (H no_such_container 20%nat (fun _ => true) 0 "c1" "running"
                (30 * Second) (5 * Second)
                (Some context_DeadlineExceeded)
                {| clock := 30 * Second; inspect_calls := 6;
                   var_err := Some context_DeadlineExceeded |}).
  assert (Hrun : ContainerWait no_such_container 20 (fun _ => true) 0
                   "c1" "running" (30 * Second) (5 * Second)
                 = Some (Returned (Some context_DeadlineExceeded),
                         {| clock := 30 * Second; inspect_calls := 6;
                            var_err := Some context_DeadlineExceeded |}))
    by (vm_compute; reflexivity).
  specialize (H Hrun).
  assert (Hno : forall k, (k < 6)%nat -> not_observed no_such_container "c1" "running" k)
    by (intros k _ c Hc; discriminate Hc).
  specialize (H Hno). simpl in H.
  assert (Hsome : Some (errorString "No such container: c1") <> None) by discriminate.
  specialize (H Hsome). discriminate H.
Qed.

(** C1 at the podman driver.  Its [ContainerWait] hands the wait to the engine
    with the condition "running" and no deadline: asked to wait for "exited"
    on a container that is running and never exits it reports success; asked
    to wait 30s for "running" on a container that stays "created" it never
    returns; and in general neither the target state, nor the timeout, nor
    the interval has any effect on it. *)
Theorem podman_wait_ignores_target_and_timeout :
  Podman.ContainerWait
    (Podman.engine_of_timeline
       [Podman.ContainerStateCreated; Podman.ContainerStateRunning])
    "c1" "exited" (30 * Second) (5 * Second) = Some None /\
  Podman.ContainerWait
    (Podman.engine_of_timeline [Podman.ContainerStateCreated])
    "c1" "running" (30 * Second) (5 * Second) = None /\
  (forall engine id status status' timeout timeout' interval interval',
      Podman.ContainerWait engine id status timeout interval =
      Podman.ContainerWait engine id status' timeout' interval').
Proof.
  split; [reflexivity|]. split; [reflexivity|]. reflexivity.
Qed.

End Wait.

Section Traces.
Import Go.
Local Open Scope list_scope.

Lemma before_nil a b : before a b [].
Proof. intros l1 l2 H. destruct l1; discriminate H. Qed.

(** Events other than [b] can be added at will. *)
Lemma before_app_other a b tr evs :
  before a b tr -> ~ In b evs -> before a b (tr ++ evs).
Proof.
  intros Htr Hnot l1 l2 Heq.
  apply app_eq_app in Heq. destruct Heq as [l [[H1 H2]|[H1 H2]]].
  - destruct l as [|c l].
    + rewrite app_nil_r in H1. subst l1. simpl in H2.
      exfalso. apply Hnot. rewrite <- H2. left. reflexivity.
    + injection H2 as -> H2. apply (Htr l1 l). exact H1.
  - exfalso. apply Hnot. rewrite H2. apply in_or_app. right. left. reflexivity.
Qed.

(** Once [a] has happened, anything can follow. *)
Lemma before_app_in a b tr evs :
  before a b tr -> In a tr -> before a b (tr ++ evs).
Proof.
  intros Htr Hin l1 l2 Heq.
  apply app_eq_app in Heq. destruct Heq as [l [[H1 H2]|[H1 H2]]].
  - destruct l as [|c l].
    + rewrite app_nil_r in H1. subst l1. exact Hin.
    + injection H2 as -> H2. apply (Htr l1 l). exact H1.
  - rewrite H1. apply in_or_app. left. exact Hin.
Qed.

(** A signal and its receipt in one step. *)
Lemma before_app_pair a b tr :
  a <> b -> before a b tr -> before a b (tr ++ [a; b]).
Proof.
  intros Hab Htr.
  change [a; b] with ([a] ++ [b]). rewrite app_assoc.
  apply before_app_in.
  - apply before_app_other; [exact Htr|]. simpl. intuition congruence.
  - apply in_or_app. right. left. reflexivity.
Qed.

Lemma before_prefix a b tr evs :
  before a b (tr ++ evs) -> before a b tr.
Proof.
  intros H l1 l2 Heq. apply (H l1 (l2 ++ evs)).
  rewrite Heq, <- app_assoc. reflexivity.
Qed.

(** If no [b] has happened yet, nothing is asked. *)
Lemma before_absent a b tr : ~ In b tr -> before a b tr.
Proof.
  intros Hnot l1 l2 Heq. exfalso. apply Hnot. rewrite Heq.
  apply in_or_app. right. left. reflexivity.
Qed.

Lemma before_in a b tr : before a b tr -> In b tr -> In a tr.
Proof.
  intros Hb Hin. apply in_split in Hin. destruct Hin as (l1 & l2 & Heq).
  rewrite Heq. apply in_or_app. left. apply (Hb l1 l2 Heq).
Qed.

End Traces.

Section DockerExec.
Import Go.
Import Docker.Exec.
Local Open Scope list_scope.

Variable eng : engine.
Variable id : string.
Variable cmd : list string.

(** A property that holds at the start and that every step keeps holds
    whatever the schedule. *)
Lemma docker_exec_invariant (P : state -> Prop) :
  P init ->
  (forall t s, P s -> P (step eng id cmd t s)) ->
  forall sched, P (ContainerExec eng id cmd sched).
Proof.
  intros Hinit Hstep sched. unfold ContainerExec.
  generalize init Hinit. induction sched as [|t sched IH]; intros s Hs; simpl.
  - exact Hs.
  - apply IH. apply Hstep. exact Hs.
Qed.

Ltac before_tac :=
  match goal with
  | |- before _ _ (_ ++ _) =>
      first [ apply before_app_other;
              [assumption | simpl; intuition discriminate]
            | apply before_app_in; [assumption | solve [auto]] ]
  end.

(** Membership in a trace that has grown. *)
Ltac in_trace :=
  intros;
  first [ discriminate
        | apply in_or_app; left; solve [eauto]
        | apply in_or_app; right; simpl; solve [auto 6] ].

Lemma inv_order_step t s : inv_order s -> inv_order (step eng id cmd t s).
Proof.
  intros Hinv. pose proof Hinv as (Hsr & Hri & Hch & Hins). unfold step.
  destruct t.
  - unfold step_main. destruct (main s) eqn:Hm.
    + destruct (ContainerExecCreate eng id cmd);
        unfold inv_order; simpl; repeat split;
        first [before_tac | in_trace].
    + destruct (ContainerExecAttach eng execID);
        unfold inv_order; simpl; repeat split;
        first [before_tac | in_trace].
    + unfold inv_order; simpl.
      repeat split; first [before_tac | in_trace].
    + destruct (outputDone s) as [|v rest] eqn:Hq; [exact Hinv|].
      assert (Hsig : In ev_signal (trace s)) by (apply Hch; discriminate).
      destruct v; unfold inv_order; simpl;
        repeat split; first [before_tac | in_trace].
    + assert (Hrec : In ev_received (trace s)) by (apply (Hins execID); reflexivity).
      destruct (ContainerExecInspect eng execID);
        unfold inv_order; simpl; repeat split; first [before_tac | in_trace].
    + exact Hinv.
  - unfold step_drain. destruct (drain s) eqn:Hd; try exact Hinv.
    + destruct (StdCopy src (mem_outBuf s) (mem_errBuf s)) as [[out err] e].
      unfold inv_order; simpl.
      repeat split; first [before_tac | in_trace].
    + destruct (outputDone s) eqn:Hq; [|exact Hinv].
      unfold inv_order; simpl. repeat split; first [before_tac | in_trace].
Qed.

Lemma inv_order_reachable sched : inv_order (ContainerExec eng id cmd sched).
Proof.
  apply docker_exec_invariant.
  - unfold inv_order; simpl. repeat split; try apply before_nil.
    + intros H; contradiction H; reflexivity.
    + intros; discriminate.
  - apply inv_order_step.
Qed.

(** The receive of the [select] is the caller's only way on: with nothing in
    the channel it has no step, whatever time passes. *)
Lemma docker_select_blocks s x :
  main s = m_select x -> outputDone s = [] -> step_main eng id cmd s = None.
Proof. intros Hm Hq. unfold step_main. rewrite Hm, Hq. reflexivity. Qed.

(** The error of [StdCopy] is the stream's, whatever the buffers hold. *)
Lemma StdCopy_error src out err :
  snd (StdCopy src out err) = snd (StdCopy src "" "").
Proof. reflexivity. Qed.

Section Failing.

Variable x : string.
Variable src : stream.
Variable e : error.
Hypothesis Hcreate : ContainerExecCreate eng id cmd = inr x.
Hypothesis Hattach : ContainerExecAttach eng x = inr src.
Hypothesis Hcopy : snd (StdCopy src "" "") = Some e.

Ltac close_inv :=
  intros;
  first [ congruence
        | solve [rewrite in_app_iff; simpl; intuition discriminate]
        | solve [eauto]
        | solve [left; eauto]
        | solve [right; eauto] ].

Lemma inv_failing_step t s :
  inv_failing x src e s -> inv_failing x src e (step eng id cmd t s).
Proof.
  intros Hinv.
  pose proof Hinv as (Hat & Hgo & Hcp & Hsend & Hq & Hni & Htr & Hdr & Hret).
  assert (Hnone : (forall x', main s <> m_select x') ->
                  (forall r, main s <> m_returned r) -> drain s = g_none).
  { intros H1 H2. destruct (drain s) eqn:Hd; auto;
      (destruct (Hdr ltac:(discriminate)) as [[x' H]|[r H]];
       [destruct (H1 _ H)|destruct (H2 _ H)]). }
  unfold step. destruct t.
  - unfold step_main. destruct (main s) eqn:Hm.
    + rewrite Hcreate.
      specialize (Hnone ltac:(discriminate) ltac:(discriminate)).
      unfold inv_failing; simpl. repeat split; close_inv.
    + assert (execID = x) by (apply Hat; reflexivity). subst execID.
      rewrite Hattach.
      specialize (Hnone ltac:(discriminate) ltac:(discriminate)).
      unfold inv_failing; simpl. repeat split; close_inv.
    + assert (src0 = src) by (apply (Hgo execID); reflexivity). subst src0.
      unfold inv_failing; simpl. repeat split; close_inv.
    + destruct (outputDone s) as [|v rest] eqn:Hque; [exact Hinv|].
      assert (v = Some e) by (apply Hq; left; reflexivity). subst v.
      unfold inv_failing; simpl. repeat split; try close_inv.
      intros v Hv. apply Hq. right. exact Hv.
    + destruct (Hni execID). reflexivity.
    + exact Hinv.
  - unfold step_drain. destruct (drain s) eqn:Hd; try exact Hinv.
    + assert (src0 = src) by (apply Hcp; reflexivity). subst src0.
      pose proof (StdCopy_error src (mem_outBuf s) (mem_errBuf s)) as Herr.
      rewrite Hcopy in Herr.
      destruct (StdCopy src (mem_outBuf s) (mem_errBuf s)) as [[out err] e'].
      simpl in Herr. subst e'.
      unfold inv_failing; simpl. repeat split; try close_inv.
      intros _. apply Hdr. discriminate.
    + destruct (outputDone s) eqn:Hque; [|exact Hinv].
      unfold inv_failing; simpl. repeat split; try close_inv.
      * intros v [<-|[]]. apply Hsend. reflexivity.
      * intros _. apply Hdr. discriminate.
Qed.

Lemma inv_failing_reachable sched :
  inv_failing x src e (ContainerExec eng id cmd sched).
Proof.
  apply docker_exec_invariant.
  - unfold inv_failing; simpl. repeat split; try close_inv.
    intros v [].
  - apply inv_failing_step.
Qed.

End Failing.

End DockerExec.

Section PodmanExec.
Import Go.
Import Podman.Exec.
Local Open Scope list_scope.

Variable w : world.
Variable id : string.
Variable cmd : list string.

Lemma podman_exec_invariant (P : state -> Prop) :
  P init ->
  (forall t s, P s -> P (step w id cmd t s)) ->
  forall sched, P (ContainerExec w id cmd sched).
Proof.
  intros Hinit Hstep sched. unfold ContainerExec.
  generalize init Hinit. induction sched as [|t sched IH]; intros s Hs; simpl.
  - exact Hs.
  - apply IH. apply Hstep. exact Hs.
Qed.

Ltac before_tac :=
  match goal with
  | |- before ?a ?b (_ ++ [?a; ?b]) =>
      apply before_app_pair; [discriminate | assumption]
  | |- before _ _ (_ ++ _) =>
      first [ apply before_app_other;
              [assumption | simpl; intuition discriminate]
            | apply before_app_in; [assumption | solve [auto]] ]
  end.

Ltac close_inv :=
  intros;
  first [ before_tac
        | congruence
        | contradiction
        | solve [rewrite ?in_app_iff in *; simpl in *;
                 intuition (try discriminate; try congruence)]
        | solve [eauto]
        | solve [rewrite ?in_app_iff in *; simpl in *;
                 firstorder (try discriminate; try congruence)] ].

Ltac split_match :=
  repeat match goal with
  | |- context [match ?X with _ => _ end] =>
      lazymatch X with
      | context [match _ with _ => _ end] => fail
      | _ => destruct X eqn:?
      end
  end.

Lemma inv_order_step_p t s : inv_order s -> inv_order (step w id cmd t s).
Proof.
  intros Hinv.
  pose proof Hinv as (Hir & Hsr & Hins & Hbg & Hag & Hwt & Hret & Hres).
  unfold step. destruct t.
  - unfold step_main. destruct (main s) eqn:Hm; simpl in *.
    all: try exact Hinv.
    all: split_match.
    all: try exact Hinv.
    all: unfold inv_order, rendezvous; simpl; repeat split; close_inv.
  - unfold step_drain. destruct (drain s) eqn:Hd; try exact Hinv.
    all: destruct (main s) eqn:Hm; simpl in *.
    all: split_match.
    all: try exact Hinv.
    all: unfold inv_order, rendezvous; simpl; repeat split; close_inv.
Qed.

Lemma inv_order_init : inv_order init.
Proof.
  unfold inv_order; simpl. repeat split; try apply before_nil; close_inv.
Qed.

Ltac norm_hyps :=
  repeat match goal with
  | H : True -> _ |- _ => specialize (H I)
  | H : False -> _ |- _ => clear H
  | H : ?x = ?x -> _ |- _ => specialize (H eq_refl)
  | H : @eq main_pc _ _ -> _ |- _ => clear H
  | H : @eq drain_pc _ _ -> _ |- _ => clear H
  | H : forall a, @eq main_pc _ _ -> _ |- _ =>
      first [specialize (H _ eq_refl) | clear H]
  | H : forall a b, @eq main_pc _ _ -> _ |- _ =>
      first [specialize (H _ _ eq_refl) | clear H]
  | H : forall a, @eq (option _) _ _ -> _ |- _ =>
      first [specialize (H _ eq_refl) | clear H]
  | H : _ /\ _ |- _ => destruct H
  | H : exists _, _ |- _ => destruct H
  | H : inl _ = inl _ |- _ => injection H as H
  | H : inr _ = inr _ |- _ => injection H as H
  | H : Some _ = Some _ |- _ => injection H as H
  | H : (_, _) = (_, _) |- _ => injection H as ? ?
  end.

Ltac use_replies :=
  repeat match goal with
  | H : os_Stdout _ = _ |- _ => rewrite H in *; clear H
  | H : console_err _ = _ |- _ => rewrite H in *; clear H
  | H : ExecStartAndAttach _ _ = _ |- _ => rewrite H in *; clear H
  | H : ExecInspect _ _ = _ |- _ => rewrite H in *; clear H
  end.

Ltac finish :=
  intros; norm_hyps; subst; use_replies; simpl in *;
  first [ before_tac
        | congruence
        | contradiction
        | solve [rewrite ?in_app_iff in *; simpl in *;
                 intuition (try discriminate; try congruence)]
        | solve [eauto 6] ].

Lemma inv_files_step t s :
  inv_order s -> inv_files s -> inv_files (step w id cmd t s).
Proof.
  intros Hord Hinv.
  pose proof Hord as (Hir & Hsr & Hins & Hbg & Hag & Hwt & Hret & Hres).
  pose proof Hinv as (Herr & Hse & Hsaved & Hbegin & Hwait & Hrt & Hwc & Hre & Hwf).
  unfold step. destruct t.
  - unfold step_main. destruct (main s) eqn:Hm; simpl in *.
    all: try exact Hinv.
    all: split_match.
    all: try exact Hinv.
    all: clear Hinv Hord; norm_hyps.
    all: unfold inv_files, rendezvous, well_formed in *; simpl in *;
      repeat split; finish.
  - unfold step_drain. destruct (drain s) eqn:Hd; try exact Hinv.
    all: destruct (main s) eqn:Hm; simpl in *.
    all: split_match.
    all: try exact Hinv.
    all: clear Hinv Hord; norm_hyps.
    all: unfold inv_files, rendezvous, well_formed in *; simpl in *;
      rewrite ?Hm; simpl; repeat split; finish.
Qed.

Lemma inv_files_init : inv_files init.
Proof.
  unfold inv_files, well_formed; simpl. repeat split; finish.
Qed.

(** The two hold in every state a call can reach. *)
Lemma podman_exec_reachable sched :
  inv_order (ContainerExec w id cmd sched) /\
  inv_files (ContainerExec w id cmd sched).
Proof.
  apply podman_exec_invariant with (P := fun s => inv_order s /\ inv_files s).
  - split; [apply inv_order_init | apply inv_files_init].
  - intros t s [Ho Hf]. split.
    + apply inv_order_step_p; assumption.
    + apply inv_files_step; assumption.
Qed.

Section Session.

Variable x : string.
Hypothesis Hcreate : ExecCreate w id cmd = inr x.

Lemma inv_session_step t s :
  inv_files s -> inv_session w x s -> inv_session w x (step w id cmd t s).
Proof.
  intros Hfiles Hinv.
  pose proof Hfiles as (Herr & Hse & Hsaved & Hbegin & Hwait & Hrt & Hwc & Hre & Hwf).
  pose proof Hinv as (Hx & Hbs & Has & Hst & Hck & Hpr).
  unfold step. destruct t.
  - unfold step_main. destruct (main s) eqn:Hm; simpl in *.
    all: try exact Hinv.
    all: rewrite ?Hcreate, ?Hse.
    all: clear Hinv Hfiles; norm_hyps; subst.
    all: split_match.
    all: try (unfold inv_session; rewrite Hm; simpl; repeat split; finish).
    all: unfold inv_session, rendezvous in *; simpl in *; repeat split; try finish.
  - unfold step_drain. destruct (drain s) eqn:Hd; try exact Hinv.
    all: destruct (main s) eqn:Hm; simpl in *.
    all: split_match.
    all: try exact Hinv.
    all: clear Hinv Hfiles; norm_hyps.
    all: unfold inv_session, rendezvous in *; simpl in *;
      rewrite ?Hm; simpl; repeat split; try finish.
Qed.

Lemma inv_session_init : inv_session w x init.
Proof. unfold inv_session; simpl. repeat split; finish. Qed.

Hypothesis Hstart : snd (ExecStartAndAttach w x) = None.

Ltac old_trace Hcar :=
  match goal with
  | |- copy_after_result (trace ?s) =>
      intros e0; first [exact (Hcar e0) | exact (before_prefix _ _ _ _ (Hcar e0))]
  end.

Lemma inv_swallow_step t s :
  inv_swallow w x s -> inv_swallow w x (step w id cmd t s).
Proof.
  intros Hinv. unfold step. destruct t.
  - unfold step_main. destruct (main s) eqn:Hm; simpl.
    all: try exact Hinv.
    all: rewrite ?Hcreate.
    all: split_match.
    all: try exact Hinv.
    all: unfold inv_swallow, rendezvous in *; simpl; intros Hcar.
    all: assert (Hold : copy_after_result (trace s)) by old_trace Hcar.
    all: specialize (Hinv Hold); destruct Hinv as (Hx & Hnr & Hck & Hre & Hpr).
    all: rewrite Hm in *; simpl in *; norm_hyps; subst.
    all: repeat split; try finish.
    all: destruct (ExecInspect w x) eqn:Hins; simpl in *; try finish.
  - unfold step_drain. destruct (drain s) eqn:Hd; try exact Hinv.
    all: destruct (main s) eqn:Hm; simpl.
    all: split_match.
    all: try exact Hinv.
    all: unfold inv_swallow, rendezvous in *; simpl; intros Hcar.
    all: assert (Hold : copy_after_result (trace s)) by old_trace Hcar.
    all: specialize (Hinv Hold); destruct Hinv as (Hx & Hnr & Hck & Hre & Hpr).
    all: try match goal with
         | Hc : copy_after_result (?tr ++ [ev_copied ?e]) |- _ =>
             pose proof (Hc e tr [] eq_refl)
         end.
    all: rewrite Hm in *; simpl in *; norm_hyps; subst.
    all: repeat split; try finish.
Qed.

Lemma inv_swallow_init : inv_swallow w x init.
Proof. unfold inv_swallow; simpl. intros _. repeat split; finish. Qed.

Lemma inv_session_reachable sched :
  inv_session w x (ContainerExec w id cmd sched).
Proof.
  assert (H : inv_order (ContainerExec w id cmd sched) /\
              inv_files (ContainerExec w id cmd sched) /\
              inv_session w x (ContainerExec w id cmd sched)); [|apply H].
  apply podman_exec_invariant
    with (P := fun s => inv_order s /\ inv_files s /\ inv_session w x s).
  - split; [apply inv_order_init|]. split; [apply inv_files_init|].
    apply inv_session_init.
  - intros t s (Ho & Hf & Hs). split; [apply inv_order_step_p; assumption|].
    split; [apply inv_files_step; assumption|].
    apply inv_session_step; assumption.
Qed.

Lemma inv_swallow_reachable sched :
  inv_swallow w x (ContainerExec w id cmd sched).
Proof.
  apply podman_exec_invariant.
  - apply inv_swallow_init.
  - apply inv_swallow_step.
Qed.

End Session.

Section NoSession.

Variable e : error.
Hypothesis Hcreate : ExecCreate w id cmd = inl e.

Lemma inv_no_session_step t s :
  inv_no_session e s -> inv_no_session e (step w id cmd t s).
Proof.
  intros Hinv. pose proof Hinv as (Hd & Hgo & [Hm|[[f Hm]|Hm]]).
  all: unfold step; destruct t.
  all: unfold step_main, step_drain; rewrite ?Hm, ?Hd, ?Hcreate; simpl.
  all: try exact Hinv.
  all: unfold inv_no_session; simpl; repeat split; try finish.
  all: rewrite ?in_app_iff; simpl; intuition (try discriminate; eauto).
Qed.

Lemma inv_no_session_reachable sched :
  inv_no_session e (ContainerExec w id cmd sched).
Proof.
  apply podman_exec_invariant.
  - unfold inv_no_session; simpl. repeat split; auto.
  - apply inv_no_session_step.
Qed.

End NoSession.

(** A call that has returned leaves a state that no step changes, if it has
    started no drain. *)
Lemma podman_returned_final sched : forall s r,
  main s = p_returned r -> drain s = g_none ->
  fold_left (fun s t => step w id cmd t s) sched s = s.
Proof.
  induction sched as [|t sched IH]; intros s r Hm Hd; simpl; [reflexivity|].
  assert (Hs : step w id cmd t s = s).
  { unfold step, step_main, step_drain. destruct t; rewrite ?Hm, ?Hd; reflexivity. }
  rewrite Hs. apply (IH s r); assumption.
Qed.

End PodmanExec.

Section ExecClaims.
Import Go.
Local Open Scope list_scope.

Lemma before_trans a b c tr :
  before a b tr -> before b c tr -> before a c tr.
Proof.
  intros Hab Hbc l1 l2 Heq.
  pose proof (Hbc l1 l2 Heq) as Hb.
  apply in_split in Hb. destruct Hb as (l1a & l1b & ->).
  apply in_or_app. left. apply (Hab l1a (l1b ++ c :: l2)).
  rewrite Heq, <- app_assoc. reflexivity.
Qed.

(** The podman caller has no step while it waits for the drain. *)
Lemma podman_wait_blocks w id cmd s r :
  Podman.Exec.main s = Podman.Exec.p_wait r ->
  Podman.Exec.drain s <> Podman.Exec.g_send ->
  Podman.Exec.step_main w id cmd s = None.
Proof.
  intros Hm Hd. unfold Podman.Exec.step_main. rewrite Hm.
  destruct (Podman.Exec.drain s); congruence.
Qed.

(** C2 (as the code has it).  In the docker driver the exit code is asked for
    only after the caller has received the drain's completion signal, which
    the drain has sent before; the receive is the caller's only way on.  In
    the podman driver the order is the other way round: the completion signal
    is received (in the deferred function) only after the exit code was asked
    for, and a call that started the drain returns only after it has received
    the signal; there too the receive has no alternative. *)
Theorem exec_signal_and_inspect_order :
  (forall eng id cmd sched,
      let s := Docker.Exec.ContainerExec eng id cmd sched in
      before ev_signal ev_received (Docker.Exec.trace s) /\
      before ev_received ev_ExecInspect (Docker.Exec.trace s) /\
      before ev_signal ev_ExecInspect (Docker.Exec.trace s)) /\
  (forall eng id cmd s x,
      Docker.Exec.main s = Docker.Exec.m_select x ->
      Docker.Exec.outputDone s = [] ->
      Docker.Exec.step_main eng id cmd s = None) /\
  (forall w id cmd sched,
      let s := Podman.Exec.ContainerExec w id cmd sched in
      before ev_ExecInspect ev_received (Podman.Exec.trace s) /\
      before ev_signal ev_received (Podman.Exec.trace s) /\
      (forall r, Podman.Exec.returned s = Some r ->
                 In ev_go (Podman.Exec.trace s) ->
                 In ev_received (Podman.Exec.trace s))) /\
  (forall w id cmd s r,
      Podman.Exec.main s = Podman.Exec.p_wait r ->
      Podman.Exec.drain s <> Podman.Exec.g_send ->
      Podman.Exec.step_main w id cmd s = None).
Proof.
  split; [|split; [|split]].
  - intros eng id cmd sched s.
    destruct (inv_order_reachable eng id cmd sched) as (Hsr & Hri & _).
    repeat split; auto. apply before_trans with ev_received; assumption.
  - intros eng id cmd s x. apply docker_select_blocks.
  - intros w id cmd sched s.
    destruct (podman_exec_reachable w id cmd sched) as [Ho _].
    destruct Ho as (Hir & Hsr & _ & _ & _ & _ & Hret & _).
    repeat split; auto.
    intros r Hr Hgo. unfold Podman.Exec.returned in Hr. fold s in Hret.
    destruct (Podman.Exec.main s) eqn:Hm; try discriminate.
    destruct (Hret _ eq_refl Hgo). assumption.
  - intros w id cmd s r. apply podman_wait_blocks.
Qed.

(** Both drivers on a session that prints "hello": docker asks for the exit
    code after the signal, podman before it. *)
Lemma exec_signal_and_inspect_order_witness :
  before ev_signal ev_ExecInspect
    (Docker.Exec.trace
       (Docker.Exec.ContainerExec Docker.Exec.sound_stream "c1" ["echo"; "hello"]
          Docker.Exec.fair)) /\
  before ev_ExecInspect ev_received
    (Podman.Exec.trace
       (Podman.Exec.ContainerExec Podman.Exec.hello "c1" ["echo"; "hello"]
          Podman.Exec.alternate)) /\
  In ev_received
    (Podman.Exec.trace
       (Podman.Exec.ContainerExec Podman.Exec.hello "c1" ["echo"; "hello"]
          Podman.Exec.alternate)).
Proof.
  destruct exec_signal_and_inspect_order as (Hd & _ & Hp & _).
  pose proof (Hd Docker.Exec.sound_stream "c1" ["echo"; "hello"] Docker.Exec.fair)
    as (_ & _ & Hdocker).
  pose proof (Hp Podman.Exec.hello "c1" ["echo"; "hello"] Podman.Exec.alternate)
    as (Hpodman & _ & Hret).
  split; [exact Hdocker|]. split; [exact Hpodman|].
  apply (Hret ({| Driver.ExitCode := 0;
                  Driver.OutBuffer := Some Podman.Exec.outBuf;
                  Driver.ErrBuffer := Some Podman.Exec.errBuf |}, None)).
  - vm_compute. reflexivity.
  - vm_compute. tauto.
Defined.

(** C2, as stated, fails for the podman driver: with the two goroutines
    taking turns on a session that prints "hello", the exit code is asked for
    as the fourth event, the completion signal is sent as the last but one. *)
Lemma podman_exec_inspects_before_signal :
  ~ Podman.Exec.inspect_after_signal.
Proof.
  intros H.
  specialize (H Podman.Exec.hello "c1" ["echo"; "hello"] Podman.Exec.alternate
                [ev_ExecCreate; ev_ExecStart; ev_go]
                [ev_checked; ev_result; ev_copied None; ev_restored;
                 ev_signal; ev_received]).
  assert (Htr : Podman.Exec.trace
                  (Podman.Exec.ContainerExec Podman.Exec.hello "c1"
                     ["echo"; "hello"] Podman.Exec.alternate)
                = [ev_ExecCreate; ev_ExecStart; ev_go] ++
                  ev_ExecInspect ::
                  [ev_checked; ev_result; ev_copied None; ev_restored;
                   ev_signal; ev_received])
    by (vm_compute; reflexivity).
  specialize (H Htr). simpl in H.
  destruct H as [H|[H|[H|[]]]]; discriminate H.
Qed.

(** C3 at its failing inputs.  When the exec-create request fails, and when
    the start of the session fails, the podman [ContainerExec] returns the
    error with [os.Stdout] still set to the write end of its pipe: the
    function that restores it is deferred only after both returns.  (A call
    starts with [os.Stdout] as the process had it.) *)
Theorem podman_exec_leaves_stdout_redirected :
  (forall sched,
      let s := Podman.Exec.ContainerExec Podman.Exec.no_container
                 "c1" ["qdstat"; "-g"] (Main :: Main :: sched) in
      Podman.Exec.returned s
        = Some (Driver.ExecResult_zero, Some (errorString "no such container")) /\
      Podman.Exec.os_Stdout s = Podman.Exec.pipe_w) /\
  (forall sched,
      let s := Podman.Exec.ContainerExec Podman.Exec.no_start
                 "c1" ["qdstat"; "-g"] (Main :: Main :: Main :: sched) in
      Podman.Exec.returned s
        = Some (Driver.ExecResult_zero, Some (errorString "exec start failed")) /\
      Podman.Exec.os_Stdout s = Podman.Exec.pipe_w) /\
  Podman.Exec.os_Stdout Podman.Exec.init = Podman.Exec.std_out.
Proof.
  split; [|split; [|reflexivity]].
  - intros sched s. subst s. unfold Podman.Exec.ContainerExec.
    change (Main :: Main :: sched) with ([Main; Main] ++ sched).
    rewrite fold_left_app.
    set (s2 := fold_left _ [Main; Main] Podman.Exec.init).
    assert (Hm : Podman.Exec.main s2
                 = Podman.Exec.p_returned
                     (Driver.ExecResult_zero, Some (errorString "no such container")))
      by (vm_compute; reflexivity).
    assert (Hd : Podman.Exec.drain s2 = Podman.Exec.g_none)
      by (vm_compute; reflexivity).
    assert (Ho : Podman.Exec.os_Stdout s2 = Podman.Exec.pipe_w)
      by (vm_compute; reflexivity).
    rewrite (podman_returned_final _ _ _ sched s2 _ Hm Hd).
    unfold Podman.Exec.returned. rewrite Hm, Ho. split; reflexivity.
  - intros sched s. subst s. unfold Podman.Exec.ContainerExec.
    change (Main :: Main :: Main :: sched) with ([Main; Main; Main] ++ sched).
    rewrite fold_left_app.
    set (s3 := fold_left _ [Main; Main; Main] Podman.Exec.init).
    assert (Hm : Podman.Exec.main s3
                 = Podman.Exec.p_returned
                     (Driver.ExecResult_zero, Some (errorString "exec start failed")))
      by (vm_compute; reflexivity).
    assert (Hd : Podman.Exec.drain s3 = Podman.Exec.g_none)
      by (vm_compute; reflexivity).
    assert (Ho : Podman.Exec.os_Stdout s3 = Podman.Exec.pipe_w)
      by (vm_compute; reflexivity).
    rewrite (podman_returned_final _ _ _ sched s3 _ Hm Hd).
    unfold Podman.Exec.returned. rewrite Hm, Ho. split; reflexivity.
Qed.

(** When a podman call has returned, [os.Stdout] is back at the process's
    standard output exactly if the call had got as far as starting the
    drain. *)
Lemma podman_exec_stdout_restored_iff w id cmd sched r :
  Podman.Exec.returned (Podman.Exec.ContainerExec w id cmd sched) = Some r ->
  (Podman.Exec.os_Stdout (Podman.Exec.ContainerExec w id cmd sched)
     = Podman.Exec.std_out
   <-> In ev_go (Podman.Exec.trace (Podman.Exec.ContainerExec w id cmd sched))).
Proof.
  intros Hr. destruct (podman_exec_reachable w id cmd sched) as [_ Hf].
  destruct Hf as (_ & _ & _ & _ & _ & Hrt & _).
  unfold Podman.Exec.returned in Hr.
  destruct (Podman.Exec.main _) eqn:Hm; try discriminate.
  destruct (Hrt _ eq_refl) as [Hyes Hno]. split; [|exact Hyes].
  intros Hout.
  destruct (in_dec exec_event_eq_dec
              ev_go (Podman.Exec.trace (Podman.Exec.ContainerExec w id cmd sched)))
    as [Hin|Hnin]; [exact Hin|].
  rewrite (Hno Hnin) in Hout. discriminate Hout.
Qed.

(** A session that prints "hello": the drain was started, and [os.Stdout] is
    back at the process's standard output. *)
Lemma podman_exec_stdout_restored_iff_witness :
  Podman.Exec.os_Stdout
    (Podman.Exec.ContainerExec Podman.Exec.hello "c1" ["echo"; "hello"]
       Podman.Exec.alternate) = Podman.Exec.std_out.
Proof.
  apply (podman_exec_stdout_restored_iff Podman.Exec.hello "c1" ["echo"; "hello"]
           Podman.Exec.alternate
           ({| Driver.ExitCode := 0;
               Driver.OutBuffer := Some Podman.Exec.outBuf;
               Driver.ErrBuffer := Some Podman.Exec.errBuf |}, None)).
  - vm_compute. reflexivity.
  - vm_compute. tauto.
Defined.

(** Under the schedule [fair] every docker call returns. *)
Lemma docker_exec_fair_returns eng id cmd :
  exists r,
    Docker.Exec.returned (Docker.Exec.ContainerExec eng id cmd Docker.Exec.fair)
      = Some r.
Proof.
  unfold Docker.Exec.ContainerExec, Docker.Exec.fair. cbn [fold_left].
  repeat match goal with
  | |- context [Docker.Exec.step ?e ?i ?c ?t ?s] =>
      lazymatch s with
      | context [Docker.Exec.step] => fail
      | _ =>
          let s' := fresh "s" in
          let H := fresh "H" in
          remember (Docker.Exec.step e i c t s) as s' eqn:H;
          unfold Docker.Exec.step, Docker.Exec.step_main, Docker.Exec.step_drain in H;
          simpl in H;
          repeat match type of H with
          | context [match ?X with _ => _ end] =>
              lazymatch X with
              | context [match _ with _ => _ end] => fail
              | _ => destruct X eqn:?
              end
          end;
          simpl in H; subst s'
      end
  end.
  all: unfold Docker.Exec.returned; simpl; eauto.
Qed.

(** C5 (as the code has it).  Docker: when the copy of the attached stream
    fails, [ContainerExec] returns that error with an empty result and never
    asks for the exit code (and it does return, once both goroutines have had
    their steps).  Podman: the error of the drain's copy is only stored in the
    local [err]; when the copy returns after the caller has evaluated its
    return values, the call returns exactly what the exit-code query gave. *)
Theorem exec_drain_error_docker_returns_podman_drops :
  (forall eng id cmd sched x src e r,
      Docker.Exec.ContainerExecCreate eng id cmd = inr x ->
      Docker.Exec.ContainerExecAttach eng x = inr src ->
      snd (Docker.Exec.StdCopy src "" "") = Some e ->
      Docker.Exec.returned (Docker.Exec.ContainerExec eng id cmd sched) = Some r ->
      r = (Driver.ExecResult_zero, Some e) /\
      ~ In ev_ExecInspect
           (Docker.Exec.trace (Docker.Exec.ContainerExec eng id cmd sched))) /\
  (forall eng id cmd x src e,
      Docker.Exec.ContainerExecCreate eng id cmd = inr x ->
      Docker.Exec.ContainerExecAttach eng x = inr src ->
      snd (Docker.Exec.StdCopy src "" "") = Some e ->
      Docker.Exec.returned (Docker.Exec.ContainerExec eng id cmd Docker.Exec.fair)
        = Some (Driver.ExecResult_zero, Some e)) /\
  (forall w id cmd sched x r,
      Podman.Exec.ExecCreate w id cmd = inr x ->
      snd (Podman.Exec.ExecStartAndAttach w x) = None ->
      Podman.Exec.returned (Podman.Exec.ContainerExec w id cmd sched) = Some r ->
      Podman.Exec.copy_after_result
        (Podman.Exec.trace (Podman.Exec.ContainerExec w id cmd sched)) ->
      r = Podman.Exec.result_of_inspect (Podman.Exec.ExecInspect w x)).
Proof.
  assert (Hdocker : forall eng id cmd sched x src e r,
      Docker.Exec.ContainerExecCreate eng id cmd = inr x ->
      Docker.Exec.ContainerExecAttach eng x = inr src ->
      snd (Docker.Exec.StdCopy src "" "") = Some e ->
      Docker.Exec.returned (Docker.Exec.ContainerExec eng id cmd sched) = Some r ->
      r = (Driver.ExecResult_zero, Some e) /\
      ~ In ev_ExecInspect
           (Docker.Exec.trace (Docker.Exec.ContainerExec eng id cmd sched))).
  { intros eng id cmd sched x src e r Hc Ha He Hr.
    destruct (inv_failing_reachable eng id cmd x src e Hc Ha He sched)
      as (_ & _ & _ & _ & _ & _ & Hni & _ & Hret).
    split; [|exact Hni].
    unfold Docker.Exec.returned in Hr.
    destruct (Docker.Exec.main _) eqn:Hm; try discriminate.
    injection Hr as <-. apply Hret. reflexivity. }
  split; [exact Hdocker|]. split.
  - intros eng id cmd x src e Hc Ha He.
    destruct (docker_exec_fair_returns eng id cmd) as [r Hr].
    destruct (Hdocker _ _ _ _ _ _ _ _ Hc Ha He Hr) as [-> _]. exact Hr.
  - intros w id cmd sched x r Hc Hs Hr Hcar.
    destruct (inv_swallow_reachable w id cmd x Hc Hs sched Hcar)
      as (_ & _ & _ & _ & Hpr).
    unfold Podman.Exec.returned in Hr.
    destruct (Podman.Exec.main _) eqn:Hm; try discriminate.
    injection Hr as <-. apply Hpr. reflexivity.
Qed.

(** A docker stream that breaks after "hello", and a podman pipe whose read
    fails once the caller waits for the drain. *)
Lemma exec_drain_error_docker_returns_podman_drops_witness :
  Docker.Exec.returned
    (Docker.Exec.ContainerExec Docker.Exec.broken_stream "c1" ["echo"; "hello"]
       Docker.Exec.fair)
    = Some (Driver.ExecResult_zero, Some (errorString "connection reset")) /\
  In (ev_copied (Some (errorString "input/output error")))
     (Podman.Exec.trace
        (Podman.Exec.ContainerExec Podman.Exec.hello_read_fails "c1"
           ["echo"; "hello"] Podman.Exec.caller_first)) /\
  Podman.Exec.returned
    (Podman.Exec.ContainerExec Podman.Exec.hello_read_fails "c1"
       ["echo"; "hello"] Podman.Exec.caller_first)
    = Some (Podman.Exec.result_of_inspect (inr 0)).
Proof.
  destruct exec_drain_error_docker_returns_podman_drops as (_ & Hd & Hp).
  split; [|split].
  - apply (Hd Docker.Exec.broken_stream "c1" ["echo"; "hello"] "e1"
              {| Docker.Exec.frames :=
                   [Docker.Exec.frame_stdout "hel"; Docker.Exec.frame_stderr "warn";
                    Docker.Exec.frame_stdout "lo"];
                 Docker.Exec.read_error := Some (errorString "connection reset") |}
              (errorString "connection reset") eq_refl eq_refl eq_refl).
  - vm_compute. tauto.
  - destruct (Podman.Exec.returned _) as [r|] eqn:Hr; [|vm_compute in Hr; discriminate Hr].
    rewrite (Hp Podman.Exec.hello_read_fails "c1" ["echo"; "hello"]
               Podman.Exec.caller_first "e1" r eq_refl eq_refl Hr).
    + reflexivity.
    + assert (Htr : Podman.Exec.trace
                      (Podman.Exec.ContainerExec Podman.Exec.hello_read_fails "c1"
                         ["echo"; "hello"] Podman.Exec.caller_first)
                    = [ev_ExecCreate; ev_ExecStart; ev_go; ev_ExecInspect;
                       ev_checked; ev_result] ++
                      [ev_restored;
                       ev_copied (Some (errorString "input/output error"));
                       ev_signal; ev_received])
        by (vm_compute; reflexivity).
      rewrite Htr. intros e. apply before_app_in.
      * apply before_absent. simpl. intuition discriminate.
      * simpl. tauto.
Defined.

(** C5, as stated, fails for the docker driver: with a stream that breaks, the
    call returns the drain's error and an empty result, not the exit code 0
    that the exit-code query would have given. *)
Lemma docker_exec_surfaces_drain_error :
  ~ Docker.Exec.swallows_drain_error.
Proof.
  intros H.
  specialize (H Docker.Exec.broken_stream "c1" ["echo"; "hello"] Docker.Exec.fair
                "e1"
                {| Docker.Exec.frames :=
                     [Docker.Exec.frame_stdout "hel"; Docker.Exec.frame_stderr "warn";
                      Docker.Exec.frame_stdout "lo"];
                   Docker.Exec.read_error := Some (errorString "connection reset") |}
                (errorString "connection reset")
                (Driver.ExecResult_zero, Some (errorString "connection reset"))
                eq_refl eq_refl eq_refl eq_refl).
  discriminate H.
Qed.

(** C10.  Whenever the podman [ContainerExec] returns a nil error, the
    result's error buffer is a non-nil pointer to the local [errBuf], and that
    buffer is empty (it is empty at every moment of every call): what the
    session wrote to its standard error has gone to the process's own
    standard error. *)
Theorem podman_exec_error_buffer_is_empty :
  forall w id cmd sched res,
    Podman.Exec.returned (Podman.Exec.ContainerExec w id cmd sched)
      = Some (res, None) ->
    let s := Podman.Exec.ContainerExec w id cmd sched in
    Driver.ErrBuffer res = Some Podman.Exec.errBuf /\
    Podman.Exec.load s Podman.Exec.errBuf = "" /\
    (forall sched',
        Podman.Exec.load (Podman.Exec.ContainerExec w id cmd sched')
          Podman.Exec.errBuf = "") /\
    exists x,
      Podman.Exec.ExecCreate w id cmd = inr x /\
      Podman.Exec.console_err s
        = snd (fst (Podman.Exec.ExecStartAndAttach w x)).
Proof.
  intros w id cmd sched res Hr s.
  assert (Hempty : forall sched',
             Podman.Exec.load (Podman.Exec.ContainerExec w id cmd sched')
               Podman.Exec.errBuf = "").
  { intros sched'. destruct (podman_exec_reachable w id cmd sched') as [_ Hf].
    apply Hf. }
  destruct (podman_exec_reachable w id cmd sched) as [_ Hf].
  destruct Hf as (_ & _ & _ & _ & _ & _ & _ & _ & Hwf).
  unfold Podman.Exec.returned in Hr. fold s in Hr, Hwf.
  destruct (Podman.Exec.main s) eqn:Hm; try discriminate.
  injection Hr as ->.
  split; [apply (Hwf _ eq_refl eq_refl)|].
  split; [apply Hempty|]. split; [exact Hempty|].
  destruct (Podman.Exec.ExecCreate w id cmd) as [e|x] eqn:Hc.
  - exfalso.
    destruct (inv_no_session_reachable w id cmd e Hc sched)
      as (_ & _ & [H|[[f H]|H]]); fold s in H; rewrite Hm in H; discriminate H.
  - exists x. split; [reflexivity|].
    destruct (inv_session_reachable w id cmd x Hc sched) as (_ & _ & Has & _).
    fold s in Has. apply Has. rewrite Hm. simpl. tauto.
Qed.

(** A session that prints "hello" and, to its standard error, "warn". *)
Lemma podman_exec_error_buffer_is_empty_witness :
  let s := Podman.Exec.ContainerExec Podman.Exec.hello "c1" ["echo"; "hello"]
             Podman.Exec.alternate in
  exists res,
    Podman.Exec.returned s = Some (res, None) /\
    Driver.ErrBuffer res = Some Podman.Exec.errBuf /\
    Podman.Exec.load s Podman.Exec.errBuf = "" /\
    Podman.Exec.console_err s = "warn".
Proof.
  intros s.
  exists {| Driver.ExitCode := 0;
            Driver.OutBuffer := Some Podman.Exec.outBuf;
            Driver.ErrBuffer := Some Podman.Exec.errBuf |}.
  assert (Hr : Podman.Exec.returned s
               = Some ({| Driver.ExitCode := 0;
                          Driver.OutBuffer := Some Podman.Exec.outBuf;
                          Driver.ErrBuffer := Some Podman.Exec.errBuf |}, None))
    by (vm_compute; reflexivity).
  split; [exact Hr|].
  destruct (podman_exec_error_buffer_is_empty Podman.Exec.hello "c1"
              ["echo"; "hello"] Podman.Exec.alternate _ Hr)
    as (Hptr & Hemp & _ & x & Hx & Hcon).
  split; [exact Hptr|]. split; [exact Hemp|].
  injection Hx as <-. exact Hcon.
Defined.

End ExecClaims.

Section Command.
Import Go.
Local Open Scope list_scope.

Variable W : Type.
Variable h : Cmd.host W.

Lemma grows_ret A (a : A) : Cmd.grows W (Cmd.ret W a).
Proof. intros p. exists []. simpl. rewrite app_nil_r. reflexivity. Qed.

Lemma grows_Println args : Cmd.grows W (Cmd.Println W args).
Proof. intros p. exists []. simpl. rewrite app_nil_r. reflexivity. Qed.

Lemma grows_Exit A status : Cmd.grows W (@Cmd.Exit W A status).
Proof. intros p. exists []. simpl. rewrite app_nil_r. reflexivity. Qed.

Lemma grows_Panic A why : Cmd.grows W (@Cmd.Panic W A why).
Proof. intros p. exists []. simpl. rewrite app_nil_r. reflexivity. Qed.

Lemma grows_call A name (op : W -> A * W) : Cmd.grows W (Cmd.call W name op).
Proof.
  intros p. exists [name]. unfold Cmd.call.
  destruct (op (Cmd.engine p)) as [a w']. reflexivity.
Qed.

Lemma grows_bind A B (c : Cmd.M W A) (k : A -> Cmd.M W B) :
  Cmd.grows W c -> (forall a, Cmd.grows W (k a)) -> Cmd.grows W (Cmd.bind W c k).
Proof.
  intros Hc Hk p. unfold Cmd.bind. destruct (Hc p) as [l Hl].
  destruct (c p) as [[a|e] p']; simpl in *.
  - destruct (Hk a p') as [l' Hl']. exists (l ++ l').
    rewrite Hl', Hl, app_assoc. reflexivity.
  - exists l. exact Hl.
Qed.

Lemma grows_check err : Cmd.grows W (Cmd.check W h err).
Proof.
  destruct err as [e|]; simpl.
  - apply grows_bind; [apply grows_Println|intros; apply grows_Exit].
  - apply grows_ret.
Qed.

Lemma grows_for_each A (xs : list A) body :
  (forall x, Cmd.grows W (body x)) -> Cmd.grows W (Cmd.for_each W xs body).
Proof.
  intros Hb. induction xs as [|x xs IH]; simpl.
  - apply grows_ret.
  - apply grows_bind; [apply Hb|intros; apply IH].
Qed.

Create HintDb grows.
#[local] Hint Resolve grows_ret grows_Println grows_Exit grows_Panic grows_call
  grows_check grows_for_each : grows.

Ltac grows_tac :=
  repeat first
    [ apply grows_bind; [|intros]
    | solve [auto with grows]
    | match goal with
      | |- Cmd.grows W (match ?x with _ => _ end) => destruct x
      end ].

(** With a driver in hand the command goes on to the contract: [New] is the
    first operation it invokes. *)
Lemma exercise_invokes_New drv p :
  exists l,
    Cmd.invoked (snd (Cmd.exercise W h drv p)) = Cmd.invoked p ++ "New" :: l.
Proof.
  unfold Cmd.exercise.
  match goal with
  | |- context [Cmd.bind W (Cmd.call W "New" ?op) ?k] =>
      set (rest := k); unfold Cmd.bind at 1, Cmd.call at 1
  end.
  destruct (Driver.New W drv (Cmd.engine p)) as [err w1].
  assert (Hrest : Cmd.grows W (rest err)) by (unfold rest; grows_tac).
  destruct (Hrest {| Cmd.printed := Cmd.printed p;
                     Cmd.invoked := Cmd.invoked p ++ ["New"];
                     Cmd.engine := w1 |}) as [l Hl].
  exists l. rewrite Hl. simpl. rewrite <- app_assoc. reflexivity.
Qed.

Lemma load_driver_resolves prog name p :
  match Cmd.resolve W h name with
  | Some drv =>
      exists p', Cmd.load_driver W h [prog; name] p = (inl drv, p') /\
                 Cmd.invoked p' = Cmd.invoked p
  | None =>
      exists diagnostic,
        Cmd.load_driver W h [prog; name] p
        = (inr (Cmd.os_Exit 1),
           {| Cmd.printed := Cmd.printed p ++
                             [("module:  ./" ++ name ++ ".so")%string; diagnostic];
              Cmd.invoked := Cmd.invoked p;
              Cmd.engine := Cmd.engine p |})
  end.
Proof.
  unfold Cmd.resolve, Cmd.load_driver, Cmd.bind, Cmd.Println, Cmd.Exit, Cmd.ret.
  cbn beta iota.
  destruct (Cmd.os_Stat W h ("./" ++ name ++ ".so")) eqn:Hs.
  all: cbn.
  2: { eexists. rewrite <- app_assoc. reflexivity. }
  all: destruct (Cmd.plugin_Open W h _) as [e1|pl];
    [cbn; eexists; rewrite <- app_assoc; reflexivity|].
  all: destruct (pl "Driver") as [e2|[d|]]; cbn;
    try (eexists; rewrite <- app_assoc; reflexivity).
  all: eexists; split; reflexivity.
Qed.

End Command.

(** C8.  When the backend name on the command line does not resolve to a
    driver (the module does not exist, cannot be opened, has no symbol
    [Driver], or the symbol does not conform to the contract), the command
    prints the module path and one diagnostic line, ends by [os.Exit(1)], and
    has invoked no operation of the contract. *)
Theorem unknown_backend_exits_without_any_call :
  forall (W : Type) (h : Cmd.host W) (prog name : string) (w : W),
    Cmd.resolve W h name = None ->
    fst (Cmd.main W h [prog; name] w) = Cmd.os_Exit 1 /\
    Cmd.exit_status (fst (Cmd.main W h [prog; name] w)) <> 0 /\
    Cmd.invoked (snd (Cmd.main W h [prog; name] w)) = [] /\
    exists diagnostic,
      Cmd.printed (snd (Cmd.main W h [prog; name] w))
      = [("module:  ./" ++ name ++ ".so")%string; diagnostic].
Proof.
  intros W h prog name w Hres.
  pose proof (load_driver_resolves W h prog name
                {| Cmd.printed := []; Cmd.invoked := []; Cmd.engine := w |}) as Hl.
  rewrite Hres in Hl. destruct Hl as [diagnostic Hl].
  unfold Cmd.main, Cmd.bind. rewrite Hl. simpl.
  repeat split; try discriminate. exists diagnostic. reflexivity.
Qed.

(** The command started in a directory without modules, for the name
    "lxc". *)
Lemma unknown_backend_exits_without_any_call_witness :
  fst (Cmd.main unit Cmd.no_modules ["main"; "lxc"] tt) = Cmd.os_Exit 1 /\
  Cmd.invoked (snd (Cmd.main unit Cmd.no_modules ["main"; "lxc"] tt)) = [] /\
  Cmd.printed (snd (Cmd.main unit Cmd.no_modules ["main"; "lxc"] tt))
  = ["module:  ./lxc.so"; "Can't find a driver named: lxc"].
Proof.
  destruct (unknown_backend_exits_without_any_call unit Cmd.no_modules
              "main" "lxc" tt eq_refl) as (Hexit & _ & Hcalls & _).
  split; [exact Hexit|]. split; [exact Hcalls|]. reflexivity.
Defined.

(** The other side: a name that resolves makes the command call [New]. *)
Lemma resolved_backend_is_used :
  forall (W : Type) (h : Cmd.host W) (prog name : string) (w : W) drv,
    Cmd.resolve W h name = Some drv ->
    hd_error (Cmd.invoked (snd (Cmd.main W h [prog; name] w))) = Some "New".
Proof.
  intros W h prog name w drv Hres.
  pose proof (load_driver_resolves W h prog name
                {| Cmd.printed := []; Cmd.invoked := []; Cmd.engine := w |}) as Hl.
  rewrite Hres in Hl. destruct Hl as (p' & Hl & Hinv).
  destruct (exercise_invokes_New W h drv p') as [l Hex].
  unfold Cmd.main, Cmd.bind. rewrite Hl.
  destruct (Cmd.exercise W h drv p') as [[u|e] p'']; simpl in *;
    rewrite Hex, Hinv; reflexivity.
Qed.

(** The command started for the name "idle" in a directory that has the
    module. *)
Lemma resolved_backend_is_used_witness :
  hd_error (Cmd.invoked (snd (Cmd.main unit Cmd.one_module ["main"; "idle"] tt)))
  = Some "New".
Proof.
  apply (resolved_backend_is_used unit Cmd.one_module "main" "idle" tt
           Cmd.idle_driver).
  reflexivity.
Defined.

Section StringFacts.
Local Open Scope string_scope.

Lemma append_nil_r (s : string) : s ++ "" = s.
Proof. induction s as [|c s IH]; simpl; [reflexivity|]. rewrite IH. reflexivity. Qed.

Lemma append_assoc (a b c : string) : (a ++ b) ++ c = a ++ (b ++ c).
Proof. induction a as [|x a IH]; simpl; [reflexivity|]. rewrite IH. reflexivity. Qed.

Lemma length_append (a b : string) :
  String.length (a ++ b) = (String.length a + String.length b)%nat.
Proof. induction a as [|x a IH]; simpl; [reflexivity|]. rewrite IH. reflexivity. Qed.

Lemma concat_nil_cons (a : string) (l : list string) :
  String.concat "" (a :: l) = a ++ String.concat "" l.
Proof.
  destruct l as [|b l]; simpl; [rewrite append_nil_r; reflexivity | reflexivity].
Qed.

End StringFacts.

Section DockerExecResult.
Import Go.
Import Docker.Exec.
Local Open Scope list_scope.

Variable eng : engine.
Variable id : string.
Variable cmd : list string.

Local Arguments StdCopy : simpl never.

Lemma demux_concat fs : forall out err,
  demux fs out err
  = ((out ++ String.concat "" (stdout_of fs))%string,
     (err ++ String.concat "" (stderr_of fs))%string).
Proof.
  induction fs as [|[d|d] fs IH]; intros out err.
  - simpl. rewrite !append_nil_r. reflexivity.
  - cbn [demux]. rewrite IH.
    change (stdout_of (frame_stdout d :: fs)) with (d :: stdout_of fs).
    change (stderr_of (frame_stdout d :: fs)) with (stderr_of fs).
    rewrite concat_nil_cons, append_assoc. reflexivity.
  - cbn [demux]. rewrite IH.
    change (stderr_of (frame_stderr d :: fs)) with (d :: stderr_of fs).
    change (stdout_of (frame_stderr d :: fs)) with (stdout_of fs).
    rewrite concat_nil_cons, append_assoc. reflexivity.
Qed.

Lemma inv_result_init : inv_result eng id cmd init.
Proof. unfold inv_result, untouched; simpl. auto. Qed.

Lemma inv_result_step t s :
  inv_result eng id cmd s -> inv_result eng id cmd (step eng id cmd t s).
Proof.
  intros Hinv. unfold step. destruct t.
  - unfold step_main. destruct (main s) eqn:Hm.
    + unfold inv_result in Hinv. rewrite Hm in Hinv. destruct Hinv as (Hd & Hu).
      destruct (ContainerExecCreate eng id cmd) as [e|x] eqn:Hc.
      * unfold inv_result; simpl; unfold outcome_of; rewrite ?Hd, Hc. repeat split; auto.
        intros; discriminate.
      * unfold inv_result; simpl. auto.
    + unfold inv_result in Hinv. rewrite Hm in Hinv. destruct Hinv as (Hc & Hd & Hu).
      destruct (ContainerExecAttach eng execID) as [e|src] eqn:Ha.
      * unfold inv_result; simpl; unfold outcome_of; rewrite ?Hd, Hc, Ha. repeat split; auto.
        intros; discriminate.
      * unfold inv_result; simpl. auto.
    + unfold inv_result in Hinv. rewrite Hm in Hinv.
      destruct Hinv as (Hc & Ha & Hd & Hu).
      unfold inv_result; simpl. split; [exact Hc|]. exists src. auto.
    + pose proof Hinv as Hinv0.
      unfold inv_result in Hinv. rewrite Hm in Hinv.
      destruct Hinv as (Hc & src & Ha & Hdr).
      destruct (outputDone s) as [|v rest] eqn:Hq.
      { exact Hinv0. }
      destruct (drain s) eqn:Hd; try contradiction.
      * destruct Hdr as (_ & _ & _ & Hq'). congruence.
      * destruct Hdr as (_ & _ & Hq'). congruence.
      * destruct Hdr as (Hq' & Hcap).
        assert (Hv : v = snd (StdCopy src "" "")) by (injection Hq'; auto).
        assert (Hr : rest = []) by (injection Hq'; auto).
        clear Hq'. subst v rest.
        destruct (snd (StdCopy src "" "")) as [e|] eqn:Hcopy.
        -- unfold inv_result; simpl; unfold outcome_of; rewrite ?Hd, Hc, Ha, Hcopy.
           repeat split; auto. intros; discriminate.
        -- unfold inv_result; simpl. split; [exact Hc|].
           exists src. auto.
    + unfold inv_result in Hinv. rewrite Hm in Hinv.
      destruct Hinv as (Hc & src & Ha & Hcopy & Hd & Hcap).
      destruct (ContainerExecInspect eng execID) as [e|code] eqn:Hi.
      * unfold inv_result; simpl; unfold outcome_of; rewrite ?Hd, Hc, Ha, Hcopy, Hi.
        repeat split; auto. intros; discriminate.
      * unfold inv_result; simpl; unfold outcome_of; rewrite ?Hd, Hc, Ha, Hcopy, Hi.
        repeat split; auto. intros _. exists execID, src. auto.
    + exact Hinv.
  - unfold step_drain. destruct (drain s) eqn:Hd; try exact Hinv.
    + unfold inv_result in Hinv. rewrite Hd in Hinv.
      destruct (main s) eqn:Hm;
        try (destruct Hinv as (? & ? & ?); discriminate);
        try (destruct Hinv as (? & ? & ? & ?); discriminate).
      * destruct Hinv as (Hc & src' & Ha & -> & Hb1 & Hb2 & Hq).
        rewrite Hb1, Hb2.
        destruct (StdCopy src' "" "") as [[out err] e] eqn:Hcopy.
        unfold inv_result; simpl; rewrite ?Hm. split; [exact Hc|].
        exists src'. split; [exact Ha|]. simpl.
        unfold captured; simpl. unfold StdCopy in Hcopy.
        injection Hcopy as H1 H2. rewrite H1. auto.
      * destruct Hinv as (? & ? & ? & ? & ? & ?). discriminate.
      * destruct Hinv as (? & [?|?] & ?); discriminate.
    + destruct (outputDone s) eqn:Hq; [|exact Hinv].
      unfold inv_result in Hinv. rewrite Hd in Hinv.
      destruct (main s) eqn:Hm;
        try (destruct Hinv as (? & ? & ?); discriminate);
        try (destruct Hinv as (? & ? & ? & ?); discriminate).
      * destruct Hinv as (Hc & src' & Ha & He & Hcap & _).
        unfold inv_result; simpl; rewrite ?Hm. split; [exact Hc|].
        exists src'. split; [exact Ha|]. simpl. rewrite He. auto.
      * destruct Hinv as (? & ? & ? & ? & ? & ?). discriminate.
      * destruct Hinv as (? & [?|?] & ?); discriminate.
Qed.

Lemma inv_result_reachable sched :
  inv_result eng id cmd (ContainerExec eng id cmd sched).
Proof.
  apply docker_exec_invariant; [apply inv_result_init | apply inv_result_step].
Qed.

End DockerExecResult.

Section PodmanCapture.
Import Go.
Import Podman.Exec.
Local Open Scope list_scope.

Variable w : world.
Variable id : string.
Variable cmd : list string.
Variable x : string.
Hypothesis Hcreate : ExecCreate w id cmd = inr x.

Lemma faulty_none s : read_fault w = None -> faulty w s = None.
Proof. intros H. unfold faulty. rewrite H. reflexivity. Qed.

Ltac cap_tac :=
  intros; simpl in *;
  repeat match goal with
  | H : drain _ = _ |- _ => rewrite H in *; clear H
  | H : ExecStartAndAttach _ _ = _ |- _ => rewrite H in *; clear H
  | H : True -> _ |- _ => specialize (H I)
  | H : _ /\ _ |- _ => destruct H
  | H : p_returned _ = p_returned _ |- _ => injection H as H; subst
  end;
  simpl in *;
  first [ assumption | contradiction | discriminate | congruence
        | solve [auto] | lia
        | solve [intuition (try discriminate; try congruence)] ].

Lemma inv_capture_init : inv_capture w x init.
Proof. unfold inv_capture; simpl. repeat split; cap_tac. Qed.

Lemma inv_capture_step t s :
  inv_order s -> inv_files s -> inv_session w x s ->
  inv_capture w x s -> inv_capture w x (step w id cmd t s).
Proof.
  intros Hord Hfiles Hses Hinv.
  pose proof Hord as (_ & _ & _ & Hbg & _).
  pose proof Hfiles as (_ & Hse & Hsaved & Hbegin & _ & _ & Hwc & _).
  pose proof Hses as (Hx & _).
  pose proof Hinv as (Hbs & Hps & Hcp & Hrt & Hco).
  unfold step. destruct t.
  - unfold step_main. destruct (main s) eqn:Hm; simpl in *.
    all: try exact Hinv.
    + (* p_begin *)
      rewrite (Hbegin eq_refl).
      unfold inv_capture; simpl. rewrite Hco. repeat split; cap_tac.
    + rewrite Hcreate.
      unfold inv_capture; simpl. repeat split; cap_tac.
    + (* p_attach *)
      assert (execID = x) by (apply Hx; reflexivity). subst execID.
      destruct (Hsaved stdout eq_refl) as [-> Hout]. rewrite Hout, Hse.
      destruct (Hbs I) as [Hp Hb].
      assert (Hwf : w_closed s = false).
      { destruct (w_closed s) eqn:E; [destruct (Hwc eq_refl)|reflexivity]. }
      destruct (Hbg I) as [_ Hdn].
      destruct (ExecStartAndAttach w x) as [[out err] e] eqn:Hst.
      unfold write_blocks. rewrite Hwf, Hp. simpl.
      destruct (Z.ltb_spec (pipe_capacity w) (Z.of_nat (String.length out))).
      * unfold inv_capture; simpl. repeat split; cap_tac.
      * destruct e as [e'|]; unfold inv_capture; simpl; rewrite ?Hwf, ?Hp, ?Hb.
        all: repeat split; cap_tac.
    + unfold inv_capture; simpl. repeat split; cap_tac.
    + unfold inv_capture; simpl. repeat split; cap_tac.
    + destruct (ExecInspect w execID);
        unfold inv_capture; simpl; repeat split; cap_tac.
    + destruct (var_err s); [|destruct inspectOut];
        unfold inv_capture; simpl; repeat split; cap_tac.
    + unfold inv_capture; simpl; repeat split; cap_tac.
    + unfold inv_capture; simpl; repeat split; cap_tac.
    + unfold inv_capture; simpl; repeat split; cap_tac.
    + destruct (drain s) eqn:Hd; try exact Hinv.
      unfold inv_capture, rendezvous; simpl; repeat split; cap_tac.
  - unfold step_drain. destruct (drain s) eqn:Hd; try exact Hinv.
    + (* g_copy *)
      assert (Hps' : past_start (main s)).
      { destruct (main s); simpl; auto; destruct (Hbg I) as [_ H]; discriminate. }
      destruct (Hps Hps') as [Hsum Hfit].
      assert (Hnb : ~ before_start (main s)).
      { destruct (main s); simpl in *; auto. }
      assert (Hnr : forall r, main s = p_returned r -> snd r = None -> False).
      { intros r H1 H2. specialize (Hrt r H1 H2). discriminate. }
      destruct (faulty w s) as [e|] eqn:Hf.
      * unfold inv_capture; simpl. repeat split; auto; try contradiction.
        -- intros Hn. rewrite (faulty_none s Hn) in Hf. discriminate.
        -- intros r H1 H2. destruct (Hnr r H1 H2).
      * destruct (String.eqb_spec (pipe s) "") as [He|Hne].
        -- destruct (w_closed s); [|exact Hinv].
           unfold inv_capture; simpl. repeat split; auto; try contradiction.
           intros r H1 H2. destruct (Hnr r H1 H2).
        -- unfold inv_capture, read_pipe; simpl. repeat split; auto; try contradiction.
           ++ rewrite ?append_nil_r. exact Hsum.
           ++ intros r H1 H2. destruct (Hnr r H1 H2).
    + unfold inv_capture; simpl. repeat split; try cap_tac.
      intros r H1 H2. specialize (Hrt r H1 H2). congruence.
    + destruct (main s) eqn:Hm; try exact Hinv.
      unfold inv_capture, rendezvous; simpl; repeat split; cap_tac.
Qed.

Lemma inv_capture_reachable sched :
  inv_capture w x (ContainerExec w id cmd sched).
Proof.
  assert (H : inv_order (ContainerExec w id cmd sched) /\
              inv_files (ContainerExec w id cmd sched) /\
              inv_session w x (ContainerExec w id cmd sched) /\
              inv_capture w x (ContainerExec w id cmd sched)); [|apply H].
  apply podman_exec_invariant
    with (P := fun s => inv_order s /\ inv_files s /\ inv_session w x s /\
                        inv_capture w x s).
  - split; [apply inv_order_init|]. split; [apply inv_files_init|].
    split; [apply inv_session_init|apply inv_capture_init].
  - intros t s (Ho & Hf & Hs & Hc). split; [apply inv_order_step_p; assumption|].
    split; [apply inv_files_step; assumption|].
    split; [apply inv_session_step; assumption|].
    apply inv_capture_step; assumption.
Qed.

Hypothesis Hbig :
  pipe_capacity w < Z.of_nat (String.length (fst (fst (ExecStartAndAttach w x)))).

Lemma ContainerExec_snoc sched t :
  ContainerExec w id cmd (sched ++ [t])
  = step w id cmd t (ContainerExec w id cmd sched).
Proof. unfold ContainerExec. rewrite fold_left_app. reflexivity. Qed.

Lemma caller_steps_snoc sched t :
  caller_steps (sched ++ [t])
  = (caller_steps sched + match t with Main => 1 | Drain => 0 end)%nat.
Proof.
  unfold caller_steps. rewrite filter_app, length_app. destruct t; reflexivity.
Qed.

Lemma inv_stuck_reachable sched :
  inv_stuck x (caller_steps sched) (ContainerExec w id cmd sched).
Proof.
  induction sched as [|t sched IH] using rev_ind.
  - unfold inv_stuck; simpl. auto.
  - rewrite ContainerExec_snoc, caller_steps_snoc.
    set (s := ContainerExec w id cmd sched) in *.
    destruct IH as (Hd & Hp & Hw & Hn).
    unfold step. destruct t.
    + replace (caller_steps sched + 1)%nat with (S (caller_steps sched)) by lia.
      unfold step_main.
      destruct (caller_steps sched) as [|[|[|n]]].
      * destruct Hn as [Hm Ho]. rewrite Hm, Ho.
        unfold inv_stuck; simpl. rewrite Ho. repeat split; eauto.
      * destruct Hn as [[f Hm] Ho]. rewrite Hm, Hcreate.
        unfold inv_stuck; simpl. repeat split; eauto.
      * destruct Hn as [[f Hm] Ho]. rewrite Hm, Ho.
        destruct (ExecStartAndAttach w x) as [[out err] e] eqn:Hst.
        unfold write_blocks. rewrite Hw, Hp. simpl in *.
        destruct (Z.ltb_spec (pipe_capacity w) (Z.of_nat (String.length out)));
          [|lia].
        unfold inv_stuck; simpl. repeat split; eauto.
      * destruct Hn as [Hm Ho]. rewrite Hm.
        unfold inv_stuck. repeat split; auto.
    + rewrite Nat.add_0_r. unfold step_drain. rewrite Hd.
      unfold inv_stuck. repeat split; auto.
Qed.

End PodmanCapture.

Section ExecResults.
Import Go.
Local Open Scope list_scope.

(** The result of the docker [ContainerExec] does not depend on the
    interleaving of the caller and the drain goroutine.  A call that has
    returned has returned the first failure among exec-create, exec-attach
    and the drain of the stream, else what the exit-code query gives; and
    when it has returned a nil error, the stream ended well, the exit code is
    the engine's, and the two buffers of the result hold the payloads of the
    standard-output frames and of the standard-error frames of the stream,
    each in the order of the stream. *)
Theorem docker_exec_result_is_schedule_independent :
  forall eng id cmd sched r,
    Docker.Exec.returned (Docker.Exec.ContainerExec eng id cmd sched) = Some r ->
    let s := Docker.Exec.ContainerExec eng id cmd sched in
    r = Docker.Exec.outcome_of eng id cmd /\
    (snd r = None ->
     exists x src code,
       Docker.Exec.ContainerExecCreate eng id cmd = inr x /\
       Docker.Exec.ContainerExecAttach eng x = inr src /\
       snd (Docker.Exec.StdCopy src "" "") = None /\
       Docker.Exec.ContainerExecInspect eng x = inr code /\
       fst r = {| Driver.ExitCode := code;
                  Driver.OutBuffer := Some Docker.Exec.outBuf;
                  Driver.ErrBuffer := Some Docker.Exec.errBuf |} /\
       Docker.Exec.load s Docker.Exec.outBuf
       = String.concat "" (Docker.Exec.stdout_of (Docker.Exec.frames src)) /\
       Docker.Exec.load s Docker.Exec.errBuf
       = String.concat "" (Docker.Exec.stderr_of (Docker.Exec.frames src))).
Proof.
  intros eng id cmd sched r Hret s.
  pose proof (inv_result_reachable eng id cmd sched) as Hinv.
  fold s in Hinv, Hret. unfold Docker.Exec.returned in Hret.
  unfold Docker.Exec.inv_result in Hinv.
  destruct (Docker.Exec.main s) eqn:Hm; try discriminate.
  injection Hret as ->. destruct Hinv as (Hr & _ & Hok).
  split; [exact Hr|]. intros Hnil.
  destruct (Hok Hnil) as (x & src & Hc & Ha & Hcap).
  unfold Docker.Exec.outcome_of in Hr. rewrite Hc, Ha in Hr.
  destruct (snd (Docker.Exec.StdCopy src "" "")) as [e|] eqn:Hcopy.
  { rewrite Hr in Hnil. discriminate. }
  destruct (Docker.Exec.ContainerExecInspect eng x) as [e|code] eqn:Hi.
  { rewrite Hr in Hnil. discriminate. }
  exists x, src, code. repeat split; auto.
  - rewrite Hr. reflexivity.
  - unfold Docker.Exec.captured in Hcap. rewrite demux_concat in Hcap.
    injection Hcap as H1 H2. exact H1.
  - unfold Docker.Exec.captured in Hcap. rewrite demux_concat in Hcap.
    injection Hcap as H1 H2. exact H2.
Qed.

(** The session of [sound_stream], under the schedule [fair] and under one
    that lets the drain run as early as it can. *)
Lemma docker_exec_result_is_schedule_independent_witness :
  Docker.Exec.returned
    (Docker.Exec.ContainerExec Docker.Exec.sound_stream "c1" ["qdstat"] Docker.Exec.fair)
  = Some (Docker.Exec.outcome_of Docker.Exec.sound_stream "c1" ["qdstat"]) /\
  Docker.Exec.load
    (Docker.Exec.ContainerExec Docker.Exec.sound_stream "c1" ["qdstat"] Docker.Exec.fair)
    Docker.Exec.outBuf = "hello".
Proof.
  assert (Hret : Docker.Exec.returned
            (Docker.Exec.ContainerExec Docker.Exec.sound_stream "c1" ["qdstat"]
               Docker.Exec.fair)
          = Some ({| Driver.ExitCode := 0;
                     Driver.OutBuffer := Some Docker.Exec.outBuf;
                     Driver.ErrBuffer := Some Docker.Exec.errBuf |}, None))
    by reflexivity.
  pose proof (docker_exec_result_is_schedule_independent
                Docker.Exec.sound_stream "c1" ["qdstat"] Docker.Exec.fair _ Hret)
    as [Hr Hok].
  split.
  - rewrite Hret, <- Hr. reflexivity.
  - destruct (Hok eq_refl) as (x & src & code & _ & Ha & _ & _ & _ & Hout & _).
    rewrite Hout. injection Ha as <-. reflexivity.
Defined.

(** What the podman [ContainerExec] captures.  When a call has returned a nil
    error (under whatever schedule), the session was created and started,
    its output fitted into the pipe, the result points to [outBuf], and
    [outBuf] followed by what is left in the pipe is exactly what the session
    wrote to its standard output; if no read of the pipe failed, nothing is
    left and [outBuf] is that output.  The process's own standard output got
    the line that the call prints first and nothing of the session. *)
Theorem podman_exec_captures_session_output :
  forall w id cmd sched res,
    Podman.Exec.returned (Podman.Exec.ContainerExec w id cmd sched)
    = Some (res, None) ->
    let s := Podman.Exec.ContainerExec w id cmd sched in
    exists x,
      Podman.Exec.ExecCreate w id cmd = inr x /\
      snd (Podman.Exec.ExecStartAndAttach w x) = None /\
      let out := fst (fst (Podman.Exec.ExecStartAndAttach w x)) in
      Z.of_nat (String.length out) <= Podman.Exec.pipe_capacity w /\
      Driver.OutBuffer res = Some Podman.Exec.outBuf /\
      (Podman.Exec.load s Podman.Exec.outBuf ++ Podman.Exec.pipe s)%string = out /\
      (Podman.Exec.read_fault w = None ->
       Podman.Exec.load s Podman.Exec.outBuf = out) /\
      Podman.Exec.console_out s = Podman.Exec.banner.
Proof.
  intros w id cmd sched res Hret s.
  unfold Podman.Exec.returned in Hret. fold s in Hret.
  destruct (Podman.Exec.main s) eqn:Hm; try discriminate.
  injection Hret as ->.
  destruct (Podman.Exec.ExecCreate w id cmd) as [e|x] eqn:Hc.
  { pose proof (inv_no_session_reachable w id cmd e Hc sched) as (_ & _ & Hpc).
    fold s in Hpc. rewrite Hm in Hpc.
    destruct Hpc as [H|[[f H]|H]]; discriminate. }
  exists x. split; [reflexivity|].
  pose proof (inv_capture_reachable w id cmd x Hc sched) as (_ & Hps & Hcp & Hrt & Hco).
  pose proof (inv_session_reachable w id cmd x Hc sched) as (_ & _ & _ & _ & _ & Hpr).
  pose proof (podman_exec_reachable w id cmd sched) as (_ & Hfiles).
  destruct Hfiles as (_ & _ & _ & _ & _ & _ & _ & _ & Hwf).
  fold s in Hps, Hcp, Hrt, Hco, Hpr, Hwf. rewrite Hm in *. simpl in *.
  destruct (Hps I) as [Hsum Hfit].
  destruct (Hpr _ eq_refl eq_refl) as [_ Hst].
  destruct (Hwf _ eq_refl eq_refl) as [Hob _].
  specialize (Hrt _ eq_refl eq_refl).
  repeat split; auto.
  intros Hnf.
  assert (Hp : Podman.Exec.pipe s = "")
    by (apply Hcp; [exact Hnf | rewrite Hrt; exact I]).
  rewrite Hp, append_nil_r in Hsum. exact Hsum.
Qed.

(** The session of [hello], the two goroutines taking turns. *)
Lemma podman_exec_captures_session_output_witness :
  Podman.Exec.load
    (Podman.Exec.ContainerExec Podman.Exec.hello "c1" ["echo"; "hello"]
       Podman.Exec.alternate) Podman.Exec.outBuf = "hello".
Proof.
  assert (Hret : Podman.Exec.returned
            (Podman.Exec.ContainerExec Podman.Exec.hello "c1" ["echo"; "hello"]
               Podman.Exec.alternate)
          = Some ({| Driver.ExitCode := 0;
                     Driver.OutBuffer := Some Podman.Exec.outBuf;
                     Driver.ErrBuffer := Some Podman.Exec.errBuf |}, None))
    by (vm_compute; reflexivity).
  destruct (podman_exec_captures_session_output
              Podman.Exec.hello "c1" ["echo"; "hello"] Podman.Exec.alternate _ Hret)
    as (x & Hc & _ & _ & _ & _ & Hout & _).
  rewrite (Hout eq_refl). reflexivity.
Defined.

(** A session that writes more to its standard output than the pipe holds
    blocks the podman [ContainerExec] for ever: nothing reads the pipe before
    [ExecStartAndAttach] has returned.  Under every schedule the call has not
    returned and has started no drain; from the caller's third step on it is
    in the write that blocks, with [os.Stdout] still the pipe's write end. *)
Theorem podman_exec_blocks_on_large_output :
  forall w id cmd x,
    Podman.Exec.ExecCreate w id cmd = inr x ->
    Podman.Exec.pipe_capacity w
    < Z.of_nat (String.length (fst (fst (Podman.Exec.ExecStartAndAttach w x)))) ->
    forall sched,
      let s := Podman.Exec.ContainerExec w id cmd sched in
      Podman.Exec.returned s = None /\
      Podman.Exec.drain s = Podman.Exec.g_none /\
      ((3 <= Podman.Exec.caller_steps sched)%nat ->
       Podman.Exec.main s = Podman.Exec.p_blocked /\
       Podman.Exec.os_Stdout s = Podman.Exec.pipe_w).
Proof.
  intros w id cmd x Hc Hbig sched s.
  pose proof (inv_stuck_reachable w id cmd x Hc Hbig sched) as (Hd & _ & _ & Hn).
  fold s in Hd, Hn. unfold Podman.Exec.returned.
  destruct (Podman.Exec.caller_steps sched) as [|[|[|n]]].
  - destruct Hn as [Hm _]. rewrite Hm. repeat split; auto; intros; lia.
  - destruct Hn as [[f Hm] _]. rewrite Hm. repeat split; auto; intros; lia.
  - destruct Hn as [[f Hm] _]. rewrite Hm. repeat split; auto; intros; lia.
  - destruct Hn as [Hm Ho]. rewrite Hm. repeat split; auto.
Qed.

(** The session of [hello_small_pipe]: five bytes into a pipe of four. *)
Lemma podman_exec_blocks_on_large_output_witness :
  Podman.Exec.returned
    (Podman.Exec.ContainerExec Podman.Exec.hello_small_pipe "c1" ["echo"; "hello"]
       Podman.Exec.alternate) = None /\
  Podman.Exec.os_Stdout
    (Podman.Exec.ContainerExec Podman.Exec.hello_small_pipe "c1" ["echo"; "hello"]
       Podman.Exec.alternate) = Podman.Exec.pipe_w.
Proof.
  assert (Hbig : Podman.Exec.pipe_capacity Podman.Exec.hello_small_pipe
                 < Z.of_nat (String.length (fst (fst
                     (Podman.Exec.ExecStartAndAttach Podman.Exec.hello_small_pipe "e1")))))
    by (vm_compute; reflexivity).
  destruct (podman_exec_blocks_on_large_output Podman.Exec.hello_small_pipe
              "c1" ["echo"; "hello"] "e1" eq_refl Hbig Podman.Exec.alternate)
    as (Hr & _ & Hb).
  split; [exact Hr|]. apply Hb. vm_compute. lia.
Defined.

End ExecResults.

Section CommandRuns.
Import Go.
Local Open Scope list_scope.

Variable W : Type.
Variable h : Cmd.host W.

(** ** The order of the operations *)

Lemma segment_ret A (a : A) : Cmd.segment [] (Cmd.ret W a).
Proof. intros p. simpl. rewrite app_nil_r. reflexivity. Qed.

Lemma segment_Println args : Cmd.segment [] (Cmd.Println W args).
Proof. intros p. simpl. rewrite app_nil_r. reflexivity. Qed.

Lemma segment_Exit A : Cmd.segment [] (@Cmd.Exit W A 1).
Proof.
  intros p. simpl. split; [auto|]. exists [], []. split; [reflexivity | rewrite app_nil_r; reflexivity].
Qed.

Lemma segment_Panic A why : Cmd.segment [] (@Cmd.Panic W A why).
Proof.
  intros p. simpl. split; [eauto|]. exists [], []. split; [reflexivity | rewrite app_nil_r; reflexivity].
Qed.

Lemma segment_call A name (op : W -> A * W) :
  Cmd.segment [name] (Cmd.call W name op).
Proof.
  intros p. unfold Cmd.call. destruct (op (Cmd.engine p)) as [a w']. reflexivity.
Qed.

Lemma segment_bind A B l1 l2 (c : Cmd.M W A) (k : A -> Cmd.M W B) :
  Cmd.segment l1 c -> (forall a, Cmd.segment l2 (k a)) ->
  Cmd.segment (l1 ++ l2) (Cmd.bind W c k).
Proof.
  intros Hc Hk p. specialize (Hc p). unfold Cmd.bind.
  destruct (c p) as [[a|e] p']; simpl in *.
  - specialize (Hk a p'). destruct (fst (k a p')) as [b|e].
    + rewrite Hk, Hc, app_assoc. reflexivity.
    + destruct Hk as (He & l & rest & Hl & Hi). split; [exact He|].
      exists (l1 ++ l), rest. rewrite Hi, Hc, Hl, !app_assoc. auto.
  - destruct Hc as (He & l & rest & Hl & Hi). split; [exact He|].
    exists l, (rest ++ l2). rewrite Hi, Hl, app_assoc. auto.
Qed.

Lemma segment_check err : Cmd.segment [] (Cmd.check W h err).
Proof.
  destruct err as [e|]; simpl.
  - apply (segment_bind _ _ [] []); [apply segment_Println|intros; apply segment_Exit].
  - apply segment_ret.
Qed.

Lemma segment_for_each A (xs : list A) body :
  (forall x, Cmd.segment [] (body x)) -> Cmd.segment [] (Cmd.for_each W xs body).
Proof.
  intros Hb. induction xs as [|x xs IH]; simpl.
  - apply segment_ret.
  - apply (segment_bind _ _ [] []); [apply Hb|intros; apply IH].
Qed.

Ltac segment_tac :=
  repeat first
    [ apply segment_ret | apply segment_Println | apply segment_Exit
    | apply segment_Panic | apply segment_call | apply segment_check
    | apply segment_for_each; intros
    | eapply segment_bind; [|intros]
    | match goal with
      | |- Cmd.segment _ (match ?x with _ => _ end) => destruct x
      end ].

Lemma segment_eq A l l' (c : Cmd.M W A) :
  l = l' -> Cmd.segment l c -> Cmd.segment l' c.
Proof. intros <-. auto. Qed.

Lemma exercise_segment drv : Cmd.segment Cmd.all_ops (Cmd.exercise W h drv).
Proof.
  eapply segment_eq; [|unfold Cmd.exercise; segment_tac]. reflexivity.
Qed.

Lemma load_driver_segment args : Cmd.segment [] (Cmd.load_driver W h args).
Proof.
  unfold Cmd.load_driver.
  destruct args as [|prog [|name [|more args]]].
  all: eapply segment_eq; [|segment_tac]; reflexivity.
Qed.

End CommandRuns.

(** The command invokes the operations of the contract in one fixed order.
    However it ends, what it has invoked is an initial part of the list
    [New, ImagesPull, ImagesList, ImageInspect, ContainerCreate,
    ContainerStart, ContainerWait, ContainerList, ContainerInspect,
    NetworkCreate, NetworkInspect, NetworkConnect, ContainerExec,
    ContainerExec, NetworkDisconnect, ContainerStop, ContainerRemove,
    NetworkRemove]; it ends normally only when it has invoked all of them;
    otherwise it ends by [os.Exit(1)] or by a panic. *)
Theorem main_invokes_operations_in_order :
  forall (W : Type) (h : Cmd.host W) (args : list string) (w : W),
    let r := Cmd.main W h args w in
    (exists rest, Cmd.all_ops = (Cmd.invoked (snd r) ++ rest)%list) /\
    (fst r = Cmd.finished -> Cmd.invoked (snd r) = Cmd.all_ops) /\
    (fst r = Cmd.finished \/ fst r = Cmd.os_Exit 1 \/ exists why, fst r = Cmd.panic why).
Proof.
  intros W h args w r. subst r. unfold Cmd.main.
  pose proof (segment_bind W _ _ [] Cmd.all_ops _ _
                (load_driver_segment W h args)
                (exercise_segment W h)
                {| Cmd.printed := []; Cmd.invoked := []; Cmd.engine := w |}) as H.
  destruct (Cmd.bind W (Cmd.load_driver W h args) (fun drv => Cmd.exercise W h drv) _)
    as [[u|e] p]; simpl in *.
  - rewrite H. split; [exists []; reflexivity|]. auto.
  - destruct H as (He & l & rest & Hl & Hi). rewrite Hi. split; [eauto|].
    split; [|right; exact He].
    destruct He as [->|[why ->]]; intros; discriminate.
Qed.

Section CommandOutcomes.
Import Go.
Local Open Scope list_scope.

Variable W : Type.
Variable h : Cmd.host W.

(** ** Runs that reach the end *)

Lemma succeeds_ret A (a : A) : Cmd.succeeds (Cmd.ret W a).
Proof. intros p. exists a. reflexivity. Qed.

Lemma succeeds_Println args : Cmd.succeeds (Cmd.Println W args).
Proof. intros p. exists tt. reflexivity. Qed.

Lemma succeeds_bind A B (c : Cmd.M W A) (k : A -> Cmd.M W B) :
  Cmd.succeeds c -> (forall a, Cmd.succeeds (k a)) ->
  Cmd.succeeds (Cmd.bind W c k).
Proof.
  intros Hc Hk p. unfold Cmd.bind. destruct (Hc p) as [a Ha].
  destruct (c p) as [r p']. simpl in Ha. subst r. apply Hk.
Qed.

(** The continuation of a call gets what the operation returned on some
    engine. *)
Lemma succeeds_call_bind A B name (op : W -> A * W) (k : A -> Cmd.M W B) :
  (forall w, Cmd.succeeds (k (fst (op w)))) ->
  Cmd.succeeds (Cmd.bind W (Cmd.call W name op) k).
Proof.
  intros Hk p. unfold Cmd.bind, Cmd.call.
  specialize (Hk (Cmd.engine p)).
  destruct (op (Cmd.engine p)) as [a w']. apply Hk.
Qed.

Lemma succeeds_for_each A (xs : list A) body :
  (forall x, Cmd.succeeds (body x)) -> Cmd.succeeds (Cmd.for_each W xs body).
Proof.
  intros Hb. induction xs as [|x xs IH]; simpl.
  - apply succeeds_ret.
  - apply succeeds_bind; [apply Hb|intros; apply IH].
Qed.

Lemma succeeds_check_nil : Cmd.succeeds (Cmd.check W h None).
Proof. apply succeeds_ret. Qed.

Ltac succeeds_tac :=
  repeat first
    [ apply succeeds_ret | apply succeeds_Println | apply succeeds_check_nil
    | apply succeeds_for_each; intros
    | apply succeeds_call_bind; intros
    | apply succeeds_bind; [|intros] ].

(** As far as the calls and the prints go; the premises [H1] ... [H15] say
    that the checked operations return no error. *)
Ltac go H1 H2 H3 H4 H5 H6 H7 H8 H9 H10 H11 H12 H13 H14 H15 :=
  repeat first
    [ apply succeeds_call_bind; intros ?w;
      rewrite ?H1, ?H2, ?H3, ?H4, ?H5, ?H6, ?H7, ?H8, ?H9, ?H10, ?H11, ?H12,
        ?H13, ?H14, ?H15; cbn zeta
    | apply succeeds_bind; [solve [succeeds_tac] | intros _]
    | solve [succeeds_tac] ].

Lemma exercise_succeeds drv :
  Cmd.checked_ops_succeed drv -> Cmd.lists_one_named drv ->
  Cmd.inspects_or_fails drv ->
  Cmd.succeeds (Cmd.exercise W h drv).
Proof.
  intros (H1 & H2 & H3 & H4 & H5 & H6 & H7 & H8 & H9 & H10 & H11 & H12 & H13
          & H14 & H15) Hlist Hins.
  unfold Cmd.exercise.
  assert (Hl := Hlist). assert (Hi := Hins).
  unfold Cmd.lists_one_named in Hl. unfold Cmd.inspects_or_fails in Hi.
  go H1 H2 H3 H4 H5 H6 H7 H8 H9 H10 H11 H12 H13 H14 H15.
  apply succeeds_bind; [destruct (snd _); succeeds_tac|intros _].
  go H1 H2 H3 H4 H5 H6 H7 H8 H9 H10 H11 H12 H13 H14 H15.
  match goal with
  | |- context [Driver.ContainerList W drv ?w] =>
      destruct (Hl w (H6 w)) as (c & cs & n & ns & -> & ->)
  end.
  go H1 H2 H3 H4 H5 H6 H7 H8 H9 H10 H11 H12 H13 H14 H15.
  match goal with
  | |- context [Driver.ContainerInspect W drv ?i ?w] =>
      pose proof (Hi i w (H7 i w)) as Hnn;
      destruct (fst (fst (Driver.ContainerInspect W drv i w))) as [ci|];
      [|contradiction Hnn; reflexivity]
  end.
  go H1 H2 H3 H4 H5 H6 H7 H8 H9 H10 H11 H12 H13 H14 H15.
Qed.

(** ** Runs that stop before an operation *)

Lemma quiet_ret A (a : A) : Cmd.quiet (Cmd.ret W a).
Proof. intros p. reflexivity. Qed.

Lemma quiet_Println args : Cmd.quiet (Cmd.Println W args).
Proof. intros p. reflexivity. Qed.

Lemma quiet_Exit A status : Cmd.quiet (@Cmd.Exit W A status).
Proof. intros p. reflexivity. Qed.

Lemma quiet_Panic A why : Cmd.quiet (@Cmd.Panic W A why).
Proof. intros p. reflexivity. Qed.

Lemma quiet_bind A B (c : Cmd.M W A) (k : A -> Cmd.M W B) :
  Cmd.quiet c -> (forall a, Cmd.quiet (k a)) -> Cmd.quiet (Cmd.bind W c k).
Proof.
  intros Hc Hk p. unfold Cmd.bind. specialize (Hc p).
  destruct (c p) as [[a|e] p']; simpl in *.
  - rewrite Hk. exact Hc.
  - exact Hc.
Qed.

Lemma quiet_check err : Cmd.quiet (Cmd.check W h err).
Proof.
  destruct err as [e|]; simpl; [|apply quiet_ret].
  apply quiet_bind; [apply quiet_Println|intros; apply quiet_Exit].
Qed.

Lemma quiet_for_each A (xs : list A) body :
  (forall x, Cmd.quiet (body x)) -> Cmd.quiet (Cmd.for_each W xs body).
Proof.
  intros Hb. induction xs as [|x xs IH]; simpl.
  - apply quiet_ret.
  - apply quiet_bind; [apply Hb|intros; apply IH].
Qed.

Lemma stops_short_call_bind A B op name (f : W -> A * W) (k : A -> Cmd.M W B) :
  name <> op ->
  (forall w, Cmd.stops_short op (k (fst (f w)))) ->
  Cmd.stops_short op (Cmd.bind W (Cmd.call W name f) k).
Proof.
  intros Hne Hk p. unfold Cmd.bind, Cmd.call.
  specialize (Hk (Cmd.engine p)).
  destruct (f (Cmd.engine p)) as [a w']. simpl in Hk.
  destruct (Hk {| Cmd.printed := Cmd.printed p;
                  Cmd.invoked := Cmd.invoked p ++ [name];
                  Cmd.engine := w' |}) as (He & l & Hl & Hnot).
  split; [exact He|]. exists (name :: l). split.
  - rewrite Hl. simpl. rewrite <- app_assoc. reflexivity.
  - intros [H|H]; [exact (Hne H)|exact (Hnot H)].
Qed.

Lemma stops_short_quiet_bind A B op (c : Cmd.M W A) (k : A -> Cmd.M W B) :
  Cmd.quiet c -> (forall a, Cmd.stops_short op (k a)) ->
  Cmd.stops_short op (Cmd.bind W c k).
Proof.
  intros Hc Hk p. unfold Cmd.bind. specialize (Hc p).
  destruct (c p) as [[a|e] p']; simpl in *.
  - destruct (Hk a p') as (He & l & Hl & Hnot).
    split; [exact He|]. exists l. rewrite Hl, Hc. auto.
  - split; [eauto|]. exists []. rewrite app_nil_r. auto.
Qed.

Lemma stops_short_Panic_bind A B op why (k : A -> Cmd.M W B) :
  Cmd.stops_short op (Cmd.bind W (@Cmd.Panic W A why) k).
Proof.
  intros p. simpl. split; [eauto|]. exists []. rewrite app_nil_r. auto.
Qed.

Ltac quiet_tac :=
  repeat first
    [ apply quiet_ret | apply quiet_Println | apply quiet_Exit
    | apply quiet_check
    | apply quiet_for_each; intros
    | match goal with
      | |- Cmd.quiet (match ?x with Some _ => _ | None => _ end) => destruct x
      end ].

Ltac stops_short_go :=
  repeat first
    [ apply stops_short_Panic_bind
    | apply stops_short_call_bind; [discriminate | intros ?w; cbn zeta]
    | apply stops_short_quiet_bind; [solve [quiet_tac] | intros _] ].

(** A driver that reports an empty list of containers, without error, stops
    the run at the list: the first container is indexed right away. *)
Lemma exercise_stops_at_empty_list drv :
  (forall w, fst (Driver.ContainerList W drv w) = ([], None)) ->
  Cmd.stops_short "ContainerInspect" (Cmd.exercise W h drv).
Proof.
  intros Hempty. unfold Cmd.exercise.
  do 7 (apply stops_short_call_bind; [discriminate | intros ?w; cbn zeta];
        repeat (apply stops_short_quiet_bind; [solve [quiet_tac] | intros _])).
  apply stops_short_call_bind; [discriminate | intros ?w; cbn zeta].
  rewrite Hempty. cbn [fst snd].
  apply stops_short_quiet_bind; [solve [quiet_tac] | intros _].
  apply stops_short_Panic_bind.
Qed.

(** A driver that returns a nil container, without error, stops the run at
    the inspection: the container's name is read right away. *)
Lemma exercise_stops_at_nil_container drv :
  (forall id w, fst (Driver.ContainerInspect W drv id w) = (None, None)) ->
  Cmd.stops_short "NetworkCreate" (Cmd.exercise W h drv).
Proof.
  intros Hnil. unfold Cmd.exercise.
  do 7 (apply stops_short_call_bind; [discriminate | intros ?w; cbn zeta];
        repeat (apply stops_short_quiet_bind; [solve [quiet_tac] | intros _])).
  apply stops_short_call_bind; [discriminate | intros ?w; cbn zeta].
  apply stops_short_quiet_bind; [solve [quiet_tac] | intros _].
  apply stops_short_quiet_bind.
  { match goal with
    | |- Cmd.quiet (match ?l with [] => _ | _ :: _ => _ end) =>
        destruct l as [|c0 cs]; [apply quiet_Panic|];
        destruct (Driver.C_Names c0); [apply quiet_Panic|apply quiet_Println]
    end. }
  intros _.
  apply stops_short_quiet_bind; [solve [quiet_tac] | intros _].
  apply stops_short_call_bind; [discriminate | intros ?w; cbn zeta].
  rewrite Hnil. cbn [fst snd].
  apply stops_short_quiet_bind; [solve [quiet_tac] | intros _].
  apply stops_short_Panic_bind.
Qed.

End CommandOutcomes.

(** The errors of [New] and [ImagesPull] do not stop the command (the first
    is dropped, the second only printed).  With a driver whose other
    operations return no error, whose container list has a first container
    with a first name and whose [ContainerInspect] returns a container, the
    command ends normally, with status 0, having invoked every operation of
    its list, whatever [New] and [ImagesPull] return. *)
Theorem main_finishes_despite_New_and_pull_errors :
  forall (W : Type) (h : Cmd.host W) (prog name : string) (w : W) drv,
    Cmd.resolve W h name = Some drv ->
    Cmd.checked_ops_succeed drv ->
    Cmd.lists_one_named drv ->
    Cmd.inspects_or_fails drv ->
    fst (Cmd.main W h [prog; name] w) = Cmd.finished /\
    Cmd.exit_status (fst (Cmd.main W h [prog; name] w)) = 0 /\
    Cmd.invoked (snd (Cmd.main W h [prog; name] w)) = Cmd.all_ops.
Proof.
  intros W h prog name w drv Hres Hok Hlist Hins.
  pose proof (load_driver_resolves W h prog name
                {| Cmd.printed := []; Cmd.invoked := []; Cmd.engine := w |}) as Hl.
  rewrite Hres in Hl. destruct Hl as (p' & Hl & Hinv).
  destruct (exercise_succeeds W h drv Hok Hlist Hins p') as [u Hu].
  pose proof (exercise_segment W h drv p') as Hseg.
  unfold Cmd.main, Cmd.bind. rewrite Hl.
  destruct (Cmd.exercise W h drv p') as [r p'']. simpl in *. subst r.
  simpl. rewrite Hseg, Hinv. auto.
Qed.

(** The command started for the name "steady": [New] and [ImagesPull] fail,
    and the run goes through. *)
Lemma main_finishes_despite_New_and_pull_errors_witness :
  fst (Driver.New unit Cmd.steady_driver tt) <> None /\
  fst (Cmd.main unit Cmd.steady_module ["main"; "steady"] tt) = Cmd.finished.
Proof.
  split; [discriminate|].
  apply (main_finishes_despite_New_and_pull_errors unit Cmd.steady_module
           "main" "steady" tt Cmd.steady_driver).
  - reflexivity.
  - unfold Cmd.checked_ops_succeed. simpl. repeat split; intros; reflexivity.
  - intros w _. simpl. do 4 eexists. split; reflexivity.
  - intros id w _. simpl. discriminate.
Defined.

(** A nil container stops the command.  With a driver whose
    [ContainerInspect] returns a nil pointer and a nil error, the command
    does not end normally and never invokes [NetworkCreate] (nor anything
    after it): it reads the name of the container right after the error
    check, which a nil error passes. *)
Theorem main_stops_at_nil_container :
  forall (W : Type) (h : Cmd.host W) (prog name : string) (w : W) drv,
    Cmd.resolve W h name = Some drv ->
    (forall id w0, fst (Driver.ContainerInspect W drv id w0) = (None, None)) ->
    fst (Cmd.main W h [prog; name] w) <> Cmd.finished /\
    ~ In "NetworkCreate" (Cmd.invoked (snd (Cmd.main W h [prog; name] w))).
Proof.
  intros W h prog name w drv Hres Hnil.
  pose proof (load_driver_resolves W h prog name
                {| Cmd.printed := []; Cmd.invoked := []; Cmd.engine := w |}) as Hl.
  rewrite Hres in Hl. destruct Hl as (p' & Hl & Hinv).
  destruct (exercise_stops_at_nil_container W h drv Hnil p')
    as ((e & He) & l & Hinvoked & Hnot).
  pose proof (exercise_segment W h drv p') as Hseg.
  unfold Cmd.main, Cmd.bind. rewrite Hl.
  destruct (Cmd.exercise W h drv p') as [r p'']. simpl in *. subst r.
  simpl. rewrite Hinvoked, Hinv. simpl. split; [|exact Hnot].
  destruct Hseg as [[->|[why ->]] _]; discriminate.
Qed.

(** The command started for the name "forgetful", whose driver lists the
    container "router" and then returns no container for it: it panics at
    the inspection, the last operation it invokes. *)
Lemma main_stops_at_nil_container_witness :
  fst (Cmd.main unit Cmd.forgetful_module ["main"; "forgetful"] tt)
  = Cmd.panic "nil pointer dereference" /\
  Cmd.invoked (snd (Cmd.main unit Cmd.forgetful_module ["main"; "forgetful"] tt))
  = ["New"; "ImagesPull"; "ImagesList"; "ImageInspect"; "ContainerCreate";
     "ContainerStart"; "ContainerWait"; "ContainerList"; "ContainerInspect"] /\
  ~ In "NetworkCreate"
      (Cmd.invoked
         (snd (Cmd.main unit Cmd.forgetful_module ["main"; "forgetful"] tt))).
Proof.
  split; [reflexivity|]. split; [reflexivity|].
  apply (main_stops_at_nil_container unit Cmd.forgetful_module "main" "forgetful"
           tt Cmd.forgetful_driver); reflexivity.
Defined.

(** An empty container list stops the command.  With a driver whose
    [ContainerList] returns an empty list and a nil error, the command does
    not end normally and never invokes [ContainerInspect] (nor anything
    after it): it indexes the first container of the list right after the
    error check. *)
Theorem main_stops_at_empty_container_list :
  forall (W : Type) (h : Cmd.host W) (prog name : string) (w : W) drv,
    Cmd.resolve W h name = Some drv ->
    (forall w0, fst (Driver.ContainerList W drv w0) = ([], None)) ->
    fst (Cmd.main W h [prog; name] w) <> Cmd.finished /\
    ~ In "ContainerInspect" (Cmd.invoked (snd (Cmd.main W h [prog; name] w))).
Proof.
  intros W h prog name w drv Hres Hempty.
  pose proof (load_driver_resolves W h prog name
                {| Cmd.printed := []; Cmd.invoked := []; Cmd.engine := w |}) as Hl.
  rewrite Hres in Hl. destruct Hl as (p' & Hl & Hinv).
  destruct (exercise_stops_at_empty_list W h drv Hempty p')
    as ((e & He) & l & Hinvoked & Hnot).
  pose proof (exercise_segment W h drv p') as Hseg.
  unfold Cmd.main, Cmd.bind. rewrite Hl.
  destruct (Cmd.exercise W h drv p') as [r p'']. simpl in *. subst r.
  simpl. rewrite Hinvoked, Hinv. simpl. split; [|exact Hnot].
  destruct Hseg as [[->|[why ->]] _]; discriminate.
Qed.

(** The command started for the name "idle", whose driver lists no
    container: it panics at the list. *)
Lemma main_stops_at_empty_container_list_witness :
  fst (Cmd.main unit Cmd.one_module ["main"; "idle"] tt)
  = Cmd.panic "index out of range [0] with length 0" /\
  ~ In "ContainerInspect"
      (Cmd.invoked (snd (Cmd.main unit Cmd.one_module ["main"; "idle"] tt))).
Proof.
  split; [reflexivity|].
  apply (main_stops_at_empty_container_list unit Cmd.one_module "main" "idle" tt
           Cmd.idle_driver); reflexivity.
Defined.

Section DockerOps.
Import Go.
Import Docker.Ops.
Local Open Scope list_scope.

Variable c : dockerClient.
Variable w : world.

(** The check of the context after a request that took [took]. *)
Lemma contextError_after ctx_now took cons :
  fst (contextError (context_WithTimeout ctx_now (timeout (var_Driver w)))
         {| now := ctx_now + took; console := cons; var_Driver := var_Driver w;
            pause := pause w |})
  = if timeout (var_Driver w) <=? took then timed_out
    else if overtaken w took then deadline_bare else None.
Proof.
  unfold contextError, passes, ctx_Err, ctx_Done, context_WithTimeout, overtaken;
    simpl.
  destruct (Z.leb_spec (ctx_now + timeout (var_Driver w)) (ctx_now + took));
    destruct (Z.leb_spec (timeout (var_Driver w)) took); try lia;
    [destruct (error_eq_dec context_DeadlineExceeded context_DeadlineExceeded);
       [reflexivity|congruence]|].
  destruct (Z.leb_spec (ctx_now + timeout (var_Driver w))
                       (ctx_now + took + pause w));
    destruct (Z.leb_spec (timeout (var_Driver w)) (took + pause w)); try lia;
    reflexivity.
Qed.

Ltac run_op :=
  unfold ImageInspect, ContainerCreate, ContainerStart, ContainerInspect,
    ContainerStop, ContainerRemove, NetworkCreate, NetworkInspect, NetworkRemove,
    NetworkConnect, NetworkDisconnect, bind, Println, getTimeoutContext, request,
    ret, ctx_of, overdue, newContainerSpec in *;
  cbn [now console var_Driver pause fst snd ccc_Name ccc_Config ccc_HostConfig
       ccc_NetworkingConfig] in *.

(** Runs an operation on the reply [H : Client.m ... = (took, reply)]. *)
Ltac settle :=
  intros;
  repeat match goal with
  | x : (_ * option error)%type |- _ => destruct x as [? ?]
  end;
  run_op;
  match goal with
  | H : _ = (?took, _) |- _ => rewrite H; cbn [fst snd]
  end;
  try match goal with
  | |- context [contextError ?ctx {| now := _ + ?took; console := ?cons;
                                     var_Driver := _; pause := _ |}] =>
      pose proof (contextError_after (now w) took cons) as Hc;
      destruct (contextError ctx {| now := now w + took; console := cons;
                                    var_Driver := var_Driver w;
                                    pause := pause w |})
        as [ctxErr w''];
      cbn [fst] in Hc; subst ctxErr;
      match goal with
      | H : ?t <= took |- _ => destruct (Z.leb_spec t took); [|lia]
      | H : ~ ?t <= took |- _ =>
          destruct (Z.leb_spec t took); [lia|]; destruct (overtaken w took)
      end
  end;
  unfold timed_out, deadline_bare; cbn;
  repeat match goal with
  | x : option error |- _ => destruct x
  end;
  reflexivity.

(** A reply that comes after the driver's timeout is thrown away, whatever
    it is: each of the ten operations that look at their context after the
    request returns an [operationTimeout] that holds
    [context.DeadlineExceeded], and no data. *)
Theorem docker_overdue_reply_is_dropped :
  (forall id took reply,
      Client.ImageInspectWithRaw (client c) (ctx_of w) (now w) id = (took, reply) ->
      overdue w took ->
      fst (ImageInspect c id w) = (None, timed_out)) /\
  (forall id took reply,
      Client.ContainerStart (client c) (ctx_of w) (now w) id = (took, reply) ->
      overdue w took ->
      fst (ContainerStart c id w) = timed_out) /\
  (forall id took reply,
      Client.ContainerInspect (client c) (ctx_of w) (now w) id = (took, reply) ->
      overdue w took ->
      fst (ContainerInspect c id w) = (None, timed_out)) /\
  (forall id took reply,
      Client.ContainerStop (client c) (ctx_of w) (now w) id = (took, reply) ->
      overdue w took ->
      fst (ContainerStop c id w) = timed_out) /\
  (forall id took reply,
      Client.ContainerRemove (client c) (ctx_of w) (now w) id = (took, reply) ->
      overdue w took ->
      fst (ContainerRemove c id w) = timed_out) /\
  (forall name options took reply,
      Client.NetworkCreate (client c) (ctx_of w) (now w) name bridge_request
      = (took, reply) ->
      overdue w took ->
      fst (NetworkCreate c name options w)
      = ({| Driver.NCR_ID := ""; Driver.NCR_Warning := "" |}, timed_out)) /\
  (forall id took reply,
      Client.NetworkInspect (client c) (ctx_of w) (now w) id = (took, reply) ->
      overdue w took ->
      fst (NetworkInspect c id w) = ({| Driver.NR_Name := "" |}, timed_out)) /\
  (forall id took reply,
      Client.NetworkRemove (client c) (ctx_of w) (now w) id = (took, reply) ->
      overdue w took ->
      fst (NetworkRemove c id w) = timed_out) /\
  (forall id container aliases took reply,
      Client.NetworkConnect (client c) (ctx_of w) (now w) id container
        EndpointSettings_zero = (took, reply) ->
      overdue w took ->
      fst (NetworkConnect c id container aliases w) = timed_out) /\
  (forall id container force took reply,
      Client.NetworkDisconnect (client c) (ctx_of w) (now w) id container force
      = (took, reply) ->
      overdue w took ->
      fst (NetworkDisconnect c id container force w) = timed_out).
Proof.
  repeat split; settle.
Qed.

(** A reply that comes within the driver's timeout is passed on, unless
    the deadline passes before [contextError] reads the context for the
    second time.  Passed on are its error as it is, and its data, field by
    field, when the error is nil (for the two network queries also when it
    is not); of a container, [ContainerInspect] leaves the creation time and
    the image name at their zero values.  A reply that the deadline
    overtakes is thrown away, and the error returned is
    [context.DeadlineExceeded] as it is, not an [operationTimeout]. *)
Theorem docker_timely_reply_is_passed_on_unless_overtaken :
  (forall id took data err,
      Client.ImageInspectWithRaw (client c) (ctx_of w) (now w) id
      = (took, (data, err)) ->
      ~ overdue w took ->
      fst (ImageInspect c id w)
      = if overtaken w took then (None, deadline_bare)
        else match err with
             | Some e => (None, Some (lib_error e))
             | None => (Some {| Driver.II_ID := img_ID data;
                                Driver.II_Size := img_Size data;
                                Driver.II_RepoTags := img_RepoTags data |}, None)
             end) /\
  (forall id took err,
      Client.ContainerStart (client c) (ctx_of w) (now w) id = (took, err) ->
      ~ overdue w took ->
      fst (ContainerStart c id w)
      = if overtaken w took then deadline_bare else option_map lib_error err) /\
  (forall id took data err,
      Client.ContainerInspect (client c) (ctx_of w) (now w) id
      = (took, (data, err)) ->
      ~ overdue w took ->
      fst (ContainerInspect c id w)
      = if overtaken w took then (None, deadline_bare)
        else match err with
             | Some e => (None, Some (lib_error e))
             | None => (Some {| Driver.ICD_ID := cj_ID data;
                                Driver.ICD_Created := 0;
                                Driver.ICD_Path := cj_Path data;
                                Driver.ICD_Args := cj_Args data;
                                Driver.ICD_Image := cj_Image data;
                                Driver.ICD_ImageName := "";
                                Driver.ICD_Name := cj_Name data |}, None)
             end) /\
  (forall id took err,
      Client.ContainerStop (client c) (ctx_of w) (now w) id = (took, err) ->
      ~ overdue w took ->
      fst (ContainerStop c id w)
      = if overtaken w took then deadline_bare else option_map lib_error err) /\
  (forall id took err,
      Client.ContainerRemove (client c) (ctx_of w) (now w) id = (took, err) ->
      ~ overdue w took ->
      fst (ContainerRemove c id w)
      = if overtaken w took then deadline_bare else option_map lib_error err) /\
  (forall name options took ncr err,
      Client.NetworkCreate (client c) (ctx_of w) (now w) name bridge_request
      = (took, (ncr, err)) ->
      ~ overdue w took ->
      fst (NetworkCreate c name options w)
      = if overtaken w took
        then ({| Driver.NCR_ID := ""; Driver.NCR_Warning := "" |}, deadline_bare)
        else ({| Driver.NCR_ID := ncr_ID ncr;
                 Driver.NCR_Warning := ncr_Warning ncr |},
              option_map lib_error err)) /\
  (forall id took nr err,
      Client.NetworkInspect (client c) (ctx_of w) (now w) id = (took, (nr, err)) ->
      ~ overdue w took ->
      fst (NetworkInspect c id w)
      = if overtaken w took then ({| Driver.NR_Name := "" |}, deadline_bare)
        else ({| Driver.NR_Name := nr_Name nr |}, option_map lib_error err)) /\
  (forall id took err,
      Client.NetworkRemove (client c) (ctx_of w) (now w) id = (took, err) ->
      ~ overdue w took ->
      fst (NetworkRemove c id w)
      = if overtaken w took then deadline_bare else option_map lib_error err) /\
  (forall id container aliases took err,
      Client.NetworkConnect (client c) (ctx_of w) (now w) id container
        EndpointSettings_zero = (took, err) ->
      ~ overdue w took ->
      fst (NetworkConnect c id container aliases w)
      = if overtaken w took then deadline_bare else option_map lib_error err) /\
  (forall id container force took err,
      Client.NetworkDisconnect (client c) (ctx_of w) (now w) id container force
      = (took, err) ->
      ~ overdue w took ->
      fst (NetworkDisconnect c id container force w)
      = if overtaken w took then deadline_bare else option_map lib_error err).
Proof.
  repeat split; settle.
Qed.

(** [ContainerCreate] does not look at its context after the request: what
    it returns is the engine's reply even when that is overdue, and never an
    [operationTimeout].  The container it asks for is always named
    "skupper-router". *)
Theorem docker_ContainerCreate_ignores_the_deadline :
  forall image took ccb err,
    Client.ContainerCreate (client c) (ctx_of w) (now w)
      {| cfg_Image := image |} HostConfig_zero NetworkingConfig_zero
      "skupper-router" = (took, (ccb, err)) ->
    fst (ContainerCreate c image w)
    = match err with
      | Some e => ({| Driver.CCR_ID := "" |}, Some (lib_error e))
      | None => ({| Driver.CCR_ID := ccb_ID ccb |}, None)
      end /\
    forall e, snd (fst (ContainerCreate c image w)) <> Some (operationTimeout e).
Proof.
  intros image took ccb err H.
  assert (Hr : fst (ContainerCreate c image w)
               = match err with
                 | Some e => ({| Driver.CCR_ID := "" |}, Some (lib_error e))
                 | None => ({| Driver.CCR_ID := ccb_ID ccb |}, None)
                 end) by (revert H; settle).
  split; [exact Hr|]. rewrite Hr. destruct err; discriminate.
Qed.

End DockerOps.

(** The driver with a timeout of 2s on an engine that takes 3s: starting a
    container times out. *)
Lemma docker_overdue_reply_is_dropped_witness :
  fst (Docker.Ops.ContainerStart
         (Docker.Ops.var_Driver (Docker.Ops.connected Docker.Ops.slow_engine))
         "c1" (Docker.Ops.connected Docker.Ops.slow_engine))
  = Docker.Ops.timed_out.
Proof.
  pose proof (docker_overdue_reply_is_dropped
                (Docker.Ops.var_Driver (Docker.Ops.connected Docker.Ops.slow_engine))
                (Docker.Ops.connected Docker.Ops.slow_engine)) as (_ & H & _).
  apply (H "c1" (3 * Go.Second) (Some (Go.errorString "not found"))).
  - reflexivity.
  - unfold Docker.Ops.overdue. vm_compute. discriminate.
Defined.

(** The same driver on an engine that takes 1ms: the network is found; in
    a process that is then held up for 2s before the second read of the
    context, the network found is thrown away for a bare
    [context.DeadlineExceeded]. *)
Lemma docker_timely_reply_is_passed_on_unless_overtaken_witness :
  fst (Docker.Ops.NetworkInspect
         (Docker.Ops.var_Driver (Docker.Ops.connected Docker.Ops.quick_engine))
         "skupper-network" (Docker.Ops.connected Docker.Ops.quick_engine))
  = ({| Driver.NR_Name := "skupper-network" |}, None) /\
  fst (Docker.Ops.NetworkInspect
         (Docker.Ops.var_Driver (Docker.Ops.connected Docker.Ops.quick_engine))
         "skupper-network"
         (Docker.Ops.held_up (2 * Go.Second)
            (Docker.Ops.connected Docker.Ops.quick_engine)))
  = ({| Driver.NR_Name := "" |},
     Some (Docker.Ops.lib_error Go.context_DeadlineExceeded)).
Proof.
  split.
  - pose proof (docker_timely_reply_is_passed_on_unless_overtaken
                  (Docker.Ops.var_Driver
                     (Docker.Ops.connected Docker.Ops.quick_engine))
                  (Docker.Ops.connected Docker.Ops.quick_engine))
      as (_ & _ & _ & _ & _ & _ & H & _).
    apply (H "skupper-network" 1000000
             {| Docker.Ops.nr_Name := "skupper-network" |} None).
    + reflexivity.
    + intros Hover. vm_compute in Hover. apply Hover. reflexivity.
  - pose proof (docker_timely_reply_is_passed_on_unless_overtaken
                  (Docker.Ops.var_Driver
                     (Docker.Ops.connected Docker.Ops.quick_engine))
                  (Docker.Ops.held_up (2 * Go.Second)
                     (Docker.Ops.connected Docker.Ops.quick_engine)))
      as (_ & _ & _ & _ & _ & _ & H & _).
    apply (H "skupper-network" 1000000
             {| Docker.Ops.nr_Name := "skupper-network" |} None).
    + reflexivity.
    + intros Hover. vm_compute in Hover. apply Hover. reflexivity.
Defined.

(** The driver on the slow engine: the reply to the create request comes
    after the timeout and is returned all the same. *)
Lemma docker_ContainerCreate_ignores_the_deadline_witness :
  fst (Docker.Ops.ContainerCreate
         (Docker.Ops.var_Driver (Docker.Ops.connected Docker.Ops.slow_engine))
         "img" (Docker.Ops.connected Docker.Ops.slow_engine))
  = ({| Driver.CCR_ID := "" |},
     Some (Docker.Ops.lib_error (Go.errorString "not found"))).
Proof.
  apply (docker_ContainerCreate_ignores_the_deadline
           (Docker.Ops.var_Driver (Docker.Ops.connected Docker.Ops.slow_engine))
           (Docker.Ops.connected Docker.Ops.slow_engine)
           "img" (3 * Go.Second) {| Docker.Ops.ccb_ID := "" |}
           (Some (Go.errorString "not found"))).
  reflexivity.
Defined.

Section PodmanOps.
Import Go.
Import Podman.Ops.
Local Open Scope list_scope.

Variable b : Bindings.
Variable c : podmanClient.
Variable w : world.

(** The loop that appends one converted element after the other is a map. *)
Lemma append_loop_is_map A B (f : A -> B) (xs : list A) : forall acc,
  fold_left (fun acc x => acc ++ [f x]) xs acc = acc ++ map f xs.
Proof.
  induction xs as [|x xs IH]; intros acc; simpl.
  - rewrite app_nil_r. reflexivity.
  - rewrite IH, <- app_assoc. reflexivity.
Qed.

(** A key that the map does not have indexes to nil. *)
Lemma index_absent key (m : NetworkInspectReport) :
  (forall v, ~ In (key, v) m) -> index m key = jnull.
Proof.
  induction m as [|[k v] m IH]; intros Habs; simpl; [reflexivity|].
  destruct (String.eqb_spec k key) as [->|Hne].
  - destruct (Habs v). left. reflexivity.
  - apply IH. intros v' Hin. apply (Habs v'). right. exact Hin.
Qed.

Ltac run_op :=
  unfold ImageInspect, ImagesPull, ImagesList, ContainerCreate, ContainerList,
    ContainerInspect, NetworkCreate, NetworkInspect, bind, Println, request,
    ret, panic, deref, first;
  cbn [console calls fst snd];
  match goal with
  | H : _ = (_, _) |- _ => rewrite H
  end;
  cbn [console calls fst snd].

(** [NetworkInspect] names the network after the entry "name" of the first
    report, before it looks at the error.  With no report it panics, also
    when the engine returned an error; with a report it returns the name
    together with the engine's error; and a report without an entry "name"
    gives the name "<nil>". *)
Theorem podman_NetworkInspect_reads_first_report :
  forall id nir err,
    network_Inspect b (ctx c) id (calls w) = (nir, err) ->
    (nir = [] ->
     fst (NetworkInspect b c id w)
     = Panicked "index out of range [0] with length 0") /\
    (forall nir0 rest, nir = nir0 :: rest ->
     fst (NetworkInspect b c id w)
     = Returned ({| Driver.NR_Name := Sprintf_v (index nir0 "name") |}, err)) /\
    (forall nir0 rest, nir = nir0 :: rest ->
     (forall v, ~ In ("name", v) nir0) ->
     fst (NetworkInspect b c id w)
     = Returned ({| Driver.NR_Name := "<nil>" |}, err)).
Proof.
  intros id nir err H. repeat split.
  - intros ->. run_op. reflexivity.
  - intros nir0 rest ->. run_op. reflexivity.
  - intros nir0 rest -> Habs. run_op. simpl.
    rewrite (index_absent _ _ Habs). reflexivity.
Qed.

(** The two list operations return one element for each element of the
    engine's list, in the same order, with the fields copied.  On an error
    [ImagesList] returns no list; [ContainerList], which asks the engine for
    the latest container only, returns the converted list together with the
    error. *)
Theorem podman_lists_are_converted_in_order :
  (forall images err,
      images_List b (ctx c) (calls w) = (images, err) ->
      fst (ImagesList b c w)
      = Returned (match err with
                  | Some e => ([], Some e)
                  | None => (map summary_of images, None)
                  end)) /\
  (forall cl err,
      containers_List b (ctx c) (Some 1) (calls w) = (cl, err) ->
      fst (ContainerList b c w) = Returned (map container_of cl, err)).
Proof.
  split.
  - intros images err H. run_op. destruct err as [e|]; [reflexivity|].
    cbn [fst]. rewrite (append_loop_is_map _ _ summary_of). reflexivity.
  - intros cl err H. run_op.
    rewrite (append_loop_is_map _ _ container_of). reflexivity.
Qed.

(** What the operations return when the engine reports the error [e]: the
    zero value of the result with [e]; for the two inspections a pointer to
    the zero value, not nil; for [ImagesPull] no list and [e] wrapped as the
    cause of "Could not pull image".  [NetworkCreate] returns the zero
    response when the engine reports none, too: the network's identifier
    never reaches the caller. *)
Theorem podman_results_on_error :
  forall e,
    (forall id data,
        images_GetImage b (ctx c) id (calls w) = (data, Some e) ->
        fst (ImageInspect b c id w) = Returned (Some ImageInspect_zero, Some e)) /\
    (forall id data,
        containers_Inspect b (ctx c) id (calls w) = (data, Some e) ->
        fst (ContainerInspect b c id w)
        = Returned (Some InspectContainerData_zero, Some e)) /\
    (forall image r_ID,
        containers_CreateWithSpec b (ctx c) (NewSpecGenerator image false) (calls w)
        = (r_ID, Some e) ->
        fst (ContainerCreate b c image w)
        = Returned ({| Driver.CCR_ID := "" |}, Some e)) /\
    (forall refStr strSlice,
        images_Pull b (ctx c) refStr (calls w) = (strSlice, Some e) ->
        fst (ImagesPull b c refStr w)
        = Returned ([], Some (wrapError "Could not pull image" e))) /\
    (forall name options resp err,
        network_Create b (ctx c) {| nco_Driver := Driver.NCO_Driver options |}
          (Some name) (calls w) = (resp, err) ->
        fst (NetworkCreate b c name options w)
        = Returned (NetworkCreateResponse_zero, err)).
Proof.
  intros e. repeat split; intros.
  1-4: run_op; reflexivity.
  run_op. destruct err; reflexivity.
Qed.

End PodmanOps.

(** The network "skupper-network" on the engine [one_of_each], and any
    network on the engine that knows none. *)
Lemma podman_NetworkInspect_reads_first_report_witness :
  fst (Podman.Ops.NetworkInspect Podman.Ops.one_of_each Podman.Ops.system_socket
         "skupper-network" Podman.Ops.fresh)
  = Go.Returned ({| Driver.NR_Name := "skupper-network" |}, None) /\
  fst (Podman.Ops.NetworkInspect Podman.Ops.unknown_to_engine
         Podman.Ops.system_socket "skupper-network" Podman.Ops.fresh)
  = Go.Panicked "index out of range [0] with length 0".
Proof.
  split.
  - destruct (podman_NetworkInspect_reads_first_report Podman.Ops.one_of_each
                Podman.Ops.system_socket Podman.Ops.fresh "skupper-network" _ _
                eq_refl) as (_ & H & _).
    apply (H _ _ eq_refl).
  - destruct (podman_NetworkInspect_reads_first_report Podman.Ops.unknown_to_engine
                Podman.Ops.system_socket Podman.Ops.fresh "skupper-network" _ _
                eq_refl) as (H & _).
    apply H. reflexivity.
Defined.

Lemma podman_lists_are_converted_in_order_witness :
  fst (Podman.Ops.ContainerList Podman.Ops.unknown_to_engine
         Podman.Ops.system_socket Podman.Ops.fresh)
  = Go.Returned ([], Some (Go.errorString "no such object")).
Proof.
  destruct (podman_lists_are_converted_in_order Podman.Ops.unknown_to_engine
              Podman.Ops.system_socket Podman.Ops.fresh) as (_ & H).
  apply (H [] (Some (Go.errorString "no such object"))). reflexivity.
Defined.

Lemma podman_results_on_error_witness :
  fst (Podman.Ops.ContainerInspect Podman.Ops.unknown_to_engine
         Podman.Ops.system_socket "c1" Podman.Ops.fresh)
  = Go.Returned (Some Podman.Ops.InspectContainerData_zero,
                 Some (Go.errorString "no such object")).
Proof.
  destruct (podman_results_on_error Podman.Ops.unknown_to_engine
              Podman.Ops.system_socket Podman.Ops.fresh
              (Go.errorString "no such object")) as (_ & H & _).
  apply (H "c1" None). reflexivity.
Defined.

Section WatchdogSafety.
Import Go Docker.
Local Open Scope list_scope.

(** A goroutine that runs has the reporter's stop channel to thank for its
    end, or a stalled tick. *)
Lemma react_keeps_running p e :
  watchdog p = running -> e <> ev_stop ->
  (forall now, e = ev_tick now ->
     time_Since now (timestamp (p_progress p)) <= imagePullProgressDeadline p) ->
  watchdog (react p e) = running /\ cancel_calls (react p e) = cancel_calls p.
Proof.
  intros Hrun Hns Hfresh. destruct e as [msg now|now| |]; simpl.
  - auto.
  - rewrite Hrun, on_tick_alive by (apply Hfresh; reflexivity). auto.
  - auto.
  - contradiction Hns. reflexivity.
Qed.

(** The watchdog spares a pull that makes progress.  If at every tick the
    latest progress (or, before the first message, the start of the pull) is
    no older than the stall deadline, the goroutine never calls [cancel],
    whatever else happens; and until it receives from the stop channel it
    keeps running. *)
Theorem watchdog_spares_fresh_progress :
  forall img d t0 evs,
    let p0 := progressReporter_start (newProgressReporter img d t0) in
    (forall pre now post,
        evs = pre ++ ev_tick now :: post ->
        time_Since now (timestamp (p_progress (reactAll p0 pre))) <= d) ->
    cancel_calls (reactAll p0 evs) = 0%nat /\
    (~ In ev_stop evs -> watchdog (reactAll p0 evs) = running).
Proof.
  intros img d t0 evs p0.
  induction evs as [|e evs IH] using rev_ind; intros Hfresh.
  - split; reflexivity.
  - destruct IH as [Hc Hr].
    { intros pre now post Heq. apply (Hfresh pre now (post ++ [e])).
      rewrite Heq, <- app_assoc. reflexivity. }
    rewrite reactAll_app. simpl.
    assert (Hd : imagePullProgressDeadline (reactAll p0 evs) = d)
      by (rewrite reactAll_deadline; reflexivity).
    destruct (watchdog (reactAll p0 evs)) eqn:Hw.
    + destruct (react_not_running (reactAll p0 evs) e) as [H1 H2]; [congruence|].
      split; [congruence|]. intros Hns. exfalso.
      assert (Hrun : not_started = running); [|discriminate Hrun].
      apply Hr. intros Hin. apply Hns. apply in_or_app. left. exact Hin.
    + destruct e as [msg now|now| |]; simpl; rewrite ?Hw.
      * split; [exact Hc|]. intros. reflexivity.
      * rewrite on_tick_alive; [split; [exact Hc|intros; exact Hw]|].
        rewrite Hd. apply (Hfresh evs now []). reflexivity.
      * split; [exact Hc|]. intros. reflexivity.
      * destruct (stopCh_closed (reactAll p0 evs)); simpl.
        -- split; [exact Hc|]. intros Hns. contradiction Hns.
           apply in_or_app. right. left. reflexivity.
        -- split; [exact Hc|]. intros. exact Hw.
    + destruct (react_not_running (reactAll p0 evs) e) as [H1 H2]; [congruence|].
      split; [congruence|]. intros Hns. exfalso.
      assert (Hrun : exited = running); [|discriminate Hrun].
      apply Hr. intros Hin. apply Hns. apply in_or_app. left. exact Hin.
Qed.

(** A pull whose messages come at 3s and 12s, with the ticks at 10s and
    20s. *)
Lemma watchdog_spares_fresh_progress_witness :
  let m := {| ID := "layer"; Status := "Downloading"; Progress := None;
              Error := None |} in
  let p0 := progressReporter_start (newProgressReporter "img" (10 * Second) 0) in
  cancel_calls
    (reactAll p0 [ev_set m (3 * Second); ev_tick (10 * Second);
                  ev_set m (12 * Second); ev_tick (20 * Second)]) = 0%nat.
Proof.
  intros m p0.
  apply (watchdog_spares_fresh_progress "img" (10 * Second) 0
           [ev_set m (3 * Second); ev_tick (10 * Second);
            ev_set m (12 * Second); ev_tick (20 * Second)]).
  intros pre now post Heq.
  destruct pre as [|e0 [|e1 [|e2 [|e3 [|e4 pre]]]]]; simpl in Heq.
  all: repeat match goal with
       | H : _ :: _ = _ :: _ |- _ => inversion H; clear H
       end.
  all: try discriminate.
  all: subst; vm_compute; discriminate.
Defined.

End WatchdogSafety.

Section WaitPace.
Import Go Docker.
Local Open Scope list_scope.

(** The [select] does not go back in time. *)
Lemma select_later ctx t0 interval last coin now c t :
  select ctx t0 interval last coin now = (c, t) -> now <= t.
Proof.
  unfold select, ctx_Done.
  destruct (Z.leb_spec (ctx_deadline ctx) now);
    destruct (Z.leb_spec (next_fire t0 interval last) now).
  - intros [= _ <-]. lia.
  - intros [= _ <-]. lia.
  - intros [= _ <-]. lia.
  - destruct (Z.ltb_spec (next_fire t0 interval last) (ctx_deadline ctx)).
    + intros [= _ <-]. lia.
    + destruct (Z.ltb_spec (ctx_deadline ctx) (next_fire t0 interval last));
        intros [= _ <-]; lia.
Qed.

(** Every round after the first has waited for a tick of its own. *)
Lemma retry_loop_pace engine id status ctx t0 interval coins :
  0 < interval ->
  (forall k, 0 <= fst (engine id k)) ->
  forall fuel round last w r w',
    t0 + Z.of_nat round * interval <= last -> last <= clock w ->
    retry_loop fuel ctx t0 interval coins round last
      (wait_condition engine id status) w = Some (r, w') ->
    (inspect_calls w < inspect_calls w')%nat /\
    t0 + Z.of_nat (round + pred (inspect_calls w' - inspect_calls w)) * interval
    <= clock w'.
Proof.
  intros Hi Hlat.
  induction fuel as [|fuel IH]; intros round last w r w' Hlast Hclk; simpl;
    [discriminate|].
  pose proof (wait_condition_no_error engine id status w) as [Herr Hcalls].
  assert (Hc1 : clock w <= clock (snd (wait_condition engine id status w))).
  { unfold wait_condition. specialize (Hlat (inspect_calls w)).
    destruct (engine id (inspect_calls w)) as [took [e|c]]; simpl in *; lia. }
  destruct (wait_condition engine id status w) as [[ok err] w1].
  simpl in Herr, Hcalls, Hc1. subst err.
  destruct ok.
  - intros [= <- <-]. rewrite Hcalls. split; [lia|].
    replace (S (inspect_calls w) - inspect_calls w)%nat with 1%nat by lia.
    simpl. rewrite Nat.add_0_r. lia.
  - destruct (select ctx t0 interval last (coins round) (clock w1))
      as [c t] eqn:Hsel.
    pose proof (select_later _ _ _ _ _ _ _ _ Hsel) as Hlater.
    destruct c.
    + intros [= <- <-]. simpl. rewrite Hcalls. split; [lia|].
      replace (S (inspect_calls w) - inspect_calls w)%nat with 1%nat by lia.
      simpl. rewrite Nat.add_0_r. lia.
    + intros Hloop.
      pose proof (select_tick _ _ _ _ _ _ _ Hsel) as Htick.
      pose proof (next_fire_lower t0 interval last (Z.of_nat round) Hi Hlast) as Hnf.
      apply IH in Hloop; [|try (simpl; lia)..].
      * simpl in Hloop. rewrite Hcalls in Hloop. destruct Hloop as [Hlt Hpace].
        split; [lia|].
        replace (round + pred (inspect_calls w' - inspect_calls w))%nat
          with (S round + pred (inspect_calls w' - S (inspect_calls w)))%nat
          by lia.
        exact Hpace.
      * rewrite Nat2Z.inj_succ. lia.
Qed.

(** The docker [ContainerWait] polls no faster than its interval.  A call
    that has returned after [n] inspect calls has lasted at least [n - 1]
    intervals (inspect calls taking time, not giving it); and with an
    interval that is not positive the call panics, in the ticker's
    constructor, before any inspect call. *)
Theorem docker_wait_polls_no_faster_than_interval :
  forall engine fuel coins now id status timeout interval,
    (forall k, 0 <= fst (engine id k)) ->
    (forall r w',
        ContainerWait engine fuel coins now id status timeout interval
        = Some (Returned r, w') ->
        0 < interval /\
        (0 < inspect_calls w')%nat /\
        now + Z.of_nat (pred (inspect_calls w')) * interval <= clock w') /\
    (interval <= 0 ->
     exists why,
       ContainerWait engine fuel coins now id status timeout interval
       = Some (Panicked why,
               {| clock := now; inspect_calls := 0; var_err := None |})).
Proof.
  intros engine fuel coins now id status timeout interval Hlat. split.
  - intros r w'. unfold ContainerWait, RetryWithContext.
    destruct (Z.leb_spec interval 0); [discriminate|].
    destruct (retry_loop _ _ _ _ _ _ _ _ _) as [[r0 w0]|] eqn:Hloop;
      [|discriminate].
    intros [= <- <-]. simpl.
    apply (retry_loop_pace engine id status _ _ _ _ H Hlat) in Hloop;
      [|simpl; lia..].
    simpl in Hloop. destruct Hloop as [Hlt Hpace].
    rewrite Nat.sub_0_r in Hpace. simpl in Hpace.
    split; [assumption|]. split; [lia|exact Hpace].
  - intros Hneg. unfold ContainerWait, RetryWithContext.
    destruct (Z.leb_spec interval 0); [|lia]. eauto.
Qed.

(** The wait of the command (30s, every 5s) for a container that is running
    from the fourth inspect on. *)
Lemma docker_wait_polls_no_faster_than_interval_witness :
  exists w',
    ContainerWait (starts_after 3) 20 (fun _ => true) 0
      "c1" "running" (30 * Second) (5 * Second) = Some (Returned None, w') /\
    0 + Z.of_nat (pred (inspect_calls w')) * (5 * Second) <= clock w'.
Proof.
  eexists. split; [vm_compute; reflexivity|].
  assert (Hlat : forall k, 0 <= fst (starts_after 3 "c1" k))
    by (intros k; simpl; lia).
  destruct (docker_wait_polls_no_faster_than_interval (starts_after 3) 20
              (fun _ => true) 0 "c1" "running" (30 * Second) (5 * Second) Hlat)
    as [H _].
  apply (H None {| clock := 15001000000; inspect_calls := 4; var_err := None |}).
  vm_compute. reflexivity.
Defined.

End WaitPace.

Section DockerExecRelease.
Import Go.
Import Docker.Exec.
Local Open Scope list_scope.

Variable eng : engine.
Variable id : string.
Variable cmd : list string.

Lemma inv_release_step t s :
  inv_result eng id cmd s -> inv_release eng id cmd s ->
  inv_release eng id cmd (step eng id cmd t s).
Proof.
  intros Hres Hinv. unfold step. destruct t.
  - unfold step_main. unfold inv_result in Hres. unfold inv_release in Hinv.
    destruct (main s) eqn:Hm.
    + destruct Hres as (Hd & _). destruct Hinv as (Hc & Ha).
      destruct (ContainerExecCreate eng id cmd) as [e|x] eqn:Hcr.
      * unfold inv_release; simpl. split; [reflexivity|]. split.
        -- intros (x & src & Hx & _). congruence.
        -- auto.
      * unfold inv_release; simpl. auto.
    + destruct Hres as (Hcr & Hd & _). destruct Hinv as (Hc & Ha).
      destruct (ContainerExecAttach eng execID) as [e|src] eqn:Hat.
      * unfold inv_release; simpl. split; [reflexivity|]. split.
        -- intros (x & src & Hx & Hs). congruence.
        -- auto.
      * unfold inv_release; simpl. auto.
    + unfold inv_release; simpl. exact Hinv.
    + destruct Hres as (Hcr & src & Hat & Hdr). destruct Hinv as (Hc & Ha).
      destruct (outputDone s) as [|v rest] eqn:Hq.
      { unfold inv_release. rewrite Hm. auto. }
      assert (Hex : drain s = g_exit).
      { destruct (drain s); try contradiction; auto.
        - destruct Hdr as (_ & _ & _ & Hq'). congruence.
        - destruct Hdr as (_ & _ & Hq'). congruence. }
      assert (Hatt : attaches eng id cmd) by (exists execID, src; auto).
      destruct v as [e|]; unfold inv_release; simpl.
      * split; [reflexivity|]. split; [auto|]. intros Hn. contradiction.
      * auto.
    + destruct Hres as (Hcr & src & Hat & _ & Hd & _). destruct Hinv as (Hc & Ha).
      assert (Hatt : attaches eng id cmd) by (exists execID, src; auto).
      destruct (ContainerExecInspect eng execID); unfold inv_release; simpl.
      all: split; [reflexivity|]; split; [auto|]; intros Hn; contradiction.
    + unfold inv_release. rewrite Hm. exact Hinv.
  - unfold step_drain. unfold inv_result in Hres.
    destruct (drain s) eqn:Hd.
    + exact Hinv.
    + destruct (StdCopy src (mem_outBuf s) (mem_errBuf s)) as [[out err] e].
      unfold inv_release in *; simpl.
      destruct (main s) eqn:Hm; try exact Hinv.
      destruct Hres as (_ & [H|H] & _); discriminate.
    + destruct (outputDone s) eqn:Hq; [|exact Hinv].
      unfold inv_release in *; simpl.
      destruct (main s) eqn:Hm; try exact Hinv.
      destruct Hres as (_ & [H|H] & _); discriminate.
    + exact Hinv.
Qed.

Lemma inv_release_reachable sched :
  inv_release eng id cmd (ContainerExec eng id cmd sched).
Proof.
  assert (H : inv_result eng id cmd (ContainerExec eng id cmd sched) /\
              inv_release eng id cmd (ContainerExec eng id cmd sched)); [|apply H].
  apply docker_exec_invariant
    with (P := fun s => inv_result eng id cmd s /\ inv_release eng id cmd s).
  - split; [apply inv_result_init|]. unfold inv_release; simpl. auto.
  - intros t s [Hr Hi]. split.
    + apply inv_result_step. exact Hr.
    + apply inv_release_step; assumption.
Qed.

End DockerExecRelease.

(** The docker [ContainerExec] gives back what it took, on every path and
    under every schedule.  While the call has not returned, its context is
    not cancelled and the attached stream is not closed.  Once it has
    returned, the context is cancelled; if the engine gave it a stream, the
    stream is closed and the drain goroutine has ended (its send never blocks:
    the channel holds one value); if not, there is no stream to close and no
    goroutine was started. *)
Theorem docker_exec_releases_what_it_took :
  forall eng id cmd sched,
    let s := Docker.Exec.ContainerExec eng id cmd sched in
    (Docker.Exec.returned s = None ->
     Docker.Exec.ctx_cancelled s = false /\ Docker.Exec.attach_closed s = false) /\
    (forall r, Docker.Exec.returned s = Some r ->
     Docker.Exec.ctx_cancelled s = true /\
     (Docker.Exec.attaches eng id cmd ->
      Docker.Exec.attach_closed s = true /\
      Docker.Exec.drain s = Docker.Exec.g_exit) /\
     (~ Docker.Exec.attaches eng id cmd ->
      Docker.Exec.attach_closed s = false /\
      Docker.Exec.drain s = Docker.Exec.g_none)).
Proof.
  intros eng id cmd sched s.
  pose proof (inv_release_reachable eng id cmd sched) as Hinv. fold s in Hinv.
  unfold Docker.Exec.inv_release, Docker.Exec.returned in *.
  destruct (Docker.Exec.main s); split; intros; try discriminate; auto.
Qed.

Section PodmanPipe.
Import Go.
Import Podman.Exec.
Local Open Scope list_scope.

Variable w : world.
Variable id : string.
Variable cmd : list string.

Ltac pipe_tac :=
  intros; simpl in *;
  repeat match goal with
  | H : _ /\ _ |- _ => destruct H
  | H : True -> _ |- _ => specialize (H I)
  | H : drain _ = _ |- _ => rewrite H in *; clear H
  end;
  simpl in *;
  first [ assumption | reflexivity | discriminate | congruence | contradiction
        | solve [rewrite ?in_app_iff in *; simpl in *;
                 intuition (try discriminate; try congruence)] ].

Lemma inv_pipe_step t s :
  inv_order s -> inv_pipe s -> inv_pipe (step w id cmd t s).
Proof.
  intros Hord Hinv.
  pose proof Hord as (_ & _ & _ & Hbg & Hag & _).
  pose proof Hinv as (Hr & Hw).
  unfold step. destruct t.
  - unfold step_main. destruct (main s) eqn:Hm; simpl in *.
    all: try exact Hinv.
    + unfold inv_pipe; simpl. split; pipe_tac.
    + destruct (ExecCreate w id cmd); unfold inv_pipe; simpl; rewrite ?Hr.
      all: repeat split; pipe_tac.
    + destruct (ExecStartAndAttach w execID) as [[out err] e].
      destruct (write_blocks w (os_Stdout s) out s);
        [unfold inv_pipe; simpl; split; pipe_tac|].
      destruct e; unfold inv_pipe; simpl; rewrite ?Hr.
      all: repeat split; try pipe_tac.
      all: destruct (os_Stdout s); destruct (os_Stderr s); simpl; pipe_tac.
    + unfold inv_pipe; simpl. split; pipe_tac.
    + unfold inv_pipe; simpl. split; pipe_tac.
    + destruct (ExecInspect w execID); unfold inv_pipe; simpl; split; pipe_tac.
    + destruct (var_err s); [|destruct inspectOut];
        unfold inv_pipe; simpl; split; pipe_tac.
    + unfold inv_pipe; simpl. split; pipe_tac.
    + unfold inv_pipe; simpl. split; pipe_tac.
    + unfold inv_pipe; simpl. split; pipe_tac.
    + destruct (drain s) eqn:Hd; try exact Hinv.
      unfold inv_pipe, rendezvous; simpl. repeat split; pipe_tac.
  - unfold step_drain. destruct (drain s) eqn:Hd; try exact Hinv.
    + assert (Hnr : forall r, main s <> p_returned r).
      { intros r Hm. rewrite Hm in Hw. destruct Hw as [Hy Hn].
        destruct (in_dec exec_event_eq_dec ev_go (trace s)) as [Hin|Hnin].
        - destruct (Hy Hin) as [_ H]. discriminate.
        - destruct (Hn Hnin) as (_ & H & _). discriminate. }
      destruct (faulty w s).
      * unfold inv_pipe; simpl. split; [first [reflexivity | exact Hr]|].
        destruct (main s) eqn:Hm; try exact Hw. destruct (Hnr _ eq_refl).
      * destruct (String.eqb (pipe s) "").
        -- destruct (w_closed s) eqn:Hwc; [|exact Hinv].
           unfold inv_pipe; simpl. rewrite Hwc. split; [first [reflexivity | exact Hr]|].
           destruct (main s) eqn:Hm; try exact Hw. destruct (Hnr _ eq_refl).
        -- unfold inv_pipe, read_pipe; simpl. rewrite Hd. split; [exact Hr|].
           destruct (main s) eqn:Hm; exact Hw.
    + assert (Hnr : forall r, main s <> p_returned r).
      { intros r Hm. rewrite Hm in Hw. destruct Hw as [Hy Hn].
        destruct (in_dec exec_event_eq_dec ev_go (trace s)) as [Hin|Hnin].
        - destruct (Hy Hin) as [_ H]. discriminate.
        - destruct (Hn Hnin) as (_ & H & _). discriminate. }
      unfold inv_pipe; simpl. split; [first [reflexivity | exact Hr]|].
      destruct (main s) eqn:Hm; try exact Hw. destruct (Hnr _ eq_refl).
    + destruct (main s) eqn:Hm; try exact Hinv.
      unfold inv_pipe, rendezvous; simpl. repeat split; pipe_tac.
Qed.

Lemma inv_pipe_reachable sched : inv_pipe (ContainerExec w id cmd sched).
Proof.
  assert (H : inv_order (ContainerExec w id cmd sched) /\
              inv_pipe (ContainerExec w id cmd sched)); [|apply H].
  apply podman_exec_invariant with (P := fun s => inv_order s /\ inv_pipe s).
  - split; [apply inv_order_init|]. unfold inv_pipe; simpl. auto.
  - intros t s [Ho Hp]. split.
    + apply inv_order_step_p. exact Ho.
    + apply inv_pipe_step; assumption.
Qed.

End PodmanPipe.

(** The pipe of the podman [ContainerExec].  When a call has returned after
    its [go] statement, both ends of its pipe are closed and the drain
    goroutine has ended; when it has returned before it - with the error of
    exec-create or of exec-start - neither end is closed and no goroutine was
    started: the early returns come before the deferred function is
    registered. *)
Theorem podman_exec_closes_pipe_only_after_go :
  forall w id cmd sched r,
    Podman.Exec.returned (Podman.Exec.ContainerExec w id cmd sched) = Some r ->
    let s := Podman.Exec.ContainerExec w id cmd sched in
    (In Go.ev_go (Podman.Exec.trace s) ->
     Podman.Exec.w_closed s = true /\ Podman.Exec.r_closed s = true /\
     Podman.Exec.drain s = Podman.Exec.g_exit) /\
    (~ In Go.ev_go (Podman.Exec.trace s) ->
     Podman.Exec.w_closed s = false /\ Podman.Exec.r_closed s = false /\
     Podman.Exec.drain s = Podman.Exec.g_none /\ snd r <> None).
Proof.
  intros w id cmd sched r Hret s.
  pose proof (inv_pipe_reachable w id cmd sched) as [Hr Hw]. fold s in Hr, Hw.
  unfold Podman.Exec.returned in Hret. fold s in Hret.
  destruct (Podman.Exec.main s); try discriminate.
  injection Hret as ->. destruct Hw as [Hy Hn]. split.
  - intros Hin. destruct (Hy Hin) as [H1 H2]. rewrite H2 in Hr. auto.
  - intros Hnin. destruct (Hn Hnin) as (H1 & H2 & H3). rewrite H2 in Hr. auto.
Qed.

(** The session of [hello], which goes through, and the call on an engine
    that does not know the container. *)
Lemma podman_exec_closes_pipe_only_after_go_witness :
  Podman.Exec.w_closed
    (Podman.Exec.ContainerExec Podman.Exec.hello "c1" ["echo"; "hello"]
       Podman.Exec.alternate) = true /\
  Podman.Exec.w_closed
    (Podman.Exec.ContainerExec Podman.Exec.no_container "c1" ["echo"; "hello"]
       Podman.Exec.alternate) = false.
Proof.
  split.
  - assert (Hret : Podman.Exec.returned
              (Podman.Exec.ContainerExec Podman.Exec.hello "c1" ["echo"; "hello"]
                 Podman.Exec.alternate)
            = Some ({| Driver.ExitCode := 0;
                       Driver.OutBuffer := Some Podman.Exec.outBuf;
                       Driver.ErrBuffer := Some Podman.Exec.errBuf |}, None))
      by (vm_compute; reflexivity).
    destruct (podman_exec_closes_pipe_only_after_go _ _ _ _ _ Hret) as [H _].
    apply H. vm_compute. auto 10.
  - assert (Hret : Podman.Exec.returned
              (Podman.Exec.ContainerExec Podman.Exec.no_container "c1"
                 ["echo"; "hello"] Podman.Exec.alternate)
            = Some (Driver.ExecResult_zero,
                    Some (Go.errorString "no such container")))
      by (vm_compute; reflexivity).
    destruct (podman_exec_closes_pipe_only_after_go _ _ _ _ _ Hret) as [_ H].
    apply H. vm_compute. intros [Hin|[Hin|[]]]; discriminate Hin.
Defined.
